(** * gorace: a cancelable task around one goroutine

    Shallow embedding of [gorace.go] (package [gorace]) as an interleaving
    small-step semantics.  The task object [goCancelable] is the shared
    store; every goroutine is a stack of activation frames whose bodies are
    the statements of the Go methods, one source statement per step, so that
    every interleaving the Go scheduler can produce between two statements is
    a run of the model.  Deferred calls and panics follow the Go rules: a
    panic abandons the rest of the body, runs the deferred calls of each
    frame from the innermost outwards and, as the package never calls
    [recover], terminates the process when it leaves the goroutine. *)

From stdpp Require Import base tactics option list numbers strings.

#[local] Set Warnings "-register-all".
Open Scope list_scope.

(** ** Data model *)

(** Values carried by [interface{}]: the nil interface and the dynamic
    types the tests and the sample program send (bool, int, error). *)
Inductive value :=
| VNil
| VBool (b : bool)
| VInt (n : Z)
| VErr (msg : string).

(** A buffered Go channel [chan interface{}]. *)
Record chan := Chan {
  buf : list value;      (* queued values, oldest first *)
  cap : nat;             (* capacity given to [make] *)
  closed : bool
}.

(** [make(chan interface{}, n)] *)
Definition make_chan (n : nat) : chan := Chan [] n false.

(** What user code can do with a [GoCancelable]: the interface methods, a
    receive on the channel [Receive()] returns, a [go] statement and a
    panic.  User code is a straight-line script of such commands. *)
Inductive ucmd :=
| UCancel                     (* cancelable.Cancel() *)
| USend (v : value)           (* cancelable.Send(v) *)
| UReceive                    (* <-cancelable.Receive() *)
| UStart                      (* cancelable.Start(ctx) *)
| UStartBackground            (* cancelable.StartBackground(ctx) *)
| ULastResult                 (* cancelable.LastResult() *)
| UIsCanceled                 (* cancelable.IsCanceled() *)
| UGo (code : list ucmd)      (* go func() { code }() *)
| UPanic.                     (* panic(...) *)

(** The functions that have activation frames. *)
Inductive method :=
| MCancel
| Mcancel
| MIsCanceled
| MSend (result : value)
| MReceive
| MStart
| MStartBackground
| MLastResult
| MgoFunc                     (* the func literal started by [Start] *)
| Mhandler                    (* gc.handler *)
| MUser (code : list ucmd).   (* a function of the client program *)

(** A deferred call: [defer gc.mu.Unlock()] or [defer gc.Cancel()]. *)
Inductive dcall :=
| DUnlock
| DCall (m : method).

Inductive cond :=
| CNotCanceled                (* !gc.canceled *)
| CNotCanceledNotStarted.     (* !gc.canceled && !gc.started *)

(** What a call yields to its caller. *)
Inductive result :=
| RVoid
| RBool (b : bool)
| RVal (v : value)
| RSelf                       (* gc, the receiver *)
| RChan.                      (* gc.send *)

(** The operand of a [return]. *)
Inductive rexp :=
| EAcc                        (* the value of the call just made *)
| EBool (b : bool)
| ECanceled                   (* gc.canceled *)
| ELastResult                 (* gc.lastResult *)
| ESelf                       (* gc *)
| ESendChan.                  (* gc.send *)

Inductive stmt :=
| SLock                       (* gc.mu.Lock() *)
| SDefer (d : dcall)          (* defer d *)
| SIf (c : cond) (th el : list stmt)
| SSetCanceled                (* gc.canceled = true *)
| SClose                      (* close(gc.send) *)
| SSetStarted                 (* gc.started = true *)
| SSetLastResult (v : value)  (* gc.lastResult = v *)
| SChanSend (v : value)       (* gc.send <- v *)
| SReturn (e : rexp)
| SCall (m : method)
| SGo (m : method)            (* go m(...) *)
| SRecv                       (* receive on the channel just obtained *)
| SPanic.

(** The struct [goCancelable].  [mu] is the [sync.Mutex]: [None] when
    unlocked, [Some g] when locked, [g] being the goroutine whose [Lock]
    went through (Go does not record it; it is kept to name the goroutine
    that is inside the critical section). *)
Record goCancelable := GC {
  handler : option (list ucmd);   (* [None] is a nil func *)
  send : chan;
  canceled : bool;
  started : bool;
  lastResult : value;
  mu : option nat
}.

(** [GoRace(handler)]: a capacity-1 channel, every other field zero. *)
Definition GoRace (handler : option (list ucmd)) : goCancelable :=
  {| handler := handler; send := make_chan 1; canceled := false;
     started := false; lastResult := VNil; mu := None |}.

(** ** The methods of [gorace.go], statement by statement *)

Definition Cancel : list stmt :=
  [SLock; SDefer DUnlock; SCall Mcancel; SReturn EAcc].

Definition cancel : list stmt :=
  [SIf CNotCanceled
     [SSetCanceled; SClose; SReturn (EBool true)]
     [SReturn (EBool false)]].

Definition IsCanceled : list stmt :=
  [SLock; SDefer DUnlock; SReturn ECanceled].

Definition Send (result : value) : list stmt :=
  [SLock; SDefer DUnlock;
   SIf CNotCanceled [SSetLastResult result; SChanSend result] []].

Definition Receive : list stmt := [SReturn ESendChan].

Definition goFunc : list stmt := [SDefer (DCall MCancel); SCall Mhandler].

Definition Start : list stmt :=
  [SLock; SDefer DUnlock;
   SIf CNotCanceledNotStarted [SSetStarted; SGo MgoFunc] [];
   SReturn ESelf].

Definition StartBackground : list stmt := [SGo MStart; SReturn ESelf].

Definition LastResult : list stmt :=
  [SLock; SDefer DUnlock; SReturn ELastResult].

(** User code as statements. *)
Definition ustmt (u : ucmd) : list stmt :=
  match u with
  | UCancel => [SCall MCancel]
  | USend v => [SCall (MSend v)]
  | UReceive => [SCall MReceive; SRecv]
  | UStart => [SCall MStart]
  | UStartBackground => [SCall MStartBackground]
  | ULastResult => [SCall MLastResult]
  | UIsCanceled => [SCall MIsCanceled]
  | UGo code => [SGo (MUser code)]
  | UPanic => [SPanic]
  end.

Definition user (code : list ucmd) : list stmt := concat (map ustmt code).

(** The body a call of [m] starts with.  Calling a nil [handler] panics;
    it is given the body [panic], which unwinds into the caller at once
    (the frame has no deferred call). *)
Definition body_of (gc : goCancelable) (m : method) : list stmt :=
  match m with
  | MCancel => Cancel
  | Mcancel => cancel
  | MIsCanceled => IsCanceled
  | MSend v => Send v
  | MReceive => Receive
  | MStart => Start
  | MStartBackground => StartBackground
  | MLastResult => LastResult
  | MgoFunc => goFunc
  | Mhandler => match handler gc with
                | Some code => user code
                | None => [SPanic]
                end
  | MUser code => user code
  end.

(** ** Goroutines *)

Record frame := Frame {
  fn : method;
  body : list stmt;        (* statements still to run *)
  defers : list dcall;     (* deferred calls, last registered first *)
  acc : result;            (* value of the last call made *)
  ret : result;            (* value to return *)
  panicking : bool
}.

Definition new_frame (gc : goCancelable) (m : method) : frame :=
  Frame m (body_of gc m) [] RVoid RVoid false.

Inductive panic_reason :=
| PCloseClosed               (* close of closed channel *)
| PSendClosed                (* send on closed channel *)
| PUser.                     (* panic raised by user code *)

Inductive event :=
| EvAssign (g : nat) (v : value)         (* gc.lastResult = v *)
| EvChanSend (g : nat) (v : value)       (* v placed on gc.send *)
| EvClose (g : nat)                      (* gc.send closed *)
| EvCall (g : nat) (m : method)
| EvGo (g : nat) (m : method)
| EvRet (g : nat) (m : method) (r : result)
| EvRecv (g : nat) (r : option value)    (* [None]: closed and drained *)
| EvPanic (g : nat) (why : panic_reason)
| EvCrash (g : nat).                     (* the process terminates *)

(** What one step of a goroutine does. *)
Record outcome := Outcome {
  o_task : goCancelable;
  o_stack : list frame;
  o_spawn : list (list frame);   (* goroutines started by the step *)
  o_events : list event;
  o_crash : bool
}.

Definition set_body (k : list stmt) (f : frame) : frame :=
  Frame (fn f) k (defers f) (acc f) (ret f) (panicking f).
Definition set_defers (ds : list dcall) (f : frame) : frame :=
  Frame (fn f) (body f) ds (acc f) (ret f) (panicking f).
Definition set_acc (r : result) (f : frame) : frame :=
  Frame (fn f) (body f) (defers f) r (ret f) (panicking f).
Definition set_ret (r : result) (f : frame) : frame :=
  Frame (fn f) [] (defers f) (acc f) r (panicking f).
(** A panic abandons what is left of the body. *)
Definition set_panic (f : frame) : frame :=
  Frame (fn f) [] (defers f) (acc f) (ret f) true.

Definition set_send (c : chan) (gc : goCancelable) : goCancelable :=
  GC (handler gc) c (canceled gc) (started gc) (lastResult gc) (mu gc).
Definition set_canceled (gc : goCancelable) : goCancelable :=
  GC (handler gc) (send gc) true (started gc) (lastResult gc) (mu gc).
Definition set_started (gc : goCancelable) : goCancelable :=
  GC (handler gc) (send gc) (canceled gc) true (lastResult gc) (mu gc).
Definition set_lastResult (v : value) (gc : goCancelable) : goCancelable :=
  GC (handler gc) (send gc) (canceled gc) (started gc) v (mu gc).
Definition set_mu (m : option nat) (gc : goCancelable) : goCancelable :=
  GC (handler gc) (send gc) (canceled gc) (started gc) (lastResult gc) m.

Definition eval_cond (gc : goCancelable) (c : cond) : bool :=
  match c with
  | CNotCanceled => negb (canceled gc)
  | CNotCanceledNotStarted => negb (canceled gc) && negb (started gc)
  end.

Definition eval_rexp (gc : goCancelable) (f : frame) (e : rexp) : result :=
  match e with
  | EAcc => acc f
  | EBool b => RBool b
  | ECanceled => RBool (canceled gc)
  | ELastResult => RVal (lastResult gc)
  | ESelf => RSelf
  | ESendChan => RChan
  end.

(** One statement [i] of the top frame, [f] being that frame with [i]
    already removed from its body.  [None]: the goroutine is blocked. *)
Definition exec_stmt (g : nat) (gc : goCancelable) (i : stmt)
    (f : frame) (rest : list frame) : option outcome :=
  match i with
  | SLock =>
      match mu gc with
      | None => Some (Outcome (set_mu (Some g) gc) (f :: rest) [] [] false)
      | Some _ => None
      end
  | SDefer d =>
      Some (Outcome gc (set_defers (d :: defers f) f :: rest) [] [] false)
  | SIf c th el =>
      Some (Outcome gc
              (set_body ((if eval_cond gc c then th else el) ++ body f) f :: rest)
              [] [] false)
  | SSetCanceled => Some (Outcome (set_canceled gc) (f :: rest) [] [] false)
  | SClose =>
      if closed (send gc)
      then Some (Outcome gc (set_panic f :: rest) [] [EvPanic g PCloseClosed] false)
      else Some (Outcome (set_send (Chan (buf (send gc)) (cap (send gc)) true) gc)
                   (f :: rest) [] [EvClose g] false)
  | SSetStarted => Some (Outcome (set_started gc) (f :: rest) [] [] false)
  | SSetLastResult v =>
      Some (Outcome (set_lastResult v gc) (f :: rest) [] [EvAssign g v] false)
  | SChanSend v =>
      if closed (send gc)
      then Some (Outcome gc (set_panic f :: rest) [] [EvPanic g PSendClosed] false)
      else if length (buf (send gc)) <? cap (send gc)
      then Some (Outcome (set_send (Chan (buf (send gc) ++ [v]) (cap (send gc)) false) gc)
                   (f :: rest) [] [EvChanSend g v] false)
      else None
  | SReturn e =>
      Some (Outcome gc (set_ret (eval_rexp gc f e) f :: rest) [] [] false)
  | SCall m =>
      Some (Outcome gc (new_frame gc m :: f :: rest) [] [EvCall g m] false)
  | SGo m =>
      Some (Outcome gc (f :: rest) [[new_frame gc m]] [EvGo g m] false)
  | SRecv =>
      match buf (send gc) with
      | v :: b =>
          Some (Outcome (set_send (Chan b (cap (send gc)) (closed (send gc))) gc)
                  (set_acc (RVal v) f :: rest) [] [EvRecv g (Some v)] false)
      | [] =>
          if closed (send gc)
          then Some (Outcome gc (set_acc (RVal VNil) f :: rest) []
                       [EvRecv g None] false)
          else None
      end
  | SPanic => Some (Outcome gc (set_panic f :: rest) [] [EvPanic g PUser] false)
  end.

(** A deferred call, run while the frame [f] returns or unwinds.
    Unlocking an unlocked [sync.Mutex] is a fatal error of the runtime. *)
Definition exec_defer (g : nat) (gc : goCancelable) (d : dcall)
    (f : frame) (rest : list frame) : outcome :=
  match d with
  | DUnlock =>
      match mu gc with
      | Some _ => Outcome (set_mu None gc) (f :: rest) [] [] false
      | None => Outcome gc (f :: rest) [] [EvCrash g] true
      end
  | DCall m => Outcome gc (new_frame gc m :: f :: rest) [] [EvCall g m] false
  end.

(** The frame [f] is done: it returns to its caller, or hands its panic to
    it; a panic that leaves the goroutine terminates the process. *)
Definition exec_pop (g : nat) (gc : goCancelable)
    (f : frame) (rest : list frame) : outcome :=
  if panicking f then
    match rest with
    | [] => Outcome gc [] [] [EvCrash g] true
    | c :: rest' => Outcome gc (set_panic c :: rest') [] [] false
    end
  else
    match rest with
    | [] => Outcome gc [] [] [EvRet g (fn f) (ret f)] false
    | c :: rest' =>
        Outcome gc (set_acc (ret f) c :: rest') [] [EvRet g (fn f) (ret f)] false
    end.

(** One step of goroutine [g] whose stack is [st]. *)
Definition exec (g : nat) (gc : goCancelable) (st : list frame) : option outcome :=
  match st with
  | [] => None
  | f :: rest =>
      match body f with
      | i :: k => exec_stmt g gc i (set_body k f) rest
      | [] =>
          match defers f with
          | d :: ds => Some (exec_defer g gc d (set_defers ds f) rest)
          | [] => Some (exec_pop g gc f rest)
          end
      end
  end.

(** ** The process *)

Record state := State {
  task : goCancelable;
  pool : list (list frame);   (* goroutine [g] is [pool !! g] *)
  log : list event;           (* newest first *)
  crashed : bool
}.

(** The scheduler lets goroutine [g] take one step.  [crashed] records the
    end of the process by a panic that leaves its goroutine or by the
    unlock of an unlocked mutex, and nothing steps after it.  The Go runtime
    also ends a process in which every goroutine is asleep, and a program
    ends when its [main] returns: these are no transitions here, such a
    state is one in which [step] is [None] for every goroutine. *)
Definition step (g : nat) (s : state) : option state :=
  if crashed s then None else
  match pool s !! g with
  | None => None
  | Some st =>
      match exec g (task s) st with
      | None => None
      | Some o =>
          Some (State (o_task o) (<[g := o_stack o]> (pool s) ++ o_spawn o)
                  (o_events o ++ log s) (o_crash o))
      end
  end.

Fixpoint run (sch : list nat) (s : state) : option state :=
  match sch with
  | [] => Some s
  | g :: sch' =>
      match step g s with
      | Some s' => run sch' s'
      | None => None
      end
  end.

(** A client program [main] that has just built its task with
    [GoRace(handler)]; goroutine 0 runs [main]. *)
Definition init (h : option (list ucmd)) (main : list ucmd) : state :=
  State (GoRace h) [[new_frame (GoRace h) (MUser main)]] [] false.

Inductive reachable (h : option (list ucmd)) (main : list ucmd) : state -> Prop :=
| reach_init : reachable h main (init h main)
| reach_step s g s' :
    reachable h main s -> step g s = Some s' -> reachable h main s'.

(** ** Well-formed stacks

    Every frame is at a program point of the function it activates, and
    [cancel] only ever runs on top of the [Cancel] that called it. *)

Definition starts_defer_unlock (b : list stmt) : bool :=
  match b with SDefer DUnlock :: _ => true | _ => false end.
Definition has_unlock (ds : list dcall) : bool :=
  match ds with DUnlock :: _ => true | _ => false end.
Definition is_cancel (m : method) : bool :=
  match m with Mcancel => true | _ => false end.

Definition held_frame (f : frame) : bool :=
  is_cancel (fn f) || starts_defer_unlock (body f) || has_unlock (defers f).

Definition top_held (st : list frame) : bool :=
  match st with f :: _ => held_frame f | [] => false end.

Definition pcs (m : method) : list (list stmt * list dcall) :=
  match m with
  | MCancel =>
      [(Cancel, []);
       ([SDefer DUnlock; SCall Mcancel; SReturn EAcc], []);
       ([SCall Mcancel; SReturn EAcc], [DUnlock]);
       ([SReturn EAcc], [DUnlock]);
       ([], [DUnlock]);
       ([], [])]
  | Mcancel =>
      [(cancel, []);
       ([SSetCanceled; SClose; SReturn (EBool true)], []);
       ([SClose; SReturn (EBool true)], []);
       ([SReturn (EBool true)], []);
       ([SReturn (EBool false)], []);
       ([], [])]
  | MIsCanceled =>
      [(IsCanceled, []);
       ([SDefer DUnlock; SReturn ECanceled], []);
       ([SReturn ECanceled], [DUnlock]);
       ([], [DUnlock]);
       ([], [])]
  | MSend v =>
      [(Send v, []);
       ([SDefer DUnlock; SIf CNotCanceled [SSetLastResult v; SChanSend v] []], []);
       ([SIf CNotCanceled [SSetLastResult v; SChanSend v] []], [DUnlock]);
       ([SSetLastResult v; SChanSend v], [DUnlock]);
       ([SChanSend v], [DUnlock]);
       ([], [DUnlock]);
       ([], [])]
  | MReceive => [(Receive, []); ([], [])]
  | MStart =>
      [(Start, []);
       ([SDefer DUnlock; SIf CNotCanceledNotStarted [SSetStarted; SGo MgoFunc] [];
         SReturn ESelf], []);
       ([SIf CNotCanceledNotStarted [SSetStarted; SGo MgoFunc] []; SReturn ESelf],
        [DUnlock]);
       ([SSetStarted; SGo MgoFunc; SReturn ESelf], [DUnlock]);
       ([SGo MgoFunc; SReturn ESelf], [DUnlock]);
       ([SReturn ESelf], [DUnlock]);
       ([], [DUnlock]);
       ([], [])]
  | MStartBackground => [(StartBackground, []); ([SReturn ESelf], []); ([], [])]
  | MLastResult =>
      [(LastResult, []);
       ([SDefer DUnlock; SReturn ELastResult], []);
       ([SReturn ELastResult], [DUnlock]);
       ([], [DUnlock]);
       ([], [])]
  | MgoFunc =>
      [(goFunc, []); ([SCall Mhandler], [DCall MCancel]);
       ([], [DCall MCancel]); ([], [])]
  | Mhandler | MUser _ => []
  end.

Definition is_user (m : method) : bool :=
  match m with Mhandler | MUser _ => true | _ => false end.
Definition may_panic (m : method) : bool :=
  match m with
  | Mhandler | MUser _ | MgoFunc | MSend _ | Mcancel | MCancel => true
  | _ => false
  end.

(** Who calls a method of the task: user code, or the func literal of
    [Start] when it runs its deferred [gc.Cancel()]. *)
Definition caller_ok (c : frame) : Prop :=
  is_user (fn c) = true ∨ (fn c = MgoFunc ∧ body c = [] ∧ defers c = []).

Definition frame_ok (f : frame) : Prop :=
  if is_user (fn f)
  then defers f = [] ∧ ∃ c, body f = user c ∨ body f = SRecv :: user c
  else In (body f, defers f) (pcs (fn f)) ∧
       (panicking f = true → may_panic (fn f) = true ∧ body f = []).

Definition under_ok (f : frame) (rest : list frame) : Prop :=
  match fn f with
  | Mcancel =>
      ∃ c rest', rest = c :: rest' ∧ fn c = MCancel ∧
                 body c = [SReturn EAcc] ∧ defers c = [DUnlock]
  | Mhandler =>
      ∃ c, rest = [c] ∧ fn c = MgoFunc ∧ body c = [] ∧ defers c = [DCall MCancel]
  | MgoFunc | MUser _ => rest = []
  | MCancel => match rest with [] => True | c :: _ => caller_ok c end
  | _ => match rest with [] => True | c :: _ => is_user (fn c) = true end
  end.

Fixpoint stack_ok (st : list frame) : Prop :=
  match st with
  | [] => True
  | f :: rest => frame_ok f ∧ under_ok f rest ∧ stack_ok rest
  end.

Lemma user_cons u c : user (u :: c) = ustmt u ++ user c.
Proof. reflexivity. Qed.

Lemma user_nil : user [] = [].
Proof. reflexivity. Qed.

Lemma starts_user c : starts_defer_unlock (user c) = false.
Proof. by destruct c as [|[] c]. Qed.

#[global] Arguments user : simpl never.

Lemma frame_ok_new t m : frame_ok (new_frame t m).
Proof.
  destruct m; cbn; try (split; [tauto | done]).
  - split; [done|]. destruct (handler t) as [c|]; [by exists c; left|].
    exists [UPanic]. by left.
  - split; [done|]. exists code. by left.
Qed.

Lemma held_new t m : held_frame (new_frame t m) = is_cancel m.
Proof.
  destruct m; try reflexivity.
  - unfold held_frame, new_frame; simpl.
    destruct (handler t) as [[|[] c]|]; reflexivity.
  - unfold held_frame, new_frame; simpl.
    destruct code as [|[] c]; reflexivity.
Qed.

(** How a step of a goroutine moves the mutex. *)
Inductive lock_move (g : nat) (t t' : goCancelable) (st st' : list frame) : Prop :=
| lm_same : mu t' = mu t → top_held st' = top_held st → lock_move g t t' st st'
| lm_acquire : mu t = None → mu t' = Some g → top_held st = false →
    top_held st' = true → lock_move g t t' st st'
| lm_release : top_held st = true → mu t' = None → top_held st' = false →
    lock_move g t t' st st'.

Ltac break_frame_ok :=
  repeat match goal with
  | H : _ ∧ _ |- _ => destruct H
  | H : _ ∨ _ |- _ => destruct H
  | H : False |- _ => destruct H
  | H : ∃ _, _ |- _ => destruct H
  end.

Ltac exec_cases Hex :=
  cbn in Hex; unfold exec_pop, exec_defer in Hex; cbn in Hex;
  repeat match type of Hex with
  | context [match mu ?t with _ => _ end] => destruct (mu t) eqn:?
  | context [if ?b then _ else _] => destruct b eqn:?
  | context [match ?l with [] => _ | _ :: _ => _ end] => destruct l eqn:?
  end; simplify_eq.

Lemma frame_ok_set_acc r f : frame_ok f → frame_ok (set_acc r f).
Proof. done. Qed.

Lemma frame_ok_set_panic f :
  caller_ok f → frame_ok f → frame_ok (set_panic f).
Proof.
  unfold frame_ok; cbn. intros [Hu|(Hm & Hb & Hd)].
  - rewrite Hu. intros [? _]. split; [done|]. exists []. by left.
  - rewrite Hm, Hb. cbn. intros [? _]. done.
Qed.

Lemma frame_ok_set_panic_Cancel f :
  fn f = MCancel → body f = [SReturn EAcc] → defers f = [DUnlock] →
  frame_ok (set_panic f).
Proof.
  unfold frame_ok; cbn. intros -> _ ->. cbn. split; [tauto|done].
Qed.

Lemma caller_not_held f : caller_ok f → frame_ok f → held_frame f = false.
Proof.
  unfold frame_ok, held_frame. intros [Hu|(Hm & Hb & Hd)].
  - rewrite Hu. intros [-> [c [->| ->]]]; destruct (fn f); try done.
    all: by destruct c as [|[] c].
  - by rewrite Hm, Hb, Hd.
Qed.

Lemma held_set_acc r f : held_frame (set_acc r f) = held_frame f.
Proof. done. Qed.

Lemma held_set_panic f :
  held_frame (set_panic f) = is_cancel (fn f) || has_unlock (defers f).
Proof. unfold held_frame; cbn. by rewrite orb_false_r. Qed.

Lemma caller_held_panic f :
  caller_ok f → frame_ok f → held_frame (set_panic f) = false.
Proof.
  intros Hc Hf. pose proof (caller_not_held f Hc Hf) as H.
  rewrite held_set_panic. unfold held_frame in H.
  by destruct (is_cancel (fn f)), (starts_defer_unlock (body f)),
    (has_unlock (defers f)).
Qed.

Ltac solve_in :=
  repeat first [ left; reflexivity | right ].

Ltac solve_frame_ok :=
  first
    [ assumption
    | apply frame_ok_new
    | apply frame_ok_set_acc; assumption
    | apply frame_ok_set_panic; assumption
    | apply frame_ok_set_panic_Cancel; assumption
    | unfold frame_ok; cbn;
      first
        [ split; [reflexivity
                 | first [ eexists; first [left; reflexivity | right; reflexivity]
                         | exists []; left; reflexivity ] ]
        | split; [solve_in | intros; simplify_eq; try done; by split ] ] ].

Ltac solve_under_ok :=
  first
    [ assumption
    | exact I
    | reflexivity
    | by (cbn; eauto 10)
    | by (cbn; left)
    | by (cbn; right) ].

Ltac solve_stack_ok :=
  repeat match goal with
  | |- stack_ok [] => exact I
  | |- stack_ok (_ :: _) => cbn [stack_ok]
  | |- _ ∧ _ => split
  | |- True => exact I
  | |- stack_ok _ => assumption
  | |- frame_ok _ => solve_frame_ok
  | |- under_ok _ _ => solve_under_ok
  end.

Ltac held_simpl :=
  cbn [top_held]; rewrite ?held_set_acc, ?held_new;
  repeat match goal with
  | Hc : caller_ok ?f, Hf : frame_ok ?f |- context [held_frame (set_panic ?f)] =>
      rewrite (caller_held_panic f Hc Hf)
  | Hc : caller_ok ?f, Hf : frame_ok ?f |- context [held_frame ?f] =>
      rewrite (caller_not_held f Hc Hf)
  end;
  unfold held_frame; cbn; rewrite ?starts_user;
  repeat match goal with
  | H : fn _ = _ |- _ => rewrite H
  | H : body _ = _ |- _ => rewrite H
  | H : defers _ = _ |- _ => rewrite H
  end; cbn.

Ltac solve_lock_move :=
  first
    [ apply lm_same; [cbn; (reflexivity || congruence) | held_simpl; reflexivity]
    | apply lm_acquire; [assumption | reflexivity | held_simpl; reflexivity
                        | held_simpl; reflexivity]
    | apply lm_release; [held_simpl; reflexivity | reflexivity
                        | held_simpl; reflexivity] ].

Ltac solve_spawn :=
  repeat match goal with
  | |- Forall _ [] => constructor
  | |- Forall _ (_ :: _) => constructor
  | |- stack_ok _ ∧ top_held _ = false =>
      split; [solve_stack_ok | held_simpl; reflexivity]
  end.

Lemma exec_ok g t st o :
  stack_ok st → (top_held st = true → mu t = Some g) →
  exec g t st = Some o →
  stack_ok (o_stack o) ∧
  Forall (λ st', stack_ok st' ∧ top_held st' = false) (o_spawn o) ∧
  lock_move g t (o_task o) st (o_stack o) ∧
  (o_crash o = true → ∃ f, st = [f] ∧ panicking f = true ∧ body f = [] ∧ defers f = []).
Proof.
  intros Hok Hmu Hex.
  destruct st as [|[m b d a r p] rest]; [done|].
  destruct Hok as (Hf & Hu & Hrest).
  unfold frame_ok in Hf. cbn in Hf.
  destruct m; cbn in Hf, Hu.
  all: break_frame_ok.
  all: try match goal with H : _ = user ?c |- _ =>
         destruct c as [|[] ?];
         [rewrite user_nil in H | rewrite user_cons in H; cbn [ustmt app] in H ..]
       end.
  all: simplify_eq.
  all: try match goal with H : ?p = true → _ ∧ _ = [] |- _ =>
         destruct p; [by destruct (H eq_refl)|clear H] end.
  all: exec_cases Hex.
  all: try match goal with H : is_user (fn ?x) = true |- _ =>
         assert (caller_ok x) by (by left) end.
  all: try match goal with H1 : fn ?x = MgoFunc, H2 : defers ?x = [DCall MCancel] |- _ =>
         assert (frame_ok (set_panic x))
           by (unfold frame_ok; cbn; rewrite H1, H2; cbn; tauto) end.
  all: cbn in Hmu; cbn [o_stack o_spawn o_task o_crash].
  all: try (by (specialize (Hmu eq_refl))).
  all: cbn [stack_ok] in Hrest; destruct_and?.
  all: refine (conj _ (conj _ (conj _ _)));
    [ solve_stack_ok | solve_spawn | try solve_lock_move
    | try (intros; simplify_eq; by eexists) ].
Qed.

(** ** Mutual exclusion *)

Record wf (s : state) : Prop := {
  wf_stacks : ∀ g st, pool s !! g = Some st → stack_ok st;
  wf_lock : ∀ g st, pool s !! g = Some st →
    (top_held st = true ↔ mu (task s) = Some g);
  wf_owner : ∀ g, mu (task s) = Some g → g < length (pool s)
}.

Lemma pool_lookup (p : list (list frame)) g st' sp g' st :
  g < length p →
  (<[g:=st']> p ++ sp) !! g' = Some st →
  (g' = g ∧ st = st') ∨ (g' ≠ g ∧ p !! g' = Some st) ∨
  (length p ≤ g' ∧ st ∈ sp).
Proof.
  intros Hg H. destruct (decide (g' < length p)) as [Hlt|Hge].
  - rewrite lookup_app_l in H by (by rewrite length_insert).
    destruct (decide (g' = g)) as [->|Hne].
    + rewrite list_lookup_insert_eq in H by done. left. by simplify_eq.
    + rewrite list_lookup_insert_ne in H by done. right; left. done.
  - right; right. split; [lia|].
    rewrite lookup_app_r in H by (rewrite length_insert; lia).
    by eapply list_elem_of_lookup_2.
Qed.

Lemma step_inv g s s' :
  step g s = Some s' →
  crashed s = false ∧
  ∃ st o, pool s !! g = Some st ∧ exec g (task s) st = Some o ∧
    s' = State (o_task o) (<[g := o_stack o]> (pool s) ++ o_spawn o)
           (o_events o ++ log s) (o_crash o).
Proof.
  unfold step. destruct (crashed s); [done|].
  destruct (pool s !! g) as [st|] eqn:Hst; [|done].
  destruct (exec g (task s) st) as [o|] eqn:Ho; [|done].
  intros [= <-]. eauto 10.
Qed.

Lemma wf_init h main : wf (init h main).
Proof.
  split.
  - intros [|g] st H; simplify_eq/=. split_and?; try done.
    split; [done|]. exists main. by left.
  - intros [|g] st H; simplify_eq/=. unfold held_frame; simpl.
    rewrite starts_user. done.
  - done.
Qed.

Lemma wf_step g s s' : wf s → step g s = Some s' → wf s'.
Proof.
  intros [Hst Hlk Hown] (_ & st & o & Hg & Hex & ->)%step_inv.
  pose proof (lookup_lt_Some _ _ _ Hg) as Hlt.
  destruct (exec_ok g (task s) st o (Hst _ _ Hg) (proj1 (Hlk _ _ Hg)) Hex)
    as (Hok & Hsp & Hmv & _).
  split; simpl.
  - intros g' st' [[-> ->]|[[Hne H]|[Hge Hin]]]%pool_lookup; [done|eauto|..|done].
    rewrite Forall_forall in Hsp. by apply Hsp.
  - intros g' st' H. pose proof H as Hlk'.
    apply pool_lookup in H as [[-> ->]|[[Hne H]|[Hge Hin]]]; [| |  |done].
    + destruct Hmv as [Hmu Hh|Hmu Hmu' Hh Hh'|Hh Hmu Hh'].
      * rewrite Hmu, Hh. by apply Hlk.
      * by rewrite Hmu', Hh'.
      * by rewrite Hmu, Hh'.
    + rewrite (Hlk _ _ H). destruct Hmv as [Hmu Hh|Hmu Hmu' Hh Hh'|Hh Hmu Hh'].
      * by rewrite Hmu.
      * rewrite Hmu, Hmu'. split; [done|]. intros [= ->]. done.
      * rewrite Hmu. apply (Hlk _ _ Hg) in Hh. rewrite Hh.
        split; [|done]. intros [= ->]. done.
    + rewrite Forall_forall in Hsp. destruct (Hsp _ Hin) as [_ ->].
      split; [done|]. intros Hmu.
      assert (g' < length (pool s)); [|lia].
      destruct Hmv as [Hmu' Hh|Hmu0 Hmu' Hh Hh'|Hh Hmu' Hh'].
      * apply Hown. congruence.
      * congruence.
      * congruence.
  - intros g'. rewrite length_app, length_insert.
    destruct Hmv as [Hmu' Hh|Hmu0 Hmu' Hh Hh'|Hh Hmu' Hh'].
    + rewrite Hmu'. intros ?%Hown. lia.
    + rewrite Hmu'. intros [= <-]. lia.
    + by rewrite Hmu'.
Qed.

(** ** What the log records *)

Fixpoint count (p : event → bool) (l : list event) : nat :=
  match l with
  | [] => 0
  | e :: l => (if p e then 1 else 0) + count p l
  end.

Definition is_launch (e : event) : bool :=
  match e with EvGo _ MgoFunc => true | _ => false end.
Definition is_run (e : event) : bool :=
  match e with EvCall _ Mhandler => true | _ => false end.
Definition is_close (e : event) : bool :=
  match e with EvClose _ => true | _ => false end.
Definition is_chan_panic (e : event) : bool :=
  match e with EvPanic _ PCloseClosed | EvPanic _ PSendClosed => true | _ => false end.

(** Handler goroutines started, handler calls, closes of the channel. *)
Definition launches (l : list event) : nat := count is_launch l.
Definition runs (l : list event) : nat := count is_run l.
Definition closes (l : list event) : nat := count is_close l.

(** The values assigned to [gc.lastResult], newest first. *)
Fixpoint assigned (l : list event) : list value :=
  match l with
  | [] => []
  | EvAssign _ v :: l => v :: assigned l
  | _ :: l => assigned l
  end.

(** ** Assertions at the program points of the critical sections *)

Inductive point :=
| PSetCanceled | PClose | PAssign (v : value) | PChanSend (v : value)
| PSetStarted | PLaunch | POther.

Definition point_of (st : list frame) : point :=
  match st with
  | f :: _ =>
      match body f with
      | SSetCanceled :: _ => PSetCanceled
      | SClose :: _ => PClose
      | SSetLastResult v :: _ => PAssign v
      | SChanSend v :: _ => PChanSend v
      | SSetStarted :: _ => PSetStarted
      | SGo MgoFunc :: _ => PLaunch
      | _ => POther
      end
  | [] => POther
  end.

Definition b2n (b : bool) : nat := if b then 1 else 0.

(** What holds whenever no goroutine is between two statements that
    belong together. *)
Definition quiescent (t : goCancelable) (l : list event) : Prop :=
  closed (send t) = canceled t ∧ launches l = b2n (started t).

Definition held_assert (t : goCancelable) (l : list event) (p : point) : Prop :=
  match p with
  | PSetCanceled | PAssign _ =>
      canceled t = false ∧ closed (send t) = false ∧ launches l = b2n (started t)
  | PClose =>
      canceled t = true ∧ closed (send t) = false ∧ launches l = b2n (started t)
  | PChanSend v =>
      canceled t = false ∧ closed (send t) = false ∧
      launches l = b2n (started t) ∧ head (assigned l) = Some v
  | PSetStarted =>
      canceled t = false ∧ closed (send t) = false ∧
      started t = false ∧ launches l = 0
  | PLaunch =>
      canceled t = false ∧ closed (send t) = false ∧
      started t = true ∧ launches l = 0
  | POther => quiescent t l
  end.

Definition top_assert (t : goCancelable) (l : list event) (st : list frame) : Prop :=
  if top_held st then held_assert t l (point_of st) else quiescent t l.

(** Program points reached only after [cancel] has done its work. *)
Definition done_point (st : list frame) : bool :=
  match st with
  | f :: _ =>
      match fn f, body f, defers f with
      | Mcancel, ([] | SReturn _ :: _), _ => true
      | MCancel, ([] | SReturn _ :: _), _ => true
      | MgoFunc, [], [] => true
      | _, _, _ => false
      end
  | [] => false
  end.

Definition done_assert (t : goCancelable) (st : list frame) : Prop :=
  done_point st = true → canceled t = true ∧ closed (send t) = true.

Ltac exec_inv Hok Hex :=
  match type of Hok with
  | stack_ok ?st =>
      let Hf := fresh "Hf" in let Hu := fresh "Hu" in let Hrest := fresh "Hrest" in
      destruct st as [|[?m ?b ?d ?a ?r ?p] ?rest]; [done|];
      destruct Hok as (Hf & Hu & Hrest);
      unfold frame_ok in Hf; cbn in Hf;
      match goal with m : method |- _ => destruct m end; cbn in Hf, Hu;
      break_frame_ok;
      try match goal with H : _ = user ?c |- _ =>
         destruct c as [|[] ?];
         [rewrite user_nil in H | rewrite user_cons in H; cbn [ustmt app] in H ..]
       end;
      simplify_eq;
      try match goal with H : ?p = true → _ ∧ _ = [] |- _ =>
         destruct p; [by destruct (H eq_refl)|clear H] end;
      exec_cases Hex;
      cbn [o_stack o_spawn o_task o_crash o_events]
  end.

Lemma count_app p l1 l2 : count p (l1 ++ l2) = count p l1 + count p l2.
Proof. induction l1 as [|e l1 IH]; simpl; [done|]. rewrite IH. lia. Qed.

Ltac callers :=
  repeat match goal with
  | H : caller_ok ?c |- _ => destruct H as [H | (? & ? & ?)]
  | H : is_user (fn ?c) = true, Hf : frame_ok ?c |- _ =>
      pose proof (caller_not_held c (or_introl H) Hf);
      pose proof (caller_held_panic c (or_introl H) Hf);
      revert H; destruct (fn c) eqn:?; intros H; try discriminate H; clear H
  end.

Ltac frame_eqs :=
  repeat match goal with
  | H : fn _ = _ |- _ => rewrite H
  | H : body _ = _ |- _ => rewrite H
  | H : defers _ = _ |- _ => rewrite H
  | H : held_frame _ = _ |- _ => rewrite H
  end.

Ltac points :=
  unfold top_assert, done_assert;
  cbn [top_held point_of done_point];
  rewrite ?held_set_acc, ?held_new;
  frame_eqs;
  unfold held_frame, set_acc, set_panic, set_body, set_defers, set_ret;
  cbn [fn body defers acc ret panicking is_cancel starts_defer_unlock has_unlock orb];
  rewrite ?starts_user;
  frame_eqs;
  cbn [fn body defers acc ret panicking is_cancel starts_defer_unlock has_unlock orb
       held_assert quiescent].

Lemma exec_assert g t l st o :
  stack_ok st → exec g t st = Some o →
  top_assert t l st → done_assert t st →
  top_assert (o_task o) (o_events o ++ l) (o_stack o) ∧
  done_assert (o_task o) (o_stack o).
Proof.
  intros Hok Hex.
  exec_inv Hok Hex.
  all: cbn [stack_ok] in Hrest; destruct_and?.
  all: callers.
  all: points.
  all: unfold launches; rewrite ?count_app; cbn.
  all: unfold quiescent.
  all: destruct t as [h [bf cp cl] cn sd lr m]; cbn in *.
  all: try (destruct cn; try done); try (destruct cl; try done);
       try (destruct sd; try done); cbn in *.
  all: try (intuition (congruence || lia)).
Qed.

Lemma assigned_app l1 l2 : assigned (l1 ++ l2) = assigned l1 ++ assigned l2.
Proof.
  induction l1 as [|e l1 IH]; simpl; [done|]. destruct e; simpl; by rewrite ?IH.
Qed.

Ltac fields t :=
  destruct t as [?h [?bf ?cp ?cl] ?cn ?sd ?lr ?m]; cbn in *.

(** A goroutine outside the critical section leaves the flags, the last
    result and the channel's closing alone; it can only take a value out of
    the channel. *)
Lemma exec_free g t st o :
  stack_ok st → exec g t st = Some o → top_held st = false →
  canceled (o_task o) = canceled t ∧
  closed (send (o_task o)) = closed (send t) ∧
  started (o_task o) = started t ∧
  lastResult (o_task o) = lastResult t ∧
  launches (o_events o) = 0 ∧ assigned (o_events o) = [] ∧
  count is_chan_panic (o_events o) = 0 ∧
  (∀ v, v ∈ buf (send (o_task o)) → v ∈ buf (send t)) ∧
  length (buf (send (o_task o))) ≤ length (buf (send t)) ∧
  (done_assert t st → done_assert (o_task o) (o_stack o)).
Proof.
  intros Hok Hex.
  exec_inv Hok Hex.
  all: cbn [stack_ok] in Hrest; destruct_and?.
  all: callers.
  all: points.
  all: try (intros; discriminate).
  all: fields t; intros _; simplify_eq.
  all: split_and?; try done.
  all: try (intros ? ?; by apply list_elem_of_further).
  all: try (cbn; lia).
  all: try (intuition congruence).
Qed.

(** What every step preserves, wherever it is taken. *)
Lemma exec_mono g t st o :
  exec g t st = Some o →
  (canceled t = true → canceled (o_task o) = true) ∧
  (closed (send t) = true → closed (send (o_task o)) = true) ∧
  (started t = true → started (o_task o) = true) ∧
  handler (o_task o) = handler t ∧
  cap (send (o_task o)) = cap (send t) ∧
  (length (buf (send t)) ≤ cap (send t) →
   length (buf (send (o_task o))) ≤ cap (send t)) ∧
  closes (o_events o) + b2n (closed (send t)) = b2n (closed (send (o_task o))) ∧
  lastResult (o_task o) =
    default (lastResult t) (head (assigned (o_events o))).
Proof.
  intros Hex. destruct st as [|[m b d a r p] rest]; [done|].
  destruct b as [|[] b]; [destruct d as [|[] d]|..];
    exec_cases Hex; cbn [o_stack o_spawn o_task o_crash o_events].
  all: fields t; simplify_eq.
  all: split_and?; try done; try (cbn; lia).
  all: try (intros; rewrite ?length_app; cbn; lia).
  destruct cp; [done|]. apply Nat.leb_le in Heqb1.
  intros _. rewrite length_app; cbn; lia.
Qed.

(** Inside the critical section the channel is never closed under a
    pending write or close, and what is written was just assigned. *)
Lemma exec_held g t l st o :
  stack_ok st → exec g t st = Some o →
  top_held st = true → held_assert t l (point_of st) →
  count is_chan_panic (o_events o) = 0 ∧
  (∀ v, v ∈ buf (send (o_task o)) → v ∈ buf (send t) ∨ head (assigned l) = Some v).
Proof.
  intros Hok Hex.
  exec_inv Hok Hex.
  all: cbn [stack_ok] in Hrest; destruct_and?.
  all: callers.
  all: points.
  all: try (intros; discriminate).
  all: fields t; intros _; simplify_eq.
  all: try (intros; split; [done|]; by left).
  all: try (intros; destruct_and?; congruence).
  intros (_ & _ & _ & Hv). split; [done|].
  intros v [Hin|Hin%list_elem_of_singleton]%elem_of_app; [by left|].
  right. congruence.
Qed.


Lemma exec_spawn g t st o st' :
  exec g t st = Some o → st' ∈ o_spawn o → ∃ m, st' = [new_frame t m].
Proof.
  intros Hex. destruct st as [|[m b d a r p] rest]; [done|].
  destruct b as [|[] b]; [destruct d as [|[] d]|..];
    exec_cases Hex; cbn [o_stack o_spawn o_task o_crash o_events].
  all: try (by intros ?%elem_of_nil).
  intros ->%list_elem_of_singleton. eauto.
Qed.

Lemma done_new t m : done_point [new_frame t m] = false.
Proof. by destruct m. Qed.

Lemma held_assert_ext t t' l l' p :
  canceled t' = canceled t → closed (send t') = closed (send t) →
  started t' = started t → launches l' = launches l →
  head (assigned l') = head (assigned l) →
  held_assert t l p → held_assert t' l' p.
Proof.
  intros H1 H2 H3 H4 H5.
  destruct p; simpl; unfold quiescent; rewrite ?H1, ?H2, ?H3, ?H4, ?H5; done.
Qed.

(** ** The invariant of the task *)

Record inv (h : option (list ucmd)) (s : state) : Prop := {
  inv_wf : wf s;
  inv_held : ∀ g st, pool s !! g = Some st → top_held st = true →
    held_assert (task s) (log s) (point_of st);
  inv_free : mu (task s) = None → quiescent (task s) (log s);
  inv_done : ∀ g st, pool s !! g = Some st → done_assert (task s) st;
  inv_closes : closes (log s) = b2n (closed (send (task s)));
  inv_last : lastResult (task s) = default VNil (head (assigned (log s)));
  inv_buf : ∀ v, v ∈ buf (send (task s)) → v ∈ assigned (log s);
  inv_nopanic : count is_chan_panic (log s) = 0;
  inv_cap : cap (send (task s)) = 1 ∧ length (buf (send (task s))) ≤ 1;
  inv_handler : handler (task s) = h
}.

Lemma inv_init h main : inv h (init h main).
Proof.
  split; try done.
  - apply wf_init.
  - intros [|g] st H; simplify_eq/=. unfold held_frame; simpl.
    by rewrite starts_user.
  - intros [|g] st H; simplify_eq/=. done.
  - simpl. split; [done|lia].
Qed.

Lemma inv_step h g s s' : inv h s → step g s = Some s' → inv h s'.
Proof.
  intros [Hwf Hheld Hfree Hdone Hcl Hlast Hbuf Hnp [Hcap Hlen] Hh] Hstep.
  pose proof (wf_step _ _ _ Hwf Hstep) as Hwf'.
  apply step_inv in Hstep as (_ & st & o & Hg & Hex & ->).
  pose proof (lookup_lt_Some _ _ _ Hg) as Hlt.
  destruct Hwf as [Hst Hlk Hown].
  destruct (exec_ok g (task s) st o (Hst _ _ Hg) (proj1 (Hlk _ _ Hg)) Hex)
    as (Hok & Hsp & Hmv & _).
  destruct (exec_mono g (task s) st o Hex)
    as (Hmc & Hmcl & Hms & Hmh & Hmcap & Hmlen & Hmcls & Hmlast).
  assert (top_held st = true ∧ held_assert (task s) (log s) (point_of st) ∨
          top_held st = false) as Hcase.
  { destruct (top_held st) eqn:Hth; [left|by right]. split; [done|]. eauto. }
  assert (top_held st = true ∨ mu (task s) = None →
          top_assert (o_task o) (o_events o ++ log s) (o_stack o) ∧
          done_assert (o_task o) (o_stack o)) as Hassert.
  { intros Hc. apply (exec_assert g (task s) (log s) st o); eauto.
    unfold top_assert. destruct (top_held st) eqn:Hth; [eauto|].
    destruct Hc as [|Hc]; [done|]. eauto. }
  split; simpl.
  - done.
  - intros g' st' Hl Hth'.
    apply pool_lookup in Hl as [[-> ->]|[[Hne Hl]|[Hge Hin]]]; [| | |done].
    + destruct (top_held st) eqn:Hth.
      * destruct Hassert as [Ha _]; [by left|].
        unfold top_assert in Ha. by rewrite Hth' in Ha.
      * destruct Hmv as [Hmu Hh'|Hmu Hmu' _ _|Hh' _ _]; [congruence| |congruence].
        destruct Hassert as [Ha _]; [by right|].
        unfold top_assert in Ha. by rewrite Hth' in Ha.
    + pose proof (proj1 (Hlk _ _ Hl) Hth') as Hmu.
      assert (top_held st = false) as Hth.
      { destruct (top_held st) eqn:Hth; [|done].
        apply (Hlk _ _ Hg) in Hth. congruence. }
      destruct (exec_free g (task s) st o (Hst _ _ Hg) Hex Hth)
        as (Hc & Hcl' & Hs & Hlr & Hla & Has & _).
      eapply held_assert_ext; [done|done|done| | |by eapply Hheld].
      * unfold launches in *. rewrite count_app. lia.
      * by rewrite assigned_app, Has.
    + rewrite Forall_forall in Hsp. destruct (Hsp _ Hin) as [_ ?]. congruence.
  - intros Hmu'.
    destruct (top_held st) eqn:Hth.
    + destruct Hassert as [Ha _]; [by left|].
      destruct Hmv as [Hmu Hh'|Hmu _ _ _|_ _ Hh'].
      * apply (Hlk _ _ Hg) in Hth. congruence.
      * apply (Hlk _ _ Hg) in Hth. congruence.
      * unfold top_assert in Ha. by rewrite Hh' in Ha.
    + destruct Hmv as [Hmu Hh'|Hmu Hmu'' _ _|Hh' _ _]; [|congruence..].
      destruct Hassert as [Ha _]; [right; congruence|].
      unfold top_assert in Ha. rewrite Hh', Hth in Ha. done.
  - intros g' st' Hl.
    apply pool_lookup in Hl as [[-> ->]|[[Hne Hl]|[Hge Hin]]]; [| | |done].
    + destruct (top_held st) eqn:Hth.
      * destruct Hassert as [_ Hd]; [by left|done].
      * destruct (exec_free g (task s) st o (Hst _ _ Hg) Hex Hth)
          as (_ & _ & _ & _ & _ & _ & _ & _ & _ & Hd). eauto.
    + intros Hdp. destruct (Hdone _ _ Hl Hdp). eauto.
    + destruct (exec_spawn _ _ _ _ _ Hex Hin) as [m ->].
      intros Hdp. by rewrite done_new in Hdp.
  - unfold closes in *. rewrite count_app. rewrite Hcl. done.
  - rewrite Hmlast, assigned_app, Hlast.
    by destruct (assigned (o_events o)).
  - intros v Hv. rewrite assigned_app. apply elem_of_app.
    destruct Hcase as [[Hth Ha]|Hth].
    + destruct (exec_held g (task s) (log s) st o (Hst _ _ Hg) Hex Hth Ha)
        as [_ Hb].
      destruct (Hb v Hv) as [Hin|Hhd]; [right; eauto|].
      right. destruct (assigned (log s)); simplify_eq/=. by left.
    + destruct (exec_free g (task s) st o (Hst _ _ Hg) Hex Hth)
        as (_ & _ & _ & _ & _ & _ & _ & Hb & _). right; eauto.
  - rewrite count_app, Hnp.
    destruct Hcase as [[Hth Ha]|Hth].
    + destruct (exec_held g (task s) (log s) st o (Hst _ _ Hg) Hex Hth Ha)
        as [-> _]. done.
    + destruct (exec_free g (task s) st o (Hst _ _ Hg) Hex Hth)
        as (_ & _ & _ & _ & _ & _ & -> & _). done.
  - rewrite Hmcap. split; [done|]. rewrite <- Hcap. apply Hmlen. lia.
  - congruence.
Qed.

Lemma inv_reachable h main s : reachable h main s → inv h s.
Proof.
  induction 1 as [|s g s' _ IH Hstep]; [apply inv_init|by eapply inv_step].
Qed.

(** ** The handler is launched and called at most once *)

Definition is_gofunc (f : frame) : bool :=
  match fn f with MgoFunc => true | _ => false end.

(** The goroutine started by [Start]. *)
Definition has_gofunc (st : list frame) : bool := existsb is_gofunc st.

(** That goroutine before it has called the handler. *)
Definition pre_run (st : list frame) : bool :=
  match st with
  | [f] => is_gofunc f && match body f with [] => false | _ :: _ => true end
  | _ => false
  end.

Lemma pre_run_gofunc st : pre_run st = true → has_gofunc st = true.
Proof.
  destruct st as [|f [|]]; try done. simpl.
  intros [-> _]%andb_true_iff. done.
Qed.

Lemma launches_le h s : inv h s → launches (log s) ≤ 1.
Proof.
  intros Hi. destruct (mu (task s)) as [g|] eqn:Hmu.
  - pose proof (wf_owner _ (inv_wf _ _ Hi) _ Hmu) as Hlt.
    apply lookup_lt_is_Some in Hlt as [st Hst].
    pose proof (proj2 (wf_lock _ (inv_wf _ _ Hi) _ _ Hst) Hmu) as Hth.
    pose proof (inv_held _ _ Hi _ _ Hst Hth) as Ha.
    destruct (point_of st); simpl in Ha; unfold quiescent in Ha;
      destruct_and?; destruct (started (task s)); simpl in *; lia.
  - destruct (inv_free _ _ Hi Hmu) as [_ ->].
    destruct (started (task s)); simpl; lia.
Qed.

Lemma exec_once g t st o :
  stack_ok st → exec g t st = Some o →
  (has_gofunc (o_stack o) = true → has_gofunc st = true) ∧
  (pre_run (o_stack o) = true → pre_run st = true) ∧
  (runs (o_events o) = 0 ∨
   runs (o_events o) = 1 ∧ pre_run st = true ∧ pre_run (o_stack o) = false) ∧
  length (o_spawn o) ≤ 1 ∧
  (∀ st', st' ∈ o_spawn o → has_gofunc st' = true →
     top_held st = true ∧ point_of st = PLaunch ∧ launches (o_events o) = 1) ∧
  (launches (o_events o) = 0 ∨ top_held st = true ∧ point_of st = PLaunch).
Proof.
  intros Hok Hex.
  exec_inv Hok Hex.
  all: cbn [stack_ok] in Hrest; destruct_and?.
  all: callers.
  all: unfold has_gofunc, pre_run, is_gofunc; simpl.
  all: frame_eqs; simpl.
  all: split_and?; try done; try (by left); try lia.
  all: try (by intros ? ?%elem_of_nil).
  all: try (intros ? ->%list_elem_of_singleton; simpl).
  all: try match goal with
       | |- match ?l with _ => _ end = true → _ => by destruct l
       end.
  all: try (by right).
  all: by intros.
Qed.

Lemma pool_lookup_spawn (p : list (list frame)) g st' sp g' st :
  g < length p → length sp ≤ 1 →
  (<[g:=st']> p ++ sp) !! g' = Some st →
  (g' = g ∧ st = st') ∨ (g' ≠ g ∧ p !! g' = Some st) ∨
  (g' = length p ∧ st ∈ sp).
Proof.
  intros Hg Hsp H. destruct (decide (g' < length p)) as [Hlt|Hge].
  - apply pool_lookup in H as [?|[?|[? _]]]; [by left|by right; left|lia|done].
  - right; right.
    rewrite lookup_app_r in H by (rewrite length_insert; lia).
    rewrite length_insert in H.
    pose proof (lookup_lt_Some _ _ _ H). split; [lia|].
    by eapply list_elem_of_lookup_2.
Qed.

(** The goroutine of the handler is unique, it exists only once the
    handler has been launched, and as long as it has not called the
    handler nobody has. *)
Record once (s : state) : Prop := {
  once_launched : ∀ g st, pool s !! g = Some st → has_gofunc st = true →
    1 ≤ launches (log s);
  once_unique : ∀ g g' st st', pool s !! g = Some st → pool s !! g' = Some st' →
    has_gofunc st = true → has_gofunc st' = true → g = g';
  once_pre : ∀ g st, pool s !! g = Some st → pre_run st = true →
    runs (log s) = 0;
  once_runs : runs (log s) ≤ launches (log s)
}.

Lemma once_init h main : once (init h main).
Proof.
  split; try done.
  all: intros [|g]; try done; simpl; intros; simplify_eq/=; done.
Qed.

Lemma once_step h g s s' :
  inv h s → once s → step g s = Some s' → once s'.
Proof.
  intros Hi [Hla Hun Hpre Hruns] Hstep.
  pose proof (inv_step _ _ _ _ Hi Hstep) as Hi'.
  apply launches_le in Hi'.
  apply step_inv in Hstep as (_ & st & o & Hg & Hex & ->).
  pose proof (lookup_lt_Some _ _ _ Hg) as Hlt.
  destruct (exec_once g (task s) st o (wf_stacks _ (inv_wf _ _ Hi) _ _ Hg) Hex)
    as (Hgf & Hpr & Hrn & Hlen & Hsp & Hln).
  simpl in Hi'. unfold launches, runs in *. rewrite count_app in Hi'.
  assert (∀ st', st' ∈ o_spawn o → has_gofunc st' = true →
            count is_launch (log s) = 0 ∧ count is_launch (o_events o) = 1)
    as Hsp'.
  { intros st' Hin Hh. destruct (Hsp _ Hin Hh) as (Hth & Hpt & Hl1).
    pose proof (inv_held _ _ Hi _ _ Hg Hth) as Ha. rewrite Hpt in Ha.
    simpl in Ha. unfold launches in *. by destruct_and?. }
  split; simpl; unfold launches, runs; rewrite ?count_app.
  - intros g' st' [[-> ->]|[[Hne Hl]|[-> Hin]]]%pool_lookup_spawn Hh; try done.
    + specialize (Hla _ _ Hg (Hgf Hh)). lia.
    + specialize (Hla _ _ Hl Hh). lia.
    + destruct (Hsp' _ Hin Hh). lia.
  - intros g1 g2 st1 st2
      [[-> ->]|[[Hne1 Hl1]|[-> Hin1]]]%pool_lookup_spawn
      [[-> ->]|[[Hne2 Hl2]|[-> Hin2]]]%pool_lookup_spawn Hh1 Hh2; try done.
    + eauto.
    + destruct (Hsp' _ Hin2 Hh2). specialize (Hla _ _ Hg (Hgf Hh1)). lia.
    + eauto.
    + eauto.
    + destruct (Hsp' _ Hin2 Hh2). specialize (Hla _ _ Hl1 Hh1). lia.
    + destruct (Hsp' _ Hin1 Hh1). specialize (Hla _ _ Hg (Hgf Hh2)). lia.
    + destruct (Hsp' _ Hin1 Hh1). specialize (Hla _ _ Hl2 Hh2). lia.
  - intros g' st' [[-> ->]|[[Hne Hl]|[-> Hin]]]%pool_lookup_spawn Hp; try done.
    + specialize (Hpre _ _ Hg (Hpr Hp)).
      destruct Hrn as [->|(_ & _ & Hc)]; [lia|congruence].
    + specialize (Hpre _ _ Hl Hp).
      destruct Hrn as [->|(_ & Hc & _)]; [lia|].
      exfalso. apply Hne. eapply Hun; eauto using pre_run_gofunc.
    + destruct (Hsp' _ Hin (pre_run_gofunc _ Hp)).
      destruct Hrn as [->|(_ & Hc & _)]; [lia|].
      specialize (Hla _ _ Hg (pre_run_gofunc _ Hc)). lia.
  - destruct Hrn as [->|(-> & Hc & _)]; [lia|].
    specialize (Hpre _ _ Hg Hc).
    specialize (Hla _ _ Hg (pre_run_gofunc _ Hc)). lia.
Qed.

Lemma once_reachable h main s : reachable h main s → once s.
Proof.
  induction 1 as [|s g s' Hr IH Hstep]; [apply once_init|].
  eapply once_step; eauto using inv_reachable.
Qed.

(** The goroutine of the handler gets past its call of the handler only by
    making it. *)
Lemma exec_ran g t st o :
  stack_ok st → exec g t st = Some o →
  (has_gofunc (o_stack o) = true → pre_run (o_stack o) = false →
   has_gofunc st = true ∧ pre_run st = false ∨ runs (o_events o) = 1) ∧
  (∀ st', st' ∈ o_spawn o → has_gofunc st' = true → pre_run st' = true) ∧
  (∀ g' r, EvRet g' MgoFunc r ∈ o_events o →
     has_gofunc st = true ∧ pre_run st = false).
Proof.
  intros Hok Hex.
  exec_inv Hok Hex.
  all: cbn [stack_ok] in Hrest; destruct_and?.
  all: callers.
  all: unfold has_gofunc, pre_run, is_gofunc, runs; simpl.
  all: frame_eqs; simpl.
  all: split_and?.
  all: try (by intros ? ?%elem_of_nil).
  all: try (intros ? ->%list_elem_of_singleton; by simpl).
  all: try (intros ? ? ?%elem_of_nil; done).
  all: try (intros ? ? ?%list_elem_of_singleton; simplify_eq; done).
  all: try (intros; right; reflexivity).
  all: try (intros; left; done).
  all: try done.
  all: intros ? _; left; split; [done|].
  all: match goal with |- match ?l with _ => _ end = _ => by destruct l end.
Qed.

(** Once the goroutine of the handler is past its call, and once it has
    returned, the handler has been called. *)
Record ran (s : state) : Prop := {
  ran_past : ∀ g st, pool s !! g = Some st → has_gofunc st = true →
    pre_run st = false → 1 ≤ runs (log s);
  ran_ended : ∀ g r, EvRet g MgoFunc r ∈ log s → 1 ≤ runs (log s)
}.

Lemma ran_reachable h main s : reachable h main s → ran s.
Proof.
  induction 1 as [|s g s' Hr [IHp IHe] Hstep].
  { split; [|by intros g r ?%elem_of_nil].
    intros [|g] st Hg; simplify_eq/=. done. }
  pose proof (inv_reachable _ _ _ Hr) as Hi.
  apply step_inv in Hstep as (_ & st & o & Hg & Hex & ->).
  pose proof (lookup_lt_Some _ _ _ Hg) as Hlt.
  destruct (exec_ran g (task s) st o (wf_stacks _ (inv_wf _ _ Hi) _ _ Hg) Hex)
    as (Hpast & Hsp & Hend).
  split; simpl; unfold runs in *; rewrite count_app.
  - intros g' st' [[-> ->]|[[Hne Hg']|[Hge Hin]]]%pool_lookup Hh Hp; [| | |done].
    + destruct (Hpast Hh Hp) as [[Hh0 Hp0]| ->]; [|lia].
      specialize (IHp _ _ Hg Hh0 Hp0). lia.
    + specialize (IHp _ _ Hg' Hh Hp). lia.
    + rewrite (Hsp _ Hin Hh) in Hp. done.
  - intros g' r [Hin|Hin]%elem_of_app.
    + destruct (Hend _ _ Hin) as [Hh0 Hp0]. specialize (IHp _ _ Hg Hh0 Hp0). lia.
    + specialize (IHe _ _ Hin). lia.
Qed.

(** ** Runs *)

Lemma run_reachable h main sch s s' :
  reachable h main s → run sch s = Some s' → reachable h main s'.
Proof.
  revert s. induction sch as [|g sch IH]; simpl; intros s Hr H.
  - by simplify_eq.
  - destruct (step g s) as [s1|] eqn:Hs; [|done].
    eapply IH; [|done]. by eapply reach_step.
Qed.

(** The state a schedule leads to (the initial state when the schedule
    asks a blocked goroutine to step). *)
Definition from_run (sch : list nat) (h : option (list ucmd)) (main : list ucmd)
    : state :=
  default (init h main) (run sch (init h main)).

Lemma from_run_reachable sch h main : reachable h main (from_run sch h main).
Proof.
  unfold from_run. destruct (run sch (init h main)) as [s|] eqn:Hr; simpl.
  - eapply run_reachable; [apply reach_init|done].
  - apply reach_init.
Qed.

Lemma run_app sch1 sch2 s :
  run (sch1 ++ sch2) s = run sch1 s ≫= run sch2.
Proof.
  revert s. induction sch1 as [|g sch1 IH]; simpl; intros s; [done|].
  destruct (step g s); simpl; [apply IH|done].
Qed.

Lemma run_snoc sch g s : run (sch ++ [g]) s = run sch s ≫= step g.
Proof.
  rewrite run_app. destruct (run sch s) as [s1|]; simpl; [|done].
  by destruct (step g s1).
Qed.

(** The statement a goroutine executes next. *)
Definition next_stmt (st : list frame) : option stmt :=
  match st with
  | f :: _ => head (body f)
  | [] => None
  end.

(** Goroutine [g] runs alone: [n] steps of its own, seen from its stack. *)
Fixpoint execs (n : nat) (g : nat) (t : goCancelable) (st : list frame)
    : option outcome :=
  match n with
  | 0 => Some (Outcome t st [] [] false)
  | S n =>
      match exec g t st with
      | None => None
      | Some o1 =>
          if o_crash o1 then None else
          match execs n g (o_task o1) (o_stack o1) with
          | None => None
          | Some o2 =>
              Some (Outcome (o_task o2) (o_stack o2) (o_spawn o1 ++ o_spawn o2)
                      (o_events o2 ++ o_events o1) false)
          end
      end
  end.

Lemma run_solo n g s st o :
  crashed s = false → pool s !! g = Some st →
  execs n g (task s) st = Some o →
  run (replicate n g) s =
    Some (State (o_task o) (<[g := o_stack o]> (pool s) ++ o_spawn o)
            (o_events o ++ log s) false).
Proof.
  revert s st o. induction n as [|n IH]; simpl; intros s st o Hc Hg Hex.
  - simplify_eq/=. rewrite app_nil_r, list_insert_id by done.
    destruct s; simpl in *; by subst.
  - destruct (exec g (task s) st) as [o1|] eqn:H1; [|done].
    destruct (o_crash o1) eqn:Hc1; [done|].
    destruct (execs n g (o_task o1) (o_stack o1)) as [o2|] eqn:H2; [|done].
    simplify_eq/=. unfold step. rewrite Hc, Hg, H1.
    pose proof (lookup_lt_Some _ _ _ Hg) as Hlt.
    erewrite IH; [| | |exact H2]; simpl; [|done|].
    + f_equal. f_equal.
      * rewrite insert_app_l by (by rewrite length_insert).
        by rewrite list_insert_insert_eq, <- (assoc_L (++)).
      * by rewrite <- (assoc_L (++)).
    + rewrite lookup_app_l by (by rewrite length_insert).
      by rewrite list_lookup_insert_eq.
Qed.

(** ** What one call does when its goroutine runs alone *)

Ltac solo :=
  match goal with
  | |- execs _ _ ?t (?f :: _) = _ =>
      destruct t as [?h [?bf ?cp ?cl] ?cn ?sd ?lr ?m];
      destruct f as [?fm ?fb ?fd ?fa ?fr ?fp];
      simpl in *; simplify_eq; reflexivity
  end.

Definition close_chan (c : chan) : chan := Chan (buf c) (cap c) true.

Lemma Cancel_first g t f rest k :
  body f = SCall MCancel :: k → mu t = None →
  canceled t = false → closed (send t) = false →
  execs 12 g t (f :: rest) =
    Some (Outcome (set_send (close_chan (send t)) (set_canceled t))
            (set_acc (RBool true) (set_body k f) :: rest) []
            [EvRet g MCancel (RBool true); EvRet g Mcancel (RBool true);
             EvClose g; EvCall g Mcancel; EvCall g MCancel] false).
Proof. intros. solo. Qed.

Lemma Cancel_again g t f rest k :
  body f = SCall MCancel :: k → mu t = None → canceled t = true →
  execs 10 g t (f :: rest) =
    Some (Outcome t (set_acc (RBool false) (set_body k f) :: rest) []
            [EvRet g MCancel (RBool false); EvRet g Mcancel (RBool false);
             EvCall g Mcancel; EvCall g MCancel] false).
Proof. intros. solo. Qed.

Lemma Send_cancelled g t f rest k v :
  body f = SCall (MSend v) :: k → mu t = None → canceled t = true →
  execs 6 g t (f :: rest) =
    Some (Outcome t (set_acc RVoid (set_body k f) :: rest) []
            [EvRet g (MSend v) RVoid; EvCall g (MSend v)] false).
Proof. intros. solo. Qed.

Lemma Send_accepted g t f rest k v :
  body f = SCall (MSend v) :: k → mu t = None →
  canceled t = false → closed (send t) = false →
  length (buf (send t)) < cap (send t) →
  execs 8 g t (f :: rest) =
    Some (Outcome (set_send (Chan (buf (send t) ++ [v]) (cap (send t)) false)
                     (set_lastResult v t))
            (set_acc RVoid (set_body k f) :: rest) []
            [EvRet g (MSend v) RVoid; EvChanSend g v; EvAssign g v;
             EvCall g (MSend v)] false).
Proof.
  intros Hb Hmu Hc Hcl Hlen.
  destruct t as [h [bf cp cl] cn sd lr m];
    destruct f as [fm fb fd fa fr fp]; simpl in *; simplify_eq.
  apply Nat.ltb_lt in Hlen. unfold execs, exec; simpl. rewrite Hlen. reflexivity.
Qed.

Lemma Start_first g t f rest k :
  body f = SCall MStart :: k → mu t = None →
  canceled t = false → started t = false →
  execs 9 g t (f :: rest) =
    Some (Outcome (set_started t) (set_acc RSelf (set_body k f) :: rest)
            [[new_frame t MgoFunc]]
            [EvRet g MStart RSelf; EvGo g MgoFunc; EvCall g MStart] false).
Proof. intros. solo. Qed.

Lemma Start_again g t f rest k :
  body f = SCall MStart :: k → mu t = None →
  canceled t || started t = true →
  execs 7 g t (f :: rest) =
    Some (Outcome t (set_acc RSelf (set_body k f) :: rest) []
            [EvRet g MStart RSelf; EvCall g MStart] false).
Proof.
  intros Hb Hmu Hc.
  destruct t as [h [bf cp cl] cn sd lr m];
    destruct f as [fm fb fd fa fr fp]; simpl in *; simplify_eq.
  destruct cn, sd; try done.
Qed.

Lemma StartBackground_call g t f rest k :
  body f = SCall MStartBackground :: k →
  execs 4 g t (f :: rest) =
    Some (Outcome t (set_acc RSelf (set_body k f) :: rest)
            [[new_frame t MStart]]
            [EvRet g MStartBackground RSelf; EvGo g MStart;
             EvCall g MStartBackground] false).
Proof. intros. solo. Qed.

Lemma LastResult_call g t f rest k :
  body f = SCall MLastResult :: k → mu t = None →
  execs 6 g t (f :: rest) =
    Some (Outcome t (set_acc (RVal (lastResult t)) (set_body k f) :: rest) []
            [EvRet g MLastResult (RVal (lastResult t)); EvCall g MLastResult]
            false).
Proof. intros. solo. Qed.

Lemma IsCanceled_call g t f rest k :
  body f = SCall MIsCanceled :: k → mu t = None →
  execs 6 g t (f :: rest) =
    Some (Outcome t (set_acc (RBool (canceled t)) (set_body k f) :: rest) []
            [EvRet g MIsCanceled (RBool (canceled t)); EvCall g MIsCanceled]
            false).
Proof. intros. solo. Qed.

(** The func literal of [Start]: it registers [gc.Cancel()] and calls the
    handler. *)
Lemma goFunc_calls_handler g t t0 :
  execs 2 g t [new_frame t0 MgoFunc] =
    Some (Outcome t
            [new_frame t Mhandler; Frame MgoFunc [] [DCall MCancel] RVoid RVoid false]
            [] [EvCall g Mhandler] false).
Proof. reflexivity. Qed.

(** The handler panics: the panic unwinds into the func literal of [Start],
    whose deferred [gc.Cancel()] runs to its end. *)
Lemma handler_panic_cancels g t hf w k :
  body hf = SPanic :: k → defers hf = [] →
  body w = [] → defers w = [DCall MCancel] →
  mu t = None → canceled t = false → closed (send t) = false →
  execs 14 g t [hf; w] =
    Some (Outcome (set_send (close_chan (send t)) (set_canceled t))
            [set_acc (RBool true) (set_defers [] (set_panic w))] []
            [EvRet g MCancel (RBool true); EvRet g Mcancel (RBool true);
             EvClose g; EvCall g Mcancel; EvCall g MCancel; EvPanic g PUser]
            false).
Proof.
  intros. destruct t as [h [bf cp cl] cn sd lr m].
  destruct hf as [fm fb fd fa fr fp]. destruct w as [wm wb wd wa wr wp].
  simpl in *. by simplify_eq.
Qed.

Lemma handler_panic_cancelled g t hf w k :
  body hf = SPanic :: k → defers hf = [] →
  body w = [] → defers w = [DCall MCancel] →
  mu t = None → canceled t = true →
  execs 12 g t [hf; w] =
    Some (Outcome t [set_acc (RBool false) (set_defers [] (set_panic w))] []
            [EvRet g MCancel (RBool false); EvRet g Mcancel (RBool false);
             EvCall g Mcancel; EvCall g MCancel; EvPanic g PUser]
            false).
Proof.
  intros. destruct t as [h [bf cp cl] cn sd lr m].
  destruct hf as [fm fb fd fa fr fp]. destruct w as [wm wb wd wa wr wp].
  simpl in *. by simplify_eq.
Qed.

(** ** Consequences of the invariant *)

(** The statements of the critical sections are only reached with the
    mutex held. *)
Lemma critical_held st : stack_ok st → point_of st ≠ POther → top_held st = true.
Proof.
  destruct st as [|[m b d a r p] rest]; [done|].
  intros (Hf & Hu & _). unfold frame_ok in Hf. cbn in Hf.
  destruct m; cbn in Hf, Hu; break_frame_ok; simplify_eq; try done.
  all: try match goal with |- context [user ?c] => by destruct c as [|[] ?] end.
Qed.

Lemma point_next st i :
  next_stmt st = Some i →
  point_of st =
    match i with
    | SSetCanceled => PSetCanceled
    | SClose => PClose
    | SSetLastResult v => PAssign v
    | SChanSend v => PChanSend v
    | SSetStarted => PSetStarted
    | SGo MgoFunc => PLaunch
    | _ => POther
    end.
Proof.
  destruct st as [|[m [|j b] d a r p] rest]; simpl; try done.
  by intros [= ->].
Qed.

Definition is_chan_send (e : event) : bool :=
  match e with EvChanSend _ _ => true | _ => false end.

(** Values placed on the channel. *)
Definition sends (l : list event) : nat := count is_chan_send l.

(** Only [gc.lastResult = v] changes the last result, only [gc.send <- v]
    puts a value on the channel. *)
Lemma exec_point g t st o :
  exec g t st = Some o →
  ((∀ v, point_of st ≠ PAssign v) →
   lastResult (o_task o) = lastResult t ∧ assigned (o_events o) = []) ∧
  ((∀ v, point_of st ≠ PChanSend v) →
   sends (o_events o) = 0 ∧
   ∀ v, v ∈ buf (send (o_task o)) → v ∈ buf (send t)).
Proof.
  intros Hex. destruct st as [|[m b d a r p] rest]; [done|].
  destruct b as [|[] b]; [destruct d as [|[] d]|..];
    exec_cases Hex; cbn [o_stack o_spawn o_task o_crash o_events].
  all: fields t; simplify_eq.
  all: split; intros Hp; try (exfalso; by eapply Hp); try done.
  all: split; [done|]; intros v0 Hv0; by apply list_elem_of_further.
Qed.

Lemma inv_point h s g st :
  inv h s → pool s !! g = Some st → point_of st ≠ POther →
  mu (task s) = Some g ∧ held_assert (task s) (log s) (point_of st).
Proof.
  intros Hi Hg Hp.
  pose proof (critical_held st (wf_stacks _ (inv_wf _ _ Hi) _ _ Hg) Hp) as Hth.
  split; [by apply (wf_lock _ (inv_wf _ _ Hi) _ _ Hg)|by eapply inv_held].
Qed.

(** Once cancelled, no goroutine is at an assignment of the last result or
    at a write on the channel. *)
Lemma cancelled_points h s g st :
  inv h s → canceled (task s) = true → pool s !! g = Some st →
  (∀ v, point_of st ≠ PAssign v) ∧ (∀ v, point_of st ≠ PChanSend v).
Proof.
  intros Hi Hc Hg. split; intros v Hp.
  all: destruct (inv_point h s g st Hi Hg) as [_ Ha]; [by rewrite Hp|].
  all: rewrite Hp in Ha; simpl in Ha; destruct_and?; congruence.
Qed.

Lemma cancelled_step h s g s' :
  inv h s → canceled (task s) = true → step g s = Some s' →
  canceled (task s') = true ∧
  lastResult (task s') = lastResult (task s) ∧
  assigned (log s') = assigned (log s) ∧
  sends (log s') = sends (log s) ∧
  (∀ v, v ∈ buf (send (task s')) → v ∈ buf (send (task s))).
Proof.
  intros Hi Hc (_ & st & o & Hg & Hex & ->)%step_inv. simpl.
  destruct (cancelled_points h s g st Hi Hc Hg) as [Hpa Hps].
  destruct (exec_point g (task s) st o Hex) as [Ha Hs].
  destruct (Ha Hpa) as [-> Has]. destruct (Hs Hps) as [Hsn Hb].
  destruct (exec_mono g (task s) st o Hex) as (Hmc & _).
  unfold sends in *. rewrite assigned_app, count_app, Has, Hsn.
  split_and?; eauto.
Qed.

Lemma cancelled_run h sch s s' :
  inv h s → canceled (task s) = true → run sch s = Some s' →
  canceled (task s') = true ∧
  lastResult (task s') = lastResult (task s) ∧
  assigned (log s') = assigned (log s) ∧
  sends (log s') = sends (log s) ∧
  (∀ v, v ∈ buf (send (task s')) → v ∈ buf (send (task s))).
Proof.
  revert s. induction sch as [|g sch IH]; simpl; intros s Hi Hc Hr.
  - by simplify_eq.
  - destruct (step g s) as [s1|] eqn:Hs; [|done].
    destruct (cancelled_step h s g s1 Hi Hc Hs) as (Hc1 & H1 & H2 & H3 & Hb).
    destruct (IH s1 (inv_step _ _ _ _ Hi Hs) Hc1 Hr) as (? & ? & ? & ? & Hb').
    split_and?; eauto; congruence.
Qed.

Lemma Cancel_points f rest :
  frame_ok f → fn f = MCancel ∨ fn f = Mcancel →
  ∀ v, point_of (f :: rest) ≠ PAssign v.
Proof.
  destruct f as [m b d a r p]. unfold frame_ok; simpl.
  intros Hf [-> | ->] v; simpl in Hf; break_frame_ok; simplify_eq; done.
Qed.

(** A [Cancel] call that runs on its own with the mutex free. *)
Lemma Cancel_call_runs h s g f rest k :
  inv h s → crashed s = false → mu (task s) = None →
  pool s !! g = Some (f :: rest) → body f = SCall MCancel :: k →
  (canceled (task s) = false →
   run (replicate 12 g) s =
     Some (State (set_send (close_chan (send (task s))) (set_canceled (task s)))
             (<[g := set_acc (RBool true) (set_body k f) :: rest]> (pool s))
             (EvRet g MCancel (RBool true) :: EvRet g Mcancel (RBool true) ::
              EvClose g :: EvCall g Mcancel :: EvCall g MCancel :: log s)
             false)) ∧
  (canceled (task s) = true →
   run (replicate 10 g) s =
     Some (State (task s)
             (<[g := set_acc (RBool false) (set_body k f) :: rest]> (pool s))
             (EvRet g MCancel (RBool false) :: EvRet g Mcancel (RBool false) ::
              EvCall g Mcancel :: EvCall g MCancel :: log s)
             false)).
Proof.
  intros Hi Hcr Hmu Hg Hb. split; intros Hc.
  - destruct (inv_free _ _ Hi Hmu) as [Hcl _].
    erewrite run_solo;
      [|done|done|apply Cancel_first; [exact Hb|done|done|congruence]].
    simpl. by rewrite app_nil_r.
  - erewrite run_solo; [|done|done|by apply Cancel_again].
    simpl. by rewrite app_nil_r.
Qed.

(** The handler's frame and the func literal under it. *)
Lemma handler_stack h s g hf w :
  inv h s → pool s !! g = Some [hf; w] → fn hf = Mhandler →
  defers hf = [] ∧ fn w = MgoFunc ∧ body w = [] ∧ defers w = [DCall MCancel].
Proof.
  intros Hi Hg Hfn.
  destruct (wf_stacks _ (inv_wf _ _ Hi) _ _ Hg) as (Hf & Hu & _).
  unfold frame_ok in Hf. unfold under_ok in Hu. rewrite Hfn in Hf, Hu.
  simpl in Hf. destruct Hf as [Hd _].
  destruct Hu as (c & [= <-] & ? & ? & ?). done.
Qed.

Lemma handler_panic_runs h s g hf w k :
  inv h s → crashed s = false → mu (task s) = None →
  pool s !! g = Some [hf; w] → fn hf = Mhandler → body hf = SPanic :: k →
  (canceled (task s) = false →
   run (replicate 15 g) s =
     Some (State (set_send (close_chan (send (task s))) (set_canceled (task s)))
             (<[g := []]> (pool s))
             (EvCrash g :: EvRet g MCancel (RBool true) ::
              EvRet g Mcancel (RBool true) :: EvClose g :: EvCall g Mcancel ::
              EvCall g MCancel :: EvPanic g PUser :: log s) true)) ∧
  (canceled (task s) = true →
   closed (send (task s)) = true ∧
   run (replicate 13 g) s =
     Some (State (task s) (<[g := []]> (pool s))
             (EvCrash g :: EvRet g MCancel (RBool false) ::
              EvRet g Mcancel (RBool false) :: EvCall g Mcancel ::
              EvCall g MCancel :: EvPanic g PUser :: log s) true)).
Proof.
  intros Hi Hcr Hmu Hg Hfn Hb.
  destruct (handler_stack h s g hf w Hi Hg Hfn) as (Hd & Hwf & Hwb & Hwd).
  destruct (inv_free _ _ Hi Hmu) as [Hcl _].
  pose proof (lookup_lt_Some _ _ _ Hg) as Hlt.
  split; intros Hc.
  - change (replicate 15 g) with (replicate 14 g ++ [g]). rewrite run_snoc.
    erewrite run_solo;
      [|done|done|by apply (handler_panic_cancels g (task s) hf w k);
                    try done; congruence].
    simpl. unfold step. simpl. rewrite app_nil_r.
    rewrite list_lookup_insert_eq by done. simpl.
    unfold exec_pop. simpl. by rewrite app_nil_r, list_insert_insert_eq.
  - split; [congruence|].
    change (replicate 13 g) with (replicate 12 g ++ [g]). rewrite run_snoc.
    erewrite run_solo;
      [|done|done|by apply (handler_panic_cancelled g (task s) hf w k)].
    simpl. unfold step. simpl. rewrite app_nil_r.
    rewrite list_lookup_insert_eq by done. simpl.
    unfold exec_pop. simpl. by rewrite app_nil_r, list_insert_insert_eq.
Qed.

(** ** Scenarios used below *)

(** The handler of the tests: it sends [true]. *)
Definition handler_send_true : option (list ucmd) := Some [USend (VBool true)].

(** The handler sends twice and nobody receives; the client starts the
    task and then cancels.  The schedule stops where the second send waits
    for the channel's slot and [Cancel] waits for the mutex. *)
Definition blocked_handler : option (list ucmd) :=
  Some [USend (VInt 1); USend (VInt 2)].
Definition blocked_main : list ucmd := [UStart; UCancel].
Definition blocked_state : state :=
  from_run (replicate 9 0 ++ replicate 15 1 ++ [0]) blocked_handler blocked_main.

(** The handler panics at once. *)
Definition panic_handler : option (list ucmd) := Some [UPanic].
Definition panic_main : list ucmd := [UStart].

(** ** The claims *)

(** C2. In every reachable state no write and no close has ever hit a closed
    channel, and a goroutine whose next statement is the channel write
    [gc.send <- v] of [Send] holds the mutex, sees [canceled == false] and
    an open channel, no other goroutine is inside a critical section (in
    particular none is inside [cancel]), and its step, when the slot is
    free, places [v] and leaves the channel open.  So a [Send] either does
    its check and its write before [Cancel] can close the channel, or never
    reaches the write. *)
Theorem Send_never_writes_after_cancel h main s :
  reachable h main s →
  count is_chan_panic (log s) = 0 ∧
  ∀ g st v, pool s !! g = Some st → next_stmt st = Some (SChanSend v) →
    mu (task s) = Some g ∧ canceled (task s) = false ∧
    closed (send (task s)) = false ∧
    (∀ g' st', pool s !! g' = Some st' → g' ≠ g → point_of st' = POther) ∧
    (∀ s', step g s = Some s' →
       log s' = EvChanSend g v :: log s ∧ closed (send (task s')) = false ∧
       canceled (task s') = false).
Proof.
  intros Hi%inv_reachable. split; [by eapply inv_nopanic|].
  intros g st v Hg Hn. pose proof (point_next _ _ Hn) as Hp.
  destruct (inv_point h s g st Hi Hg) as [Hmu Ha]; [by rewrite Hp|].
  rewrite Hp in Ha. simpl in Ha. destruct Ha as (Hc & Hcl & _ & _).
  split_and?; try done.
  - intros g' st' Hg' Hne.
    destruct (point_of st') eqn:Hp'; try done.
    all: destruct (inv_point h s g' st' Hi Hg') as [Hmu' _];
      [by rewrite Hp'|congruence].
  - intros s' (_ & st1 & o & Hg1 & Hex & ->)%step_inv. simplify_eq/=.
    destruct st as [|[m [|i b] d a r p] rest]; simplify_eq/=.
    rewrite Hcl in Hex.
    destruct (length (buf (send (task s))) <? cap (send (task s)));
      by simplify_eq/=.
Qed.

Lemma Send_never_writes_after_cancel_witness :
  reachable blocked_handler blocked_main blocked_state ∧
  next_stmt (default [] (pool blocked_state !! 1)) = Some (SChanSend (VInt 2)) ∧
  count is_chan_panic (log blocked_state) = 0 ∧
  mu (task blocked_state) = Some 1 ∧ canceled (task blocked_state) = false.
Proof.
  split; [apply from_run_reachable|]. split; [vm_compute; reflexivity|].
  destruct (Send_never_writes_after_cancel blocked_handler blocked_main
              blocked_state (from_run_reachable _ _ _)) as [Hnp Hw].
  split; [exact Hnp|].
  destruct (Hw 1 (default [] (pool blocked_state !! 1)) (VInt 2))
    as (Hmu & Hc & _); [vm_compute; reflexivity|vm_compute; reflexivity|].
  split; [exact Hmu|exact Hc].
Defined.

(** C4. On a cancelled task [Send(v)] is a no-op.  Run on its own from a
    cancelled state in which the mutex is free, the call returns after six
    steps and leaves the task as it was: [lastResult] untouched, nothing
    put on the channel, no wait on the channel.  Under every interleaving,
    in no continuation of a cancelled state is [lastResult] assigned again
    or a value placed on the channel. *)
Theorem Send_on_cancelled_is_noop h main s g f rest k v :
  reachable h main s → crashed s = false →
  canceled (task s) = true → mu (task s) = None →
  pool s !! g = Some (f :: rest) → body f = SCall (MSend v) :: k →
  run (replicate 6 g) s =
    Some (State (task s)
            (<[g := set_acc RVoid (set_body k f) :: rest]> (pool s))
            (EvRet g (MSend v) RVoid :: EvCall g (MSend v) :: log s) false) ∧
  ∀ sch s', run sch s = Some s' →
    canceled (task s') = true ∧
    lastResult (task s') = lastResult (task s) ∧
    assigned (log s') = assigned (log s) ∧
    sends (log s') = sends (log s) ∧
    (∀ w, w ∈ buf (send (task s')) → w ∈ buf (send (task s))).
Proof.
  intros Hr Hcr Hc Hmu Hg Hb. split.
  - erewrite run_solo; [|done|done|by apply Send_cancelled].
    simpl. by rewrite app_nil_r.
  - intros sch s' Hrun. eapply cancelled_run; eauto using inv_reachable.
Qed.

(** A client that cancels and then sends, stopped after the [Cancel]. *)
Definition cancelled_main : list ucmd := [UCancel; USend (VBool true)].
Definition cancelled_state : state := from_run (replicate 12 0) None cancelled_main.
Definition cancelled_frame : frame :=
  Frame (MUser cancelled_main) [SCall (MSend (VBool true))] [] (RBool true)
    RVoid false.

Lemma Send_on_cancelled_is_noop_witness :
  reachable None cancelled_main cancelled_state ∧
  crashed cancelled_state = false ∧
  canceled (task cancelled_state) = true ∧
  mu (task cancelled_state) = None ∧
  pool cancelled_state !! 0 = Some [cancelled_frame] ∧
  body cancelled_frame = [SCall (MSend (VBool true))] ∧
  run (replicate 6 0) cancelled_state =
    Some (State (task cancelled_state)
            (<[0 := [set_acc RVoid (set_body [] cancelled_frame)]]>
               (pool cancelled_state))
            (EvRet 0 (MSend (VBool true)) RVoid ::
             EvCall 0 (MSend (VBool true)) :: log cancelled_state) false).
Proof.
  split; [apply from_run_reachable|].
  assert (crashed cancelled_state = false) as H1 by (vm_compute; reflexivity).
  assert (canceled (task cancelled_state) = true) as H2
    by (vm_compute; reflexivity).
  assert (mu (task cancelled_state) = None) as H3 by (vm_compute; reflexivity).
  assert (pool cancelled_state !! 0 = Some [cancelled_frame]) as H4
    by (vm_compute; reflexivity).
  assert (body cancelled_frame = [SCall (MSend (VBool true))]) as H5
    by reflexivity.
  do 5 (split; [assumption|]).
  exact (proj1 (Send_on_cancelled_is_noop None cancelled_main cancelled_state 0
                  cancelled_frame [] [] (VBool true)
                  (from_run_reachable _ _ _) H1 H2 H3 H4 H5)).
Defined.

(** C3. [Cancel] is idempotent.  In every reachable state the channel has
    been closed as many times as its [closed] flag says (never twice, and
    no close ever hit a closed channel), [closed] implies [canceled], and
    the two flags agree except while the holder of the mutex stands between
    [gc.canceled = true] and [close(gc.send)]; once [canceled] is set it
    stays set.  A [Cancel] call that runs on its own from a state where the
    mutex is free sets [canceled], closes the channel and returns true if
    the task was not cancelled, and returns false leaving the task
    untouched if it was. *)
Theorem Cancel_is_idempotent h main s :
  reachable h main s →
  closes (log s) = b2n (closed (send (task s))) ∧
  count is_chan_panic (log s) = 0 ∧
  (closed (send (task s)) = true → canceled (task s) = true) ∧
  (closed (send (task s)) = canceled (task s) ∨
   ∃ g st, mu (task s) = Some g ∧ pool s !! g = Some st ∧
           next_stmt st = Some SClose) ∧
  (mu (task s) = None → closed (send (task s)) = canceled (task s)) ∧
  (canceled (task s) = true →
   ∀ sch s', run sch s = Some s' → canceled (task s') = true) ∧
  ∀ g f rest k,
    crashed s = false → mu (task s) = None →
    pool s !! g = Some (f :: rest) → body f = SCall MCancel :: k →
    (canceled (task s) = false →
     run (replicate 12 g) s =
       Some (State (set_send (close_chan (send (task s))) (set_canceled (task s)))
               (<[g := set_acc (RBool true) (set_body k f) :: rest]> (pool s))
               (EvRet g MCancel (RBool true) :: EvRet g Mcancel (RBool true) ::
                EvClose g :: EvCall g Mcancel :: EvCall g MCancel :: log s)
               false)) ∧
    (canceled (task s) = true →
     run (replicate 10 g) s =
       Some (State (task s)
               (<[g := set_acc (RBool false) (set_body k f) :: rest]> (pool s))
               (EvRet g MCancel (RBool false) :: EvRet g Mcancel (RBool false) ::
                EvCall g Mcancel :: EvCall g MCancel :: log s)
               false)).
Proof.
  intros Hi%inv_reachable.
  assert (closed (send (task s)) = canceled (task s) ∨
          canceled (task s) = true ∧ closed (send (task s)) = false ∧
          ∃ g st, mu (task s) = Some g ∧ pool s !! g = Some st ∧
                  next_stmt st = Some SClose) as Hph.
  { destruct (mu (task s)) as [g|] eqn:Hmu.
    - pose proof (wf_owner _ (inv_wf _ _ Hi) _ Hmu) as Hlt.
      apply lookup_lt_is_Some in Hlt as [st Hst].
      pose proof (proj2 (wf_lock _ (inv_wf _ _ Hi) _ _ Hst) Hmu) as Hth.
      pose proof (inv_held _ _ Hi _ _ Hst Hth) as Ha.
      destruct st as [|[m [|i b] d a r p] rest]; try done.
      + left. apply Ha.
      + destruct i; simpl in Ha; unfold quiescent in Ha; destruct_and?;
          try (left; congruence).
        * right. split_and?; try done. by exists g, (Frame m (SClose :: b) d a r p :: rest).
        * destruct m0; simpl in Ha; unfold quiescent in Ha; destruct_and?;
            left; try congruence.
    - left. by destruct (inv_free _ _ Hi Hmu). }
  split_and?.
  - by eapply inv_closes.
  - by eapply inv_nopanic.
  - destruct Hph as [<-|(? & ? & _)]; [done|congruence].
  - destruct Hph as [?|(_ & _ & ?)]; [by left|by right].
  - intros Hmu. by destruct (inv_free _ _ Hi Hmu).
  - intros Hc sch s' Hrun. by destruct (cancelled_run h sch s s' Hi Hc Hrun).
  - intros g f rest k Hcr Hmu Hg Hb. by eapply Cancel_call_runs.
Qed.

(** A client that cancels twice. *)
Definition twice_main : list ucmd := [UCancel; UCancel].
Definition twice_frame : frame := new_frame (GoRace None) (MUser twice_main).

Lemma Cancel_is_idempotent_witness :
  reachable None twice_main (init None twice_main) ∧
  closes (log (init None twice_main)) = 0 ∧
  run (replicate 12 0) (init None twice_main) =
    Some (State (set_send (close_chan (send (GoRace None)))
                   (set_canceled (GoRace None)))
            [[set_acc (RBool true) (set_body [SCall MCancel] twice_frame)]]
            [EvRet 0 MCancel (RBool true); EvRet 0 Mcancel (RBool true);
             EvClose 0; EvCall 0 Mcancel; EvCall 0 MCancel] false).
Proof.
  split; [apply reach_init|].
  destruct (Cancel_is_idempotent None twice_main (init None twice_main)
              (reach_init _ _)) as (Hcl & _ & _ & _ & _ & _ & Hcall).
  split; [exact Hcl|].
  destruct (Hcall 0 twice_frame [] [SCall MCancel] eq_refl eq_refl eq_refl eq_refl)
    as [Hfirst _].
  exact (Hfirst eq_refl).
Defined.

(** C5. The handler is launched and called at most once, and the first
    [Start] does launch it.  In every reachable state at most one [go func]
    of [Start] has been executed and at most one call of the handler made,
    whatever the number of [Start] and [StartBackground] calls and their
    interleaving; [started] is only assigned where it is false, and stays
    true; whenever the mutex is free the [go func] has been executed exactly
    if [started] is set.  The goroutine of the func literal exists only once
    it has been launched; the handler has not been called while that
    goroutine stands before its call [gc.handler(ctx, gc)] and has been
    called, once, as soon as it is past it; when it has returned, one launch
    and one call have been made.  A [Start] call that runs on its own with
    the mutex free sets [started] and launches the handler goroutine when
    the task is neither cancelled nor started (nothing had been launched or
    called before, and the two first steps of the new goroutine register
    [gc.Cancel()] and call the handler), and otherwise changes nothing;
    either way it returns the task.  [StartBackground] starts a goroutine
    that runs [Start] and returns the task. *)
Theorem Start_launches_at_most_once h main s :
  reachable h main s →
  launches (log s) ≤ 1 ∧ runs (log s) ≤ 1 ∧
  (∀ g st, pool s !! g = Some st → next_stmt st = Some SSetStarted →
     started (task s) = false ∧ canceled (task s) = false ∧
     launches (log s) = 0 ∧ mu (task s) = Some g) ∧
  (started (task s) = true →
   ∀ g s', step g s = Some s' → started (task s') = true) ∧
  runs (log s) ≤ launches (log s) ∧
  (mu (task s) = None → launches (log s) = b2n (started (task s))) ∧
  (∀ g st, pool s !! g = Some st → has_gofunc st = true →
     launches (log s) = 1 ∧ runs (log s) = if pre_run st then 0 else 1) ∧
  (∀ g r, EvRet g MgoFunc r ∈ log s → launches (log s) = 1 ∧ runs (log s) = 1) ∧
  ∀ g f rest k,
    crashed s = false → pool s !! g = Some (f :: rest) →
    (body f = SCall MStart :: k → mu (task s) = None →
     (canceled (task s) = false → started (task s) = false →
      run (replicate 9 g) s =
        Some (State (set_started (task s))
                (<[g := set_acc RSelf (set_body k f) :: rest]> (pool s) ++
                 [[new_frame (task s) MgoFunc]])
                (EvRet g MStart RSelf :: EvGo g MgoFunc :: EvCall g MStart ::
                 log s) false) ∧
      launches (log s) = 0 ∧ runs (log s) = 0 ∧
      run (replicate 9 g ++ replicate 2 (length (pool s))) s =
        Some (State (set_started (task s))
                (<[g := set_acc RSelf (set_body k f) :: rest]> (pool s) ++
                 [[new_frame (task s) Mhandler;
                   Frame MgoFunc [] [DCall MCancel] RVoid RVoid false]])
                (EvCall (length (pool s)) Mhandler ::
                 EvRet g MStart RSelf :: EvGo g MgoFunc :: EvCall g MStart ::
                 log s) false)) ∧
     (canceled (task s) || started (task s) = true →
      run (replicate 7 g) s =
        Some (State (task s)
                (<[g := set_acc RSelf (set_body k f) :: rest]> (pool s))
                (EvRet g MStart RSelf :: EvCall g MStart :: log s) false))) ∧
    (body f = SCall MStartBackground :: k →
     run (replicate 4 g) s =
       Some (State (task s)
               (<[g := set_acc RSelf (set_body k f) :: rest]> (pool s) ++
                [[new_frame (task s) MStart]])
               (EvRet g MStartBackground RSelf :: EvGo g MStart ::
                EvCall g MStartBackground :: log s) false)).
Proof.
  intros Hr. pose proof (inv_reachable _ _ _ Hr) as Hi.
  pose proof (once_reachable _ _ _ Hr) as Ho.
  pose proof (ran_reachable _ _ _ Hr) as Hran.
  pose proof (launches_le _ _ Hi) as Hl.
  pose proof (once_runs _ Ho) as Hrl.
  split_and?.
  - done.
  - lia.
  - intros g st Hg Hn. pose proof (point_next _ _ Hn) as Hp.
    destruct (inv_point h s g st Hi Hg) as [Hmu Ha]; [by rewrite Hp|].
    rewrite Hp in Ha. simpl in Ha. by destruct_and?.
  - intros Hs g s' (_ & st & o & Hg & Hex & ->)%step_inv. simpl.
    by apply (exec_mono g (task s) st o Hex).
  - done.
  - intros Hmu. by destruct (inv_free _ _ Hi Hmu).
  - intros g st Hg Hh. pose proof (once_launched _ Ho _ _ Hg Hh) as H1.
    split; [lia|]. destruct (pre_run st) eqn:Hp.
    + by apply (once_pre _ Ho _ _ Hg).
    + pose proof (ran_past _ Hran _ _ Hg Hh Hp). lia.
  - intros g r Hin. pose proof (ran_ended _ Hran _ _ Hin). lia.
  - intros g f rest k Hcr Hg. split; [intros Hb Hmu; split|intros Hb].
    + intros Hc Hs.
      assert (run (replicate 9 g) s =
        Some (State (set_started (task s))
                (<[g := set_acc RSelf (set_body k f) :: rest]> (pool s) ++
                 [[new_frame (task s) MgoFunc]])
                (EvRet g MStart RSelf :: EvGo g MgoFunc :: EvCall g MStart ::
                 log s) false)) as H9.
      { erewrite run_solo; [|done|done|by apply Start_first]. done. }
      destruct (inv_free _ _ Hi Hmu) as [_ Hla]. rewrite Hs in Hla.
      simpl in Hla. split_and?; [done|done|lia|].
      rewrite run_app, H9. cbn [mbind option_bind].
      pose proof (lookup_lt_Some _ _ _ Hg) as Hlt.
      match goal with |- run _ ?s1 = _ =>
        assert (pool s1 !! length (pool s) = Some [new_frame (task s) MgoFunc])
          as Hlk
          by (simpl; rewrite lookup_app_r by (by rewrite length_insert);
              by rewrite length_insert, Nat.sub_diag);
        rewrite (run_solo 2 (length (pool s)) s1 _ _ eq_refl Hlk
                   (goFunc_calls_handler _ _ _))
      end.
      simpl. rewrite insert_app_r_alt by (by rewrite length_insert).
      rewrite length_insert, Nat.sub_diag. simpl.
      by rewrite app_nil_r.
    + intros Hc. erewrite run_solo; [|done|done|by apply Start_again].
      simpl. by rewrite app_nil_r.
    + erewrite run_solo; [|done|done|by apply StartBackground_call]. done.
Qed.

(** Fifty [Start]/[StartBackground] pairs, as in the test of multiple
    starts, cut down to three; some schedule of them in which the goroutine
    of the handler (goroutine 1) has called the handler. *)
Definition starts_main : list ucmd :=
  [UStart; UStartBackground; UStart; UStartBackground; UStart; UStartBackground].
Definition starts_state : state :=
  from_run (replicate 9 0 ++ replicate 4 0 ++ replicate 2 1 ++ replicate 6 2 ++
            replicate 7 0 ++ replicate 4 0 ++ replicate 6 3)
    handler_send_true starts_main.
Definition starts_stack : list frame := default [] (pool starts_state !! 1).

Lemma Start_launches_at_most_once_witness :
  reachable handler_send_true starts_main starts_state ∧
  length (pool starts_state) = 4 ∧
  launches (log starts_state) ≤ 1 ∧ runs (log starts_state) ≤ 1 ∧
  pool starts_state !! 1 = Some starts_stack ∧
  has_gofunc starts_stack = true ∧
  launches (log starts_state) = 1 ∧ runs (log starts_state) = 1.
Proof.
  split; [apply from_run_reachable|]. split; [vm_compute; reflexivity|].
  destruct (Start_launches_at_most_once handler_send_true starts_main
              starts_state (from_run_reachable _ _ _))
    as (Hl & Hrn & _ & _ & _ & _ & Hgo & _).
  split; [exact Hl|]. split; [exact Hrn|].
  assert (pool starts_state !! 1 = Some starts_stack) as H1
    by (vm_compute; reflexivity).
  assert (has_gofunc starts_stack = true) as H2 by (vm_compute; reflexivity).
  assert (pre_run starts_stack = false) as H3 by (vm_compute; reflexivity).
  do 2 (split; [assumption|]).
  destruct (Hgo 1 starts_stack H1 H2) as [Hla Hru].
  rewrite H3 in Hru. split; [exact Hla|exact Hru].
Defined.

(** C8. [Cancel] never changes [lastResult].  In every reachable state a
    step taken inside [Cancel] or [cancel] leaves [lastResult] as it is; a
    [Cancel] call that runs on its own with the mutex free returns with the
    task cancelled and [lastResult] unchanged; and once the task is
    cancelled [lastResult] keeps its value in every continuation. *)
Theorem Cancel_keeps_lastResult h main s :
  reachable h main s →
  (∀ g f rest s', pool s !! g = Some (f :: rest) →
     fn f = MCancel ∨ fn f = Mcancel → step g s = Some s' →
     lastResult (task s') = lastResult (task s)) ∧
  (∀ g f rest k, crashed s = false → mu (task s) = None →
     pool s !! g = Some (f :: rest) → body f = SCall MCancel :: k →
     ∃ n s', run (replicate n g) s = Some s' ∧
       pool s' !! g =
         Some (set_acc (RBool (negb (canceled (task s)))) (set_body k f) :: rest) ∧
       canceled (task s') = true ∧
       lastResult (task s') = lastResult (task s)) ∧
  (canceled (task s) = true →
   ∀ sch s', run sch s = Some s' → lastResult (task s') = lastResult (task s)).
Proof.
  intros Hr. pose proof (inv_reachable _ _ _ Hr) as Hi. split_and?.
  - intros g f rest s' Hg Hfn (_ & st & o & Hg' & Hex & ->)%step_inv.
    rewrite Hg in Hg'. injection Hg' as <-. simpl.
    destruct (wf_stacks _ (inv_wf _ _ Hi) _ _ Hg) as (Hf & _).
    destruct (exec_point g (task s) _ o Hex) as [Ha _].
    by destruct (Ha (Cancel_points f rest Hf Hfn)).
  - intros g f rest k Hcr Hmu Hg Hb.
    pose proof (lookup_lt_Some _ _ _ Hg) as Hlt.
    destruct (Cancel_call_runs h s g f rest k Hi Hcr Hmu Hg Hb) as [H1 H2].
    destruct (canceled (task s)) eqn:Hc.
    + eexists 10, _. split; [by apply H2|]. simpl.
      by rewrite list_lookup_insert_eq.
    + eexists 12, _. split; [by apply H1|]. simpl.
      by rewrite list_lookup_insert_eq.
  - intros Hc sch s' Hrun. by destruct (cancelled_run h sch s s' Hi Hc Hrun)
      as (_ & ? & _).
Qed.

(** The handler has sent [true] and the deferred [Cancel] is inside
    [cancel], about to close the channel. *)
Definition cancelling_state : state :=
  from_run (replicate 9 0 ++ replicate 17 1) handler_send_true [UStart].

Definition cancelling_stack : list frame :=
  default [] (pool cancelling_state !! 1).
Definition cancelling_top : frame :=
  default (new_frame (GoRace None) Mcancel) (head cancelling_stack).

Lemma Cancel_keeps_lastResult_witness :
  reachable handler_send_true [UStart] cancelling_state ∧
  pool cancelling_state !! 1 = Some (cancelling_top :: tail cancelling_stack) ∧
  fn cancelling_top = Mcancel ∧
  next_stmt cancelling_stack = Some SClose ∧
  lastResult (task cancelling_state) = VBool true ∧
  ∀ s', step 1 cancelling_state = Some s' → lastResult (task s') = VBool true.
Proof.
  split; [apply from_run_reachable|].
  assert (pool cancelling_state !! 1 = Some (cancelling_top :: tail cancelling_stack))
    as Hp by (vm_compute; reflexivity).
  split; [exact Hp|]. do 3 (split; [vm_compute; reflexivity|]).
  destruct (Cancel_keeps_lastResult handler_send_true [UStart] cancelling_state
              (from_run_reachable _ _ _)) as (Hstep & _ & _).
  intros s' Hs'.
  rewrite (Hstep 1 cancelling_top (tail cancelling_stack) s' Hp
             (or_intror eq_refl) Hs').
  vm_compute; reflexivity.
Defined.

(** C10. The absence sentinel is the nil interface.  [GoRace] leaves
    [lastResult] nil; in every reachable state in which no [Send] has got
    past its check, [lastResult] is nil; [LastResult()] run on its own
    returns [lastResult] and changes nothing; and a [Send(nil)] that is
    accepted while [lastResult] is nil leaves it nil, although a value has
    been assigned and sent: [LastResult] cannot tell it from no send. *)
Theorem LastResult_absent_is_nil h main s :
  reachable h main s →
  lastResult (GoRace h) = VNil ∧
  (assigned (log s) = [] → lastResult (task s) = VNil) ∧
  ∀ g f rest k, crashed s = false → mu (task s) = None →
    pool s !! g = Some (f :: rest) →
    (body f = SCall MLastResult :: k →
     run (replicate 6 g) s =
       Some (State (task s)
               (<[g := set_acc (RVal (lastResult (task s))) (set_body k f) :: rest]>
                  (pool s))
               (EvRet g MLastResult (RVal (lastResult (task s))) ::
                EvCall g MLastResult :: log s) false)) ∧
    (body f = SCall (MSend VNil) :: k → canceled (task s) = false →
     length (buf (send (task s))) < cap (send (task s)) →
     lastResult (task s) = VNil →
     ∃ s', run (replicate 8 g) s = Some s' ∧
       assigned (log s') = VNil :: assigned (log s) ∧
       sends (log s') = S (sends (log s)) ∧
       lastResult (task s') = lastResult (task s)).
Proof.
  intros Hr. pose proof (inv_reachable _ _ _ Hr) as Hi. split_and?.
  - done.
  - intros Ha. rewrite (inv_last _ _ Hi), Ha. done.
  - intros g f rest k Hcr Hmu Hg. split.
    + intros Hb. erewrite run_solo; [|done|done|by apply LastResult_call].
      simpl. by rewrite app_nil_r.
    + intros Hb Hc Hlen Hlr.
      destruct (inv_free _ _ Hi Hmu) as [Hcl _].
      eexists. split.
      * eapply run_solo; [done|done|].
        apply Send_accepted; [exact Hb|done|done|congruence|done].
      * simpl. by destruct (task s).
Qed.

(** A client that sends nil and then asks for the last result. *)
Definition nil_main : list ucmd := [USend VNil; ULastResult].
Definition nil_state : state := from_run (replicate 8 0) None nil_main.
Definition nil_frame : frame :=
  Frame (MUser nil_main) [SCall MLastResult] [] RVoid RVoid false.

Lemma LastResult_absent_is_nil_witness :
  reachable None nil_main nil_state ∧
  assigned (log nil_state) = [VNil] ∧
  buf (send (task nil_state)) = [VNil] ∧
  run (replicate 6 0) nil_state =
    Some (State (task nil_state)
            [[set_acc (RVal VNil) (set_body [] nil_frame)]]
            (EvRet 0 MLastResult (RVal VNil) :: EvCall 0 MLastResult ::
             log nil_state) false).
Proof.
  split; [apply from_run_reachable|].
  do 2 (split; [vm_compute; reflexivity|]).
  destruct (LastResult_absent_is_nil None nil_main nil_state
              (from_run_reachable _ _ _)) as (_ & _ & Hcall).
  assert (crashed nil_state = false) as H1 by (vm_compute; reflexivity).
  assert (mu (task nil_state) = None) as H2 by (vm_compute; reflexivity).
  assert (pool nil_state !! 0 = Some [nil_frame]) as H3
    by (vm_compute; reflexivity).
  destruct (Hcall 0 nil_frame [] [] H1 H2 H3) as [Hlast _].
  assert (<[0:=[set_acc (RVal (lastResult (task nil_state))) (set_body [] nil_frame)]]>
            (pool nil_state) = [[set_acc (RVal VNil) (set_body [] nil_frame)]])
    as Hpool by (vm_compute; reflexivity).
  assert (lastResult (task nil_state) = VNil) as Hlr by (vm_compute; reflexivity).
  rewrite <- Hpool, <- Hlr. exact (Hlast eq_refl).
Defined.

(** Every placement of a value on the channel comes, in the log, after
    the assignment of that value to [lastResult], with no other assignment
    in between. *)
Fixpoint assigned_before_sent (l : list event) : Prop :=
  match l with
  | [] => True
  | EvChanSend _ v :: l' => head (assigned l') = Some v ∧ assigned_before_sent l'
  | _ :: l' => assigned_before_sent l'
  end.

Lemma exec_send_event g t st o :
  exec g t st = Some o →
  o_events o = [] ∨
  ∃ e, o_events o = [e] ∧
       ∀ g' v, e = EvChanSend g' v → next_stmt st = Some (SChanSend v).
Proof.
  intros Hex. destruct st as [|[m b d a r p] rest]; [done|].
  destruct b as [|[] b]; [destruct d as [|[] d]|..];
    exec_cases Hex; cbn [o_stack o_spawn o_task o_crash o_events].
  all: try (by left).
  all: right; eexists; split; [done|]; intros g' v' Hev; by simplify_eq.
Qed.

Lemma assigned_before_sent_reachable h main s :
  reachable h main s → assigned_before_sent (log s).
Proof.
  induction 1 as [|s g s' Hr IH Hstep]; [done|].
  pose proof (inv_reachable _ _ _ Hr) as Hi.
  apply step_inv in Hstep as (_ & st & o & Hg & Hex & ->). simpl.
  destruct (exec_send_event g (task s) st o Hex) as [->|(e & -> & He)]; [done|].
  destruct e; try done. simpl. split; [|done].
  pose proof (He _ _ eq_refl) as Hn. pose proof (point_next _ _ Hn) as Hp.
  destruct (inv_point h s g st Hi Hg) as [Hmu Ha]; [by rewrite Hp|].
  rewrite Hp in Ha. simpl in Ha. by destruct_and?.
Qed.

(** C7. [Send] assigns [lastResult] before it writes to the channel.  In
    every reachable state a goroutine whose next statement is the write
    [gc.send <- v] holds the mutex and [lastResult] is already [v]; in the
    log every placement of a value on the channel comes after the
    assignment of that value, with no assignment in between; every value
    still in the channel has been assigned to [lastResult], and
    [lastResult] is the newest value assigned: what [LastResult] returns is
    the value of a buffered element or of a later [Send]. *)
Theorem Send_sets_lastResult_first h main s :
  reachable h main s →
  (∀ v, Send v =
     [SLock; SDefer DUnlock;
      SIf CNotCanceled [SSetLastResult v; SChanSend v] []]) ∧
  (∀ g st v, pool s !! g = Some st → next_stmt st = Some (SChanSend v) →
     lastResult (task s) = v ∧ mu (task s) = Some g ∧
     head (assigned (log s)) = Some v) ∧
  assigned_before_sent (log s) ∧
  lastResult (task s) = default VNil (head (assigned (log s))) ∧
  (∀ w, w ∈ buf (send (task s)) → w ∈ assigned (log s)).
Proof.
  intros Hr. pose proof (inv_reachable _ _ _ Hr) as Hi. split_and?.
  - done.
  - intros g st v Hg Hn. pose proof (point_next _ _ Hn) as Hp.
    destruct (inv_point h s g st Hi Hg) as [Hmu Ha]; [by rewrite Hp|].
    rewrite Hp in Ha. simpl in Ha. destruct Ha as (_ & _ & _ & Hhd).
    rewrite (inv_last _ _ Hi), Hhd. done.
  - by eapply assigned_before_sent_reachable.
  - by eapply inv_last.
  - by eapply inv_buf.
Qed.

Lemma Send_sets_lastResult_first_witness :
  reachable blocked_handler blocked_main blocked_state ∧
  next_stmt (default [] (pool blocked_state !! 1)) = Some (SChanSend (VInt 2)) ∧
  buf (send (task blocked_state)) = [VInt 1] ∧
  lastResult (task blocked_state) = VInt 2 ∧
  assigned_before_sent (log blocked_state).
Proof.
  split; [apply from_run_reachable|].
  do 2 (split; [vm_compute; reflexivity|]).
  destruct (Send_sets_lastResult_first blocked_handler blocked_main
              blocked_state (from_run_reachable _ _ _))
    as (_ & Hw & Hord & _).
  split; [|exact Hord].
  destruct (Hw 1 (default [] (pool blocked_state !! 1)) (VInt 2))
    as (Hlr & _); [vm_compute; reflexivity|vm_compute; reflexivity|exact Hlr].
Defined.

(** Steps that leave the buffer of the channel as it is: nobody receives. *)
Inductive undrained (s : state) : state → Prop :=
| undrained_refl : undrained s s
| undrained_step s1 g s2 :
    undrained s s1 → step g s1 = Some s2 →
    buf (send (task s2)) = buf (send (task s1)) → undrained s s2.

(** Goroutine [g] stands at the write of [v] and the channel is full. *)
Definition send_blocked (s : state) (g : nat) (v : value) : Prop :=
  ∃ st, pool s !! g = Some st ∧ next_stmt st = Some (SChanSend v) ∧
        cap (send (task s)) ≤ length (buf (send (task s))).

Lemma send_blocked_facts h s g v :
  inv h s → send_blocked s g v →
  step g s = None ∧ mu (task s) = Some g ∧ canceled (task s) = false ∧
  ∀ g' st', pool s !! g' = Some st' → next_stmt st' = Some SLock →
            step g' s = None.
Proof.
  intros Hi (st & Hg & Hn & Hfull). pose proof (point_next _ _ Hn) as Hp.
  destruct (inv_point h s g st Hi Hg) as [Hmu Ha]; [by rewrite Hp|].
  rewrite Hp in Ha. simpl in Ha. destruct Ha as (Hc & Hcl & _).
  split_and?; try done.
  - unfold step. rewrite Hg. destruct (crashed s); [done|].
    destruct st as [|[m [|i b] d a r p] rest]; simplify_eq/=.
    rewrite Hcl. apply Nat.ltb_ge in Hfull. by rewrite Hfull.
  - intros g' st' Hg' Hn'. unfold step. rewrite Hg'.
    destruct (crashed s); [done|].
    destruct st' as [|[m [|i b] d a r p] rest]; simplify_eq/=.
    by rewrite Hmu.
Qed.

Lemma send_blocked_step h s g v g' s' :
  inv h s → send_blocked s g v → step g' s = Some s' →
  buf (send (task s')) = buf (send (task s)) → send_blocked s' g v.
Proof.
  intros Hi Hb Hstep Hbuf.
  destruct (send_blocked_facts h s g v Hi Hb) as (Hno & Hmu & _).
  destruct Hb as (st & Hg & Hn & Hfull).
  assert (g' ≠ g) as Hne by (intros ->; congruence).
  apply step_inv in Hstep as (_ & st' & o & Hg' & Hex & ->). simpl in *.
  pose proof (lookup_lt_Some _ _ _ Hg) as Hlt.
  exists st. simpl. split_and?; [|done|].
  - rewrite lookup_app_l by (by rewrite length_insert).
    by rewrite list_lookup_insert_ne.
  - destruct (exec_mono g' (task s) st' o Hex) as (_ & _ & _ & _ & -> & _).
    by rewrite Hbuf.
Qed.

(** While a [Send] waits for the slot with the mutex, a deferred [Cancel]
    that stands at its [Lock] stays there. *)
Lemma blocked_Cancel_waits h s g' v s' :
  inv h s → send_blocked s g' v → undrained s s' →
  inv h s' ∧ send_blocked s' g' v ∧
  canceled (task s') = false ∧ closed (send (task s')) = false ∧
  ∀ g st, pool s !! g = Some st → next_stmt st = Some SLock →
          pool s' !! g = Some st ∧ step g s' = None.
Proof.
  intros Hi Hb Hu.
  induction Hu as [|s1 g1 s2 Hu (Hi1 & Hb1 & Hc1 & Hcl1 & Hw1) Hstep Hbuf].
  - destruct (send_blocked_facts h s g' v Hi Hb) as (_ & Hmu & Hc & Hlock).
    split_and?; try done.
    + destruct Hb as (st & Hg & Hn & _). pose proof (point_next _ _ Hn) as Hp.
      destruct (inv_point h s g' st Hi Hg) as [_ Ha]; [by rewrite Hp|].
      rewrite Hp in Ha. simpl in Ha. by destruct_and?.
    + intros g st Hg Hn. split; [done|]. eauto.
  - pose proof (inv_step _ _ _ _ Hi1 Hstep) as Hi2.
    pose proof (send_blocked_step h s1 g' v g1 s2 Hi1 Hb1 Hstep Hbuf) as Hb2.
    destruct (send_blocked_facts h s2 g' v Hi2 Hb2) as (_ & Hmu & Hc & Hlock).
    split_and?; try done.
    + destruct Hb2 as (st & Hg & Hn & _). pose proof (point_next _ _ Hn) as Hp.
      destruct (inv_point h s2 g' st Hi2 Hg) as [_ Ha]; [by rewrite Hp|].
      rewrite Hp in Ha. simpl in Ha. by destruct_and?.
    + intros g st Hg Hn. destruct (Hw1 g st Hg Hn) as [Hg1 Hno].
      assert (pool s2 !! g = Some st) as Hg2.
      { assert (g ≠ g1) as Hne by (intros ->; congruence).
        apply step_inv in Hstep as (_ & st1 & o & Hg1' & Hex & ->). simpl.
        rewrite lookup_app_l
          by (rewrite length_insert; by eapply lookup_lt_Some).
        by rewrite list_lookup_insert_ne. }
      split; [done|]. eauto.
Qed.



(** C1, as the spec states it, fails: a panic of the handler is not
    recovered.  With a handler that panics, after [Start] the process
    terminates (the deferred [Cancel] has run by then). *)
Lemma handler_panic_terminates_process :
  ¬ (∀ s, reachable panic_handler panic_main s → crashed s = false).
Proof.
  intros H.
  specialize (H (from_run (replicate 9 0 ++ replicate 17 1) panic_handler panic_main)
                (from_run_reachable _ _ _)).
  vm_compute in H. discriminate H.
Qed.

(** C1, amended.  A panic of the handler is not recovered.  It unwinds the
    goroutine of the handler only: the stacks of all other goroutines, the
    caller of [Start] among them, are not touched by its steps.  The
    unwinding reaches the func literal of [Start] and calls the deferred
    [gc.Cancel()].  If the mutex is free and the goroutine runs on, then
    from the [panic] statement it takes fifteen steps (thirteen if the task
    is cancelled already) until [Cancel] has returned, the task is cancelled
    and the channel closed, and the panic has terminated the process.
    Whenever a step of the handler's goroutine terminates the process, the
    task is cancelled and the channel closed.  But the deferred [Cancel]
    needs the mutex: while a [Send] that waits for the slot of the channel
    holds it, and as long as nobody receives, the [Cancel] stays at its
    [Lock], the goroutine of the handler does not move, the task is not
    cancelled and the channel not closed. *)
Theorem handler_panic_is_not_recovered h main s :
  reachable h main s →
  (∀ g hf w k, crashed s = false → mu (task s) = None →
     pool s !! g = Some [hf; w] → fn hf = Mhandler → body hf = SPanic :: k →
     fn w = MgoFunc ∧
     (canceled (task s) = false →
      run (replicate 15 g) s =
        Some (State (set_send (close_chan (send (task s))) (set_canceled (task s)))
                (<[g := []]> (pool s))
                (EvCrash g :: EvRet g MCancel (RBool true) ::
                 EvRet g Mcancel (RBool true) :: EvClose g :: EvCall g Mcancel ::
                 EvCall g MCancel :: EvPanic g PUser :: log s) true)) ∧
     (canceled (task s) = true →
      closed (send (task s)) = true ∧
      run (replicate 13 g) s =
        Some (State (task s) (<[g := []]> (pool s))
                (EvCrash g :: EvRet g MCancel (RBool false) ::
                 EvRet g Mcancel (RBool false) :: EvCall g Mcancel ::
                 EvCall g MCancel :: EvPanic g PUser :: log s) true))) ∧
  (∀ g w, crashed s = false → pool s !! g = Some [w] →
     fn w = MgoFunc → panicking w = true →
     (defers w = [DCall MCancel] →
      step g s =
        Some (State (task s)
                (<[g := [new_frame (task s) MCancel; set_defers [] w]]> (pool s))
                (EvCall g MCancel :: log s) false)) ∧
     (defers w = [] →
      canceled (task s) = true ∧ closed (send (task s)) = true ∧
      step g s =
        Some (State (task s) (<[g := []]> (pool s)) (EvCrash g :: log s) true))) ∧
  (∀ g st s', pool s !! g = Some st → has_gofunc st = true →
     step g s = Some s' → crashed s' = true →
     canceled (task s') = true ∧ closed (send (task s')) = true) ∧
  (∀ g g' st' s', step g s = Some s' → g' ≠ g →
     pool s !! g' = Some st' → pool s' !! g' = Some st') ∧
  (∀ g' v s', send_blocked s g' v → undrained s s' →
     canceled (task s') = false ∧ closed (send (task s')) = false ∧
     ∀ g c w, pool s !! g = Some [c; w] → fn c = MCancel →
       next_stmt [c; w] = Some SLock → fn w = MgoFunc → panicking w = true →
       pool s' !! g = Some [c; w] ∧ step g s' = None).
Proof.
  intros Hr. pose proof (inv_reachable _ _ _ Hr) as Hi. split_and?.
  - intros g hf w k Hcr Hmu Hg Hfn Hb.
    destruct (handler_stack h s g hf w Hi Hg Hfn) as (_ & Hw & _).
    split; [done|]. exact (handler_panic_runs h s g hf w k Hi Hcr Hmu Hg Hfn Hb).
  - intros g w Hcr Hg Hfn Hp.
    destruct (wf_stacks _ (inv_wf _ _ Hi) _ _ Hg) as (Hf & _).
    unfold frame_ok in Hf. rewrite Hfn in Hf. simpl in Hf.
    destruct Hf as [_ Hb]. destruct (Hb Hp) as [_ Hbody].
    split; intros Hd.
    + unfold step. rewrite Hcr, Hg. simpl. rewrite Hbody, Hd. simpl.
      by rewrite app_nil_r.
    + assert (done_point [w] = true) as Hdp by (simpl; by rewrite Hfn, Hbody, Hd).
      destruct (inv_done _ _ Hi _ _ Hg Hdp) as [Hc Hcl].
      split_and?; try done.
      unfold step. rewrite Hcr, Hg. simpl. rewrite Hbody, Hd. simpl.
      unfold exec_pop. rewrite Hp. simpl. by rewrite app_nil_r.
  - intros g st s' Hg Hh (_ & st1 & o & Hg1 & Hex & ->)%step_inv Hcrash.
    simpl in *. rewrite Hg in Hg1. injection Hg1 as <-.
    destruct (exec_ok g (task s) st o (wf_stacks _ (inv_wf _ _ Hi) _ _ Hg)
                (proj1 (wf_lock _ (inv_wf _ _ Hi) _ _ Hg)) Hex)
      as (_ & _ & _ & Hcr).
    destruct (Hcr Hcrash) as (f & -> & Hp & Hb & Hd).
    assert (done_point [f] = true) as Hdp.
    { unfold has_gofunc, is_gofunc in Hh. simpl in Hh.
      destruct (fn f) eqn:Hfn; try done. simpl. by rewrite Hfn, Hb, Hd. }
    destruct (inv_done _ _ Hi _ _ Hg Hdp) as [Hc Hcl].
    destruct (exec_mono g (task s) [f] o Hex) as (Hmc & Hmcl & _). eauto.
  - intros g g' st' s' (_ & st1 & o & Hg1 & Hex & ->)%step_inv Hne Hg'.
    simpl. rewrite lookup_app_l
      by (rewrite length_insert; by eapply lookup_lt_Some).
    by rewrite list_lookup_insert_ne.
  - intros g' v s' Hb Hu.
    destruct (blocked_Cancel_waits h s g' v s' Hi Hb Hu)
      as (_ & _ & Hc & Hcl & Hw).
    split_and?; try done. intros g c w Hg _ Hn _ _. by apply Hw.
Qed.

(** The handler is about to panic (mutex free), and the handler has panicked
    and the deferred [Cancel] has returned. *)
Definition panicking_state : state :=
  from_run (replicate 9 0 ++ replicate 2 1) panic_handler panic_main.
Definition panicking_frame : frame :=
  Frame Mhandler [SPanic] [] RVoid RVoid false.
Definition panicking_caller : frame :=
  Frame MgoFunc [] [DCall MCancel] RVoid RVoid false.
Definition panicked_state : state :=
  from_run (replicate 9 0 ++ replicate 16 1) panic_handler panic_main.
Definition panicked_frame : frame :=
  Frame MgoFunc [] [] (RBool true) RVoid true.

(** The handler starts a goroutine that sends twice and panics; nobody
    receives.  The second send waits for the slot with the mutex, the
    deferred [Cancel] of the unwinding func literal waits for the mutex. *)
Definition stuck_handler : option (list ucmd) :=
  Some [UGo [USend (VInt 1); USend (VInt 2)]; UPanic].
Definition stuck_state : state :=
  from_run (replicate 9 0 ++ replicate 3 1 ++ replicate 13 2 ++ replicate 3 1)
    stuck_handler [UStart].
Definition stuck_Cancel : frame := new_frame (GoRace stuck_handler) MCancel.
Definition stuck_caller : frame := Frame MgoFunc [] [] RVoid RVoid true.

Lemma handler_panic_is_not_recovered_witness :
  (reachable panic_handler panic_main panicking_state ∧
   crashed panicking_state = false ∧ mu (task panicking_state) = None ∧
   pool panicking_state !! 1 = Some [panicking_frame; panicking_caller] ∧
   canceled (task panicking_state) = false ∧
   run (replicate 15 1) panicking_state =
     Some (State (set_send (close_chan (send (task panicking_state)))
                    (set_canceled (task panicking_state)))
             (<[1 := []]> (pool panicking_state))
             (EvCrash 1 :: EvRet 1 MCancel (RBool true) ::
              EvRet 1 Mcancel (RBool true) :: EvClose 1 :: EvCall 1 Mcancel ::
              EvCall 1 MCancel :: EvPanic 1 PUser :: log panicking_state) true)) ∧
  (reachable panic_handler panic_main panicked_state ∧
   crashed panicked_state = false ∧
   pool panicked_state !! 1 = Some [panicked_frame] ∧
   canceled (task panicked_state) = true ∧
   closed (send (task panicked_state)) = true ∧
   step 1 panicked_state =
     Some (State (task panicked_state) (<[1 := []]> (pool panicked_state))
             (EvCrash 1 :: log panicked_state) true)) ∧
  (reachable stuck_handler [UStart] stuck_state ∧
   send_blocked stuck_state 2 (VInt 2) ∧
   pool stuck_state !! 1 = Some [stuck_Cancel; stuck_caller] ∧
   crashed stuck_state = false ∧
   canceled (task stuck_state) = false ∧
   closed (send (task stuck_state)) = false ∧
   step 1 stuck_state = None).
Proof.
  split; [|split].
  - split; [apply from_run_reachable|].
    assert (crashed panicking_state = false) as H1 by (vm_compute; reflexivity).
    assert (mu (task panicking_state) = None) as H2 by (vm_compute; reflexivity).
    assert (pool panicking_state !! 1 = Some [panicking_frame; panicking_caller])
      as H3 by (vm_compute; reflexivity).
    assert (canceled (task panicking_state) = false) as H4
      by (vm_compute; reflexivity).
    do 4 (split; [assumption|]).
    destruct (handler_panic_is_not_recovered panic_handler panic_main
                panicking_state (from_run_reachable _ _ _)) as (Hrun & _).
    destruct (Hrun 1 panicking_frame panicking_caller [] H1 H2 H3 eq_refl eq_refl)
      as (_ & Hfirst & _).
    exact (Hfirst H4).
  - split; [apply from_run_reachable|].
    assert (crashed panicked_state = false) as H1 by (vm_compute; reflexivity).
    assert (pool panicked_state !! 1 = Some [panicked_frame]) as H2
      by (vm_compute; reflexivity).
    do 2 (split; [assumption|]).
    destruct (handler_panic_is_not_recovered panic_handler panic_main
                panicked_state (from_run_reachable _ _ _)) as (_ & Hw & _).
    destruct (Hw 1 panicked_frame H1 H2 eq_refl eq_refl) as [_ Hend].
    exact (Hend eq_refl).
  - split; [apply from_run_reachable|].
    assert (send_blocked stuck_state 2 (VInt 2)) as Hb.
    { exists (default [] (pool stuck_state !! 2)).
      split; [vm_compute; reflexivity|]. split; [vm_compute; reflexivity|].
      vm_compute. lia. }
    assert (pool stuck_state !! 1 = Some [stuck_Cancel; stuck_caller]) as H1
      by (vm_compute; reflexivity).
    assert (crashed stuck_state = false) as H2 by (vm_compute; reflexivity).
    do 3 (split; [assumption|]).
    destruct (handler_panic_is_not_recovered stuck_handler [UStart] stuck_state
                (from_run_reachable _ _ _)) as (_ & _ & _ & _ & Hstuck).
    destruct (Hstuck 2 (VInt 2) stuck_state Hb (undrained_refl _))
      as (Hc & Hcl & Hw).
    destruct (Hw 1 stuck_Cancel stuck_caller H1 eq_refl eq_refl eq_refl eq_refl)
      as [_ Hno].
    exact (conj Hc (conj Hcl Hno)).
Defined.

(** The scenario of C6: [Cancel()], then [Start], then a receive and
    [LastResult()]. *)
Definition cancel_first_main : list ucmd :=
  [UCancel; UStart; UReceive; ULastResult].

Definition cancel_first_final (h : option (list ucmd)) : state :=
  State (GC h (Chan [] 1 true) true false VNil None) [[]]
    [EvRet 0 (MUser cancel_first_main) RVoid;
     EvRet 0 MLastResult (RVal VNil); EvCall 0 MLastResult;
     EvRecv 0 None; EvRet 0 MReceive RChan; EvCall 0 MReceive;
     EvRet 0 MStart RSelf; EvCall 0 MStart;
     EvRet 0 MCancel (RBool true); EvRet 0 Mcancel (RBool true); EvClose 0;
     EvCall 0 Mcancel; EvCall 0 MCancel]
    false.

(** C6. Whatever the handler, the client that calls [Cancel()] before
    [Start] runs to its end in thirty steps: [Cancel] returns true, [Start]
    returns the task without setting [started] and without launching
    anything, the receive finds the channel closed, and [LastResult()]
    returns nil.  No goroutine has been started and the handler has not
    been called; in the final state no goroutine can step, so it never
    is. *)
Theorem Cancel_before_Start_never_runs_handler (h : option (list ucmd)) :
  run (replicate 30 0) (init h cancel_first_main) = Some (cancel_first_final h) ∧
  launches (log (cancel_first_final h)) = 0 ∧
  runs (log (cancel_first_final h)) = 0 ∧
  length (pool (cancel_first_final h)) = 1 ∧
  started (task (cancel_first_final h)) = false ∧
  closed (send (task (cancel_first_final h))) = true ∧
  lastResult (task (cancel_first_final h)) = VNil ∧
  (∀ g, step g (cancel_first_final h) = None) ∧
  (∀ sch s', run sch (cancel_first_final h) = Some s' → s' = cancel_first_final h).
Proof.
  split_and?; try (vm_compute; reflexivity).
  - by intros [|[|g]].
  - intros [|g sch] s'; simpl; [by intros [= <-]|].
    by destruct g as [|[|g]].
Qed.
(** * Further properties

    What the package guarantees beyond the claims above: the discipline of
    the mutex, the absence of panics of its own, what a call has done when
    it returns, and what travels through the channel. *)

(** ** Accesses to the shared fields *)

(** Statements that read or write [gc.canceled], [gc.started] or
    [gc.lastResult], or that close or write the channel. *)
Definition touches_shared (i : stmt) : bool :=
  match i with
  | SIf _ _ _                 (* reads canceled (and started) *)
  | SSetCanceled | SClose | SSetStarted | SSetLastResult _ | SChanSend _
  | SReturn ECanceled | SReturn ELastResult => true
  | _ => false
  end.

Lemma touches_held st i :
  stack_ok st → next_stmt st = Some i → touches_shared i = true →
  top_held st = true.
Proof.
  destruct st as [|[m b d a r p] rest]; [done|].
  intros (Hf & Hu & _). unfold frame_ok in Hf. cbn in Hf.
  destruct m; cbn in Hf, Hu; break_frame_ok; simplify_eq; cbn;
    try (by intros; simplify_eq).
  all: try match goal with |- context [user ?c] =>
         destruct c as [|[] ?]; rewrite ?user_nil, ?user_cons; cbn;
         by intros; simplify_eq end.
Qed.

(** A stack whose top frame is inside a critical section waits neither for
    the mutex nor for a value. *)
Lemma held_not_waiting st :
  stack_ok st → top_held st = true →
  st ≠ [] ∧ next_stmt st ≠ Some SLock ∧ next_stmt st ≠ Some SRecv.
Proof.
  destruct st as [|[m b d a r p] rest]; [done|].
  intros (Hf & Hu & _). unfold frame_ok in Hf. cbn in Hf.
  destruct m; cbn in Hf, Hu; break_frame_ok; simplify_eq; cbn; try done.
  all: unfold held_frame; cbn; rewrite ?starts_user; try done.
  all: try match goal with |- context [user ?c] =>
         destruct c as [|[] ?]; rewrite ?user_nil, ?user_cons; cbn; done end.
Qed.

(** Why a goroutine cannot step. *)
Lemma exec_None g t st :
  exec g t st = None →
  st = [] ∨
  (next_stmt st = Some SLock ∧ mu t ≠ None) ∨
  (∃ v, next_stmt st = Some (SChanSend v) ∧ closed (send t) = false ∧
        cap (send t) ≤ length (buf (send t))) ∨
  (next_stmt st = Some SRecv ∧ buf (send t) = [] ∧ closed (send t) = false).
Proof.
  intros Hex. destruct st as [|[m b d a r p] rest]; [by left|]. right.
  destruct b as [|[] b]; [destruct d as [|[] d]|..]; cbn in Hex; cbn;
    try discriminate Hex.
  - destruct (mu t) eqn:Hmu; [|done]. left. done.
  - by destruct (closed (send t)).
  - destruct (closed (send t)) eqn:Hcl; [done|].
    match type of Hex with context [if ?b then _ else _] =>
      destruct b eqn:Hlt; [done|] end.
    right; left. eexists. split; [done|]. split; [done|].
    by apply (Nat.ltb_ge (length (buf (send t))) (cap (send t))).
  - destruct (buf (send t)) eqn:Hb; [|done].
    destruct (closed (send t)) eqn:Hcl; [done|]. right; right. done.
Qed.

Lemma closed_canceled h s :
  inv h s → closed (send (task s)) = true → canceled (task s) = true.
Proof.
  intros Hi Hcl. destruct (mu (task s)) as [g|] eqn:Hmu.
  - pose proof (wf_owner _ (inv_wf _ _ Hi) _ Hmu) as Hlt.
    apply lookup_lt_is_Some in Hlt as [st Hst].
    pose proof (proj2 (wf_lock _ (inv_wf _ _ Hi) _ _ Hst) Hmu) as Hth.
    pose proof (inv_held _ _ Hi _ _ Hst Hth) as Ha.
    destruct (point_of st); simpl in Ha; unfold quiescent in Ha;
      destruct_and?; congruence.
  - destruct (inv_free _ _ Hi Hmu) as [Hq _]. congruence.
Qed.

Lemma holder_steps h s g :
  inv h s → crashed s = false → mu (task s) = Some g →
  ∃ st, pool s !! g = Some st ∧
        (is_Some (step g s) ∨ ∃ v, send_blocked s g v).
Proof.
  intros Hi Hcr Hmu.
  pose proof (wf_owner _ (inv_wf _ _ Hi) _ Hmu) as Hlt.
  apply lookup_lt_is_Some in Hlt as [st Hst]. exists st. split; [done|].
  pose proof (proj2 (wf_lock _ (inv_wf _ _ Hi) _ _ Hst) Hmu) as Hth.
  destruct (held_not_waiting st (wf_stacks _ (inv_wf _ _ Hi) _ _ Hst) Hth)
    as (Hne & Hnl & Hnr).
  unfold step. rewrite Hcr, Hst.
  destruct (exec g (task s) st) as [o|] eqn:Hex; [left; by eexists|].
  right. apply exec_None in Hex as [?|[[? _]|[(v & Hn & Hcl & Hfull)|[? _]]]];
    try done.
  exists v, st. done.
Qed.

(** ** What goes through the channel *)

(** Values placed on the channel and values taken out of it, newest
    first. *)
Fixpoint sent (l : list event) : list value :=
  match l with
  | [] => []
  | EvChanSend _ v :: l => v :: sent l
  | _ :: l => sent l
  end.

Fixpoint received (l : list event) : list value :=
  match l with
  | [] => []
  | EvRecv _ (Some v) :: l => v :: received l
  | _ :: l => received l
  end.

Lemma sent_app l1 l2 : sent (l1 ++ l2) = sent l1 ++ sent l2.
Proof.
  induction l1 as [|e l1 IH]; simpl; [done|]. destruct e; simpl; by rewrite ?IH.
Qed.

Lemma received_app l1 l2 : received (l1 ++ l2) = received l1 ++ received l2.
Proof.
  induction l1 as [|e l1 IH]; simpl; [done|].
  destruct e as [| | | | | |? []| |]; simpl; by rewrite ?IH.
Qed.

Ltac exec_generic Hex :=
  match type of Hex with
  | exec _ _ ?st = Some _ =>
      destruct st as [|[?m ?b ?d ?a ?r ?p] ?rest]; [done|];
      match goal with
      | b : list stmt, d : list dcall |- _ =>
          destruct b as [|[] ?]; [destruct d as [|[] ?]|..]
      end;
      exec_cases Hex; cbn [o_stack o_spawn o_task o_crash o_events]
  end.

(** A step leaves the channel alone, or appends the value it sends, or
    takes the oldest value out. *)
Lemma exec_channel g t st o :
  exec g t st = Some o →
  (sent (o_events o) = [] ∧ received (o_events o) = [] ∧
   buf (send (o_task o)) = buf (send t)) ∨
  (∃ v, next_stmt st = Some (SChanSend v) ∧
        sent (o_events o) = [v] ∧ received (o_events o) = [] ∧
        buf (send (o_task o)) = buf (send t) ++ [v]) ∨
  (∃ v, next_stmt st = Some SRecv ∧
        sent (o_events o) = [] ∧ received (o_events o) = [v] ∧
        buf (send t) = v :: buf (send (o_task o))).
Proof.
  intros Hex. exec_generic Hex.
  all: fields t; simplify_eq.
  all: try (by left).
  all: try (right; left; by eexists).
  all: try (right; right; by eexists).
Qed.

Lemma fifo_reachable h main s :
  reachable h main s →
  rev (sent (log s)) = rev (received (log s)) ++ buf (send (task s)).
Proof.
  induction 1 as [|s g s' Hr IH Hstep]; [done|].
  apply step_inv in Hstep as (_ & st & o & Hg & Hex & ->). simpl.
  rewrite sent_app, received_app, !rev_app_distr, IH.
  destruct (exec_channel g (task s) st o Hex)
    as [(-> & -> & ->)|[(v & _ & -> & -> & ->)|(v & _ & -> & -> & ->)]]; simpl.
  - rewrite !(right_id_L [] (++)). done.
  - rewrite !(right_id_L [] (++)), <- (assoc_L (++)). done.
  - rewrite !(right_id_L [] (++)), <- (assoc_L (++)). done.
Qed.

(** A receive finds the channel closed and empty only if it is. *)
Lemma exec_recv_none g t st o g' :
  exec g t st = Some o → EvRecv g' None ∈ o_events o →
  closed (send t) = true ∧ buf (send t) = [] ∧ o_task o = t.
Proof.
  intros Hex. exec_generic Hex.
  all: try (by intros ?%elem_of_nil).
  all: intros Hin%list_elem_of_singleton; by simplify_eq.
Qed.

Lemma drained_reachable h main s g :
  reachable h main s → EvRecv g None ∈ log s →
  closed (send (task s)) = true ∧ buf (send (task s)) = [].
Proof.
  induction 1 as [|s g0 s' Hr IH Hstep]; [by intros ?%elem_of_nil|].
  pose proof (inv_reachable _ _ _ Hr) as Hi. pose proof Hstep as Hstep'.
  apply step_inv in Hstep as (_ & st & o & Hg & Hex & ->). simpl.
  intros [Hin|Hin]%elem_of_app.
  - by destruct (exec_recv_none _ _ _ _ _ Hex Hin) as (? & ? & ->).
  - destruct (IH Hin) as [Hcl Hb].
    destruct (cancelled_step h s g0 _ Hi (closed_canceled h s Hi Hcl) Hstep')
      as (_ & _ & _ & _ & Hsub). simpl in Hsub.
    split; [by apply (exec_mono g0 (task s) st o Hex)|].
    destruct (buf (send (o_task o))) as [|v b]; [done|].
    specialize (Hsub v). rewrite Hb in Hsub.
    exfalso. eapply elem_of_nil, Hsub. by left.
Qed.

(** [started] is only written by [gc.started = true], the handler
    goroutine only started by the [go] statement of [Start]. *)
Lemma exec_start_points g t st o :
  exec g t st = Some o →
  (point_of st ≠ PSetStarted → started (o_task o) = started t) ∧
  (point_of st ≠ PLaunch → launches (o_events o) = 0).
Proof.
  intros Hex. exec_generic Hex.
  all: fields t; simplify_eq.
  all: split; intros Hp; try done.
  destruct m0; try done.
Qed.

Lemma cancelled_no_launch h s g s' :
  inv h s → canceled (task s) = true → step g s = Some s' →
  started (task s') = started (task s) ∧ launches (log s') = launches (log s).
Proof.
  intros Hi Hc (_ & st & o & Hg & Hex & ->)%step_inv. simpl.
  destruct (exec_start_points g (task s) st o Hex) as [Hs Hl].
  unfold launches in *. rewrite count_app. split.
  - apply Hs. intros Hp.
    destruct (inv_point h s g st Hi Hg) as [_ Ha]; [by rewrite Hp|].
    rewrite Hp in Ha. simpl in Ha. destruct_and?; congruence.
  - rewrite Hl; [done|]. intros Hp.
    destruct (inv_point h s g st Hi Hg) as [_ Ha]; [by rewrite Hp|].
    rewrite Hp in Ha. simpl in Ha. destruct_and?; congruence.
Qed.

Lemma cancelled_no_launch_run h sch s s' :
  inv h s → canceled (task s) = true → run sch s = Some s' →
  started (task s') = started (task s) ∧ launches (log s') = launches (log s).
Proof.
  revert s. induction sch as [|g sch IH]; simpl; intros s Hi Hc Hr.
  - by simplify_eq.
  - destruct (step g s) as [s1|] eqn:Hs; [|done].
    destruct (cancelled_no_launch h s g s1 Hi Hc Hs) as [H1 H2].
    destruct (cancelled_step h s g s1 Hi Hc Hs) as (Hc1 & _).
    destruct (IH s1 (inv_step _ _ _ _ Hi Hs) Hc1 Hr) as [H3 H4].
    split; congruence.
Qed.

(** ** More calls run alone *)

Lemma Receive_value g t f rest k w b :
  body f = SCall MReceive :: SRecv :: k → buf (send t) = w :: b →
  execs 4 g t (f :: rest) =
    Some (Outcome (set_send (Chan b (cap (send t)) (closed (send t))) t)
            (set_acc (RVal w) (set_body k f) :: rest) []
            [EvRecv g (Some w); EvRet g MReceive RChan; EvCall g MReceive] false).
Proof. intros. solo. Qed.

Lemma Receive_closed g t f rest k :
  body f = SCall MReceive :: SRecv :: k →
  buf (send t) = [] → closed (send t) = true →
  execs 4 g t (f :: rest) =
    Some (Outcome t (set_acc (RVal VNil) (set_body k f) :: rest) []
            [EvRecv g None; EvRet g MReceive RChan; EvCall g MReceive] false).
Proof. intros. solo. Qed.

Lemma Send_Receive_LastResult g t f rest k v :
  body f = SCall (MSend v) :: SCall MReceive :: SRecv :: SCall MLastResult :: k →
  mu t = None → canceled t = false → send t = Chan [] 1 false →
  execs 18 g t (f :: rest) =
    Some (Outcome (set_lastResult v t) (set_acc (RVal v) (set_body k f) :: rest) []
            [EvRet g MLastResult (RVal v); EvCall g MLastResult;
             EvRecv g (Some v); EvRet g MReceive RChan; EvCall g MReceive;
             EvRet g (MSend v) RVoid; EvChanSend g v; EvAssign g v;
             EvCall g (MSend v)] false).
Proof. intros. solo. Qed.

(** The goroutine started by [go gc.Start(ctx)]. *)
Lemma Start_goroutine_first g t t0 :
  mu t = None → canceled t = false → started t = false →
  execs 8 g t [new_frame t0 MStart] =
    Some (Outcome (set_started t) [] [[new_frame t MgoFunc]]
            [EvRet g MStart RSelf; EvGo g MgoFunc] false).
Proof. intros. destruct t as [h [bf cp cl] cn sd lr m]. simpl in *. by simplify_eq. Qed.

Lemma Start_goroutine_again g t t0 :
  mu t = None → canceled t || started t = true →
  execs 6 g t [new_frame t0 MStart] =
    Some (Outcome t [] [] [EvRet g MStart RSelf] false).
Proof.
  intros. destruct t as [h [bf cp cl] cn sd lr m]. simpl in *. simplify_eq.
  by destruct cn, sd.
Qed.

(** ** Panics *)

Definition is_user_panic (e : event) : bool :=
  match e with EvPanic _ PUser => true | _ => false end.

(** Some frame of the stack is unwinding. *)
Definition any_panicking (st : list frame) : bool := existsb panicking st.

Lemma count_pos p l : 1 ≤ count p l → ∃ e, e ∈ l ∧ p e = true.
Proof.
  induction l as [|e l IH]; simpl; [lia|].
  destruct (p e) eqn:He.
  - intros _. exists e. split; [by left|done].
  - intros [e' [Hin He']]%IH. exists e'. split; [by right|done].
Qed.

Lemma count_zero p l e : count p l = 0 → e ∈ l → p e = false.
Proof.
  induction l as [|e' l IH]; simpl; [by intros _ ?%elem_of_nil|].
  intros Hc [->|Hin]%elem_of_cons.
  - destruct (p e'); [done|done].
  - apply IH; [|done]. destruct (p e'); simpl in Hc; lia.
Qed.

(** A frame starts to unwind only where a panic is raised. *)
Lemma exec_panicking g t st o :
  exec g t st = Some o →
  (any_panicking (o_stack o) = true →
   any_panicking st = true ∨ ∃ why, o_events o = [EvPanic g why]) ∧
  (∀ st', st' ∈ o_spawn o → any_panicking st' = false).
Proof.
  intros Hex. exec_generic Hex.
  all: split; [|try (by intros ? ?%elem_of_nil);
                 intros ? ->%list_elem_of_singleton; reflexivity].
  all: unfold any_panicking; cbn.
  all: try (intros ?; left; assumption).
  all: try (intros _; right; eexists; reflexivity).
  all: try (intros ?; left; by rewrite ?orb_true_r).
  all: try done.
Qed.

Lemma panic_reachable h main s :
  reachable h main s →
  crashed s = true ∨ (∃ g st, pool s !! g = Some st ∧ any_panicking st = true) →
  1 ≤ count is_user_panic (log s).
Proof.
  induction 1 as [|s g s' Hr IH Hstep].
  { intros [?|(g & st & Hg & Hp)]; [done|].
    destruct g; simplify_eq/=. }
  pose proof (inv_reachable _ _ _ Hr) as Hi.
  pose proof (inv_nopanic _ _ (inv_step _ _ _ _ Hi Hstep)) as Hnp.
  apply step_inv in Hstep as (Hcr & st & o & Hg & Hex & ->). simpl in *.
  rewrite count_app in *.
  destruct (decide (1 ≤ count is_user_panic (log s))) as [?|Hz]; [lia|].
  assert (∀ g st, pool s !! g = Some st → any_panicking st = false) as Hnone.
  { intros g1 st1 Hg1. destruct (any_panicking st1) eqn:Hp; [|done].
    exfalso. apply Hz, IH. right. eauto. }
  pose proof (lookup_lt_Some _ _ _ Hg) as Hlt.
  destruct (exec_ok g (task s) st o (wf_stacks _ (inv_wf _ _ Hi) _ _ Hg)
              (proj1 (wf_lock _ (inv_wf _ _ Hi) _ _ Hg)) Hex)
    as (_ & _ & _ & Hcrash).
  destruct (exec_panicking g (task s) st o Hex) as [Hpan Hsp].
  assert (any_panicking (o_stack o) = true → 1 ≤ count is_user_panic (o_events o))
    as Hnew.
  { intros [Hp|[why Hev]]%Hpan; [by rewrite (Hnone _ _ Hg) in Hp|].
    rewrite Hev in *. destruct why; simpl in *; lia. }
  intros [Hc|(g1 & st1 & Hg1 & Hp1)].
  - destruct (Hcrash Hc) as (f & -> & Hp & _).
    specialize (Hnone _ _ Hg). simpl in Hnone. by rewrite Hp in Hnone.
  - apply pool_lookup in Hg1 as [[-> ->]|[[Hne Hg1]|[Hge Hin]]]; [| | |done].
    + specialize (Hnew Hp1). lia.
    + by rewrite (Hnone _ _ Hg1) in Hp1.
    + by rewrite (Hsp _ Hin) in Hp1.
Qed.











(** The process terminates only where a step says so. *)
Lemma exec_crash_event g t st o g' :
  exec g t st = Some o → EvCrash g' ∈ o_events o → o_crash o = true.
Proof.
  intros Hex. exec_generic Hex.
  all: try (by intros ?%elem_of_nil).
  all: try done.
  all: intros Hin%list_elem_of_singleton; by simplify_eq.
Qed.

Lemma crash_event_reachable h main s g :
  reachable h main s → EvCrash g ∈ log s → crashed s = true.
Proof.
  induction 1 as [|s g0 s' Hr IH Hstep]; [by intros ?%elem_of_nil|].
  apply step_inv in Hstep as (Hcr & st & o & Hg & Hex & ->). simpl.
  intros [Hin|Hin]%elem_of_app; [by eapply exec_crash_event|].
  rewrite (IH Hin) in Hcr. done.
Qed.

(** ** The last result and the channel *)

(** The value a goroutine has assigned to [lastResult] and is about to
    write to the channel. *)
Definition pending (st : list frame) : list value :=
  match next_stmt st with
  | Some (SChanSend v) => [v]
  | _ => []
  end.

Lemma free_pending st : stack_ok st → top_held st = false → pending st = [].
Proof.
  intros Hok Hth. unfold pending.
  destruct (next_stmt st) as [[]|] eqn:Hn; try done.
  pose proof (point_next _ _ Hn) as Hp.
  rewrite critical_held in Hth; [done|done|by rewrite Hp].
Qed.

Ltac caller_body :=
  repeat match goal with
  | Hfn : fn ?f = _, Hf : frame_ok ?f |- context [body ?f] =>
      unfold frame_ok in Hf; rewrite Hfn in Hf; cbn in Hf;
      let Hb := fresh "Hb" in
      destruct Hf as [? [? [Hb|Hb]]]; rewrite Hb
  end.

(** Between the assignment and the write of a [Send] the value is pending;
    everywhere else assignments and writes go together. *)
Lemma exec_sync g t st o :
  stack_ok st → exec g t st = Some o →
  (∀ v, next_stmt st = Some (SChanSend v) → closed (send t) = false) →
  assigned (o_events o) ++ pending st = pending (o_stack o) ++ sent (o_events o).
Proof.
  intros Hok Hex.
  exec_inv Hok Hex.
  all: cbn [stack_ok] in Hrest; destruct_and?.
  all: callers.
  all: unfold pending; cbn; frame_eqs; cbn.
  all: try done.
  all: try match goal with |- context [user ?c] => by destruct c as [|[] ?] end.
  all: try (intros Hcl; by specialize (Hcl _ eq_refl)).
  all: try match goal with |- context [handler ?t] =>
         destruct (handler t) as [[|[] ?]|]; done end.
  all: caller_body.
  all: cbn; try done.
  all: try match goal with |- context [user ?c] => by destruct c as [|[] ?] end.
Qed.

Definition holder_pending (s : state) : list value :=
  match mu (task s) with
  | Some g => pending (default [] (pool s !! g))
  | None => []
  end.

Lemma sync_reachable h main s :
  reachable h main s →
  assigned (log s) = holder_pending s ++ sent (log s).
Proof.
  induction 1 as [|s g s' Hr IH Hstep]; [done|].
  pose proof (inv_reachable _ _ _ Hr) as Hi.
  apply step_inv in Hstep as (_ & st & o & Hg & Hex & ->).
  pose proof (lookup_lt_Some _ _ _ Hg) as Hlt.
  destruct (inv_wf _ _ Hi) as [Hst Hlk Hown].
  destruct (exec_ok g (task s) st o (Hst _ _ Hg) (proj1 (Hlk _ _ Hg)) Hex)
    as (Hok & _ & Hmv & _).
  assert (assigned (o_events o) ++ pending st =
          pending (o_stack o) ++ sent (o_events o)) as Hsync.
  { apply (exec_sync g (task s)); [exact (Hst _ _ Hg)|done|].
    intros v Hn. pose proof (point_next _ _ Hn) as Hp.
    destruct (inv_point h s g st Hi Hg) as [_ Ha]; [by rewrite Hp|].
    rewrite Hp in Ha. simpl in Ha. by destruct_and?. }
  assert (∀ g1, g1 ≠ g → g1 < length (pool s) →
            (<[g:=o_stack o]> (pool s) ++ o_spawn o) !! g1 = pool s !! g1) as Hother.
  { intros g1 Hne Hlt1. rewrite lookup_app_l by (by rewrite length_insert).
    by rewrite list_lookup_insert_ne. }
  assert ((<[g:=o_stack o]> (pool s) ++ o_spawn o) !! g = Some (o_stack o)) as Hself.
  { rewrite lookup_app_l by (by rewrite length_insert).
    by rewrite list_lookup_insert_eq. }
  unfold holder_pending in *. simpl.
  rewrite assigned_app, sent_app, IH.
  destruct Hmv as [Hmu Hh|Hmu Hmu' Hh Hh'|Hh Hmu' Hh'].
  - rewrite Hmu. destruct (mu (task s)) as [g1|] eqn:Hmu1.
    + destruct (decide (g1 = g)) as [->|Hne].
      * rewrite Hself, Hg. simpl.
        by rewrite (assoc_L (++)), Hsync, <- (assoc_L (++)).
      * rewrite Hother by eauto.
        assert (top_held st = false) as Hth.
        { destruct (top_held st) eqn:Hth; [|done].
          apply (Hlk _ _ Hg) in Hth. congruence. }
        rewrite (free_pending st) in Hsync by eauto.
        rewrite (free_pending (o_stack o)) in Hsync by (by rewrite ?Hh).
        rewrite app_nil_r in Hsync. simpl in Hsync.
        destruct (exec_free g (task s) st o (Hst _ _ Hg) Hex Hth)
          as (_ & _ & _ & _ & _ & Has & _).
        rewrite Has in Hsync. by rewrite Has, <- Hsync.
    + assert (top_held st = false) as Hth.
      { destruct (top_held st) eqn:Hth; [|done].
        apply (Hlk _ _ Hg) in Hth. congruence. }
      rewrite (free_pending st) in Hsync by eauto.
      rewrite (free_pending (o_stack o)) in Hsync by (by rewrite ?Hh).
      rewrite app_nil_r in Hsync. simpl in *. by rewrite Hsync.
  - rewrite Hmu, Hmu', Hself. simpl.
    rewrite (free_pending st) in Hsync by eauto.
    rewrite app_nil_r in Hsync. by rewrite Hsync, <- (assoc_L (++)).
  - rewrite Hmu'. apply (Hlk _ _ Hg) in Hh. rewrite Hh, Hg. simpl.
    rewrite (free_pending (o_stack o)) in Hsync by eauto. simpl in Hsync.
    by rewrite (assoc_L (++)), Hsync.
Qed.

Lemma last_is_sent h main s :
  reachable h main s → holder_pending s = [] →
  lastResult (task s) = default VNil (head (sent (log s))).
Proof.
  intros Hr Hp. rewrite (inv_last _ _ (inv_reachable _ _ _ Hr)).
  by rewrite (sync_reachable _ _ _ Hr), Hp.
Qed.

(** ** What a call has done when it returns *)

Definition ret_post (g : nat) (t : goCancelable) (l : list event)
    (m : method) (r : result) : Prop :=
  match m with
  | MCancel | Mcancel => ∃ b, r = RBool b
  | MIsCanceled =>
      ∃ b, r = RBool b ∧ (b = true → canceled t = true ∧ closed (send t) = true)
  | MLastResult => ∃ v, r = RVal v ∧ (v = VNil ∨ v ∈ sent l)
  | MSend v => canceled t = true ∨ EvChanSend g v ∈ l
  | MStart => r = RSelf ∧ (canceled t = true ∨ launches l = 1)
  | MStartBackground => r = RSelf ∧ EvGo g MStart ∈ l
  | MReceive => r = RChan
  | MgoFunc | Mhandler | MUser _ => True
  end.

(** The same for a call that has not returned yet, at the program points
    behind its last access to the task. *)
Definition frame_post (g : nat) (t : goCancelable) (l : list event)
    (st : list frame) : Prop :=
  match st with
  | f :: _ =>
      panicking f = false →
      match fn f, body f with
      | MCancel, [SReturn EAcc] => ∃ b, acc f = RBool b
      | MStart, [SReturn ESelf] => canceled t = true ∨ launches l = 1
      | MStartBackground, [SReturn ESelf] => EvGo g MStart ∈ l
      | m, [] => ret_post g t l m (ret f)
      | _, _ => True
      end
  | [] => True
  end.

Lemma ret_post_mono g t l t' l' m r :
  (canceled t = true → canceled t' = true) →
  (closed (send t) = true → closed (send t') = true) →
  (launches l = 1 → launches l' = 1) →
  (∀ e, e ∈ l → e ∈ l') → (∀ v, v ∈ sent l → v ∈ sent l') →
  ret_post g t l m r → ret_post g t' l' m r.
Proof.
  intros H1 H2 H3 H4 H5. destruct m; simpl; try done.
  - intros (b & -> & Hb). exists b. split; [done|]. intros ?.
    destruct Hb; eauto.
  - intros [?|?]; eauto.
  - intros [-> [?|?]]; eauto.
  - intros [-> ?]; eauto.
  - intros (v & -> & [?|?]); eauto.
Qed.

Lemma frame_post_mono g t l t' l' st :
  (canceled t = true → canceled t' = true) →
  (closed (send t) = true → closed (send t') = true) →
  (launches l = 1 → launches l' = 1) →
  (∀ e, e ∈ l → e ∈ l') → (∀ v, v ∈ sent l → v ∈ sent l') →
  frame_post g t l st → frame_post g t' l' st.
Proof.
  intros H1 H2 H3 H4 H5. destruct st as [|f rest]; [done|].
  unfold frame_post. intros Hp Hpan. specialize (Hp Hpan).
  assert (ret_post g t l (fn f) (ret f) → ret_post g t' l' (fn f) (ret f))
    as Hm by (by apply ret_post_mono).
  destruct (fn f), (body f) as [|[] [|]]; eauto.
  all: try match goal with e : rexp |- _ => destruct e end; eauto.
  all: destruct Hp; eauto.
Qed.

Lemma frame_post_new g t l t0 m : frame_post g t l [new_frame t0 m].
Proof.
  unfold frame_post. intros _. destruct m; cbn; try done.
  - by destruct (handler t0) as [[|[] ?]|].
  - by destruct code as [|[] ?].
Qed.

Lemma exec_post g t l st o :
  stack_ok st → exec g t st = Some o →
  (top_held st = true → held_assert t l (point_of st)) →
  (next_stmt st = Some (SReturn ELastResult) →
   lastResult t = default VNil (head (sent l))) →
  frame_post g t l st →
  frame_post g (o_task o) (o_events o ++ l) (o_stack o).
Proof.
  intros Hok Hex.
  exec_inv Hok Hex.
  all: cbn [stack_ok] in Hrest; destruct_and?.
  all: callers.
  all: unfold frame_post, top_held, held_frame; cbn; frame_eqs; cbn.
  all: rewrite ?starts_user.
  all: intros Hheld Hlast Hpost; try done.
  all: try (intros Hpan; cbn in * ).
  all: try match goal with |- match ?x with _ => _ end => by destruct x end.
  all: try specialize (Hpost eq_refl); try specialize (Hpost Hpan);
       try specialize (Hheld eq_refl); try specialize (Hlast eq_refl).
  all: unfold quiescent, launches in *; cbn in *.
  all: try (by eauto).
  all: try (by left).
  all: try (destruct_and?; split; [done|]; by eauto).
  all: try (destruct Hpost; [by left|right; by apply list_elem_of_further]).
  all: try (right; by left).
  all: try (fields t; destruct_and?; simplify_eq; eexists; split; [done|];
            intros; by simplify_eq).
  all: try (destruct_and?; right; lia).
  all: try (left; by destruct (canceled t)).
  all: try (destruct (canceled t), (started t); destruct_and?; simplify_eq/=;
            (by left) || (right; lia)).
  all: try (rewrite Hlast; eexists; split; [done|];
            destruct (sent l); [by left|right; by left]).
Qed.

(** A return is logged where a frame that has run its body and its
    deferred calls is popped. *)
Lemma exec_ret_event g t st o g' m r :
  exec g t st = Some o → EvRet g' m r ∈ o_events o →
  g' = g ∧ o_task o = t ∧
  ∃ f rest, st = f :: rest ∧ fn f = m ∧ ret f = r ∧ body f = [] ∧
            defers f = [] ∧ panicking f = false.
Proof.
  intros Hex. exec_generic Hex.
  all: try (by intros ?%elem_of_nil).
  all: intros Hin%list_elem_of_singleton; simplify_eq.
  all: split_and?; try done; by eexists _, _.
Qed.

Record post (s : state) : Prop := {
  post_frames : ∀ g st, pool s !! g = Some st →
    frame_post g (task s) (log s) st;
  post_rets : ∀ g m r, EvRet g m r ∈ log s → ret_post g (task s) (log s) m r;
  post_done : ∀ g m r, EvRet g m r ∈ log s → m = MCancel ∨ m = MgoFunc →
    canceled (task s) = true ∧ closed (send (task s)) = true
}.

Lemma post_reachable h main s : reachable h main s → post s.
Proof.
  induction 1 as [|s g s' Hr [IHf IHr IHd] Hstep].
  { split.
    - intros [|g] st Hg; simpl in Hg; simplify_eq.
      apply (frame_post_new 0 _ _ (GoRace h) (MUser main)).
    - by intros g m r ?%elem_of_nil.
    - by intros g m r ?%elem_of_nil. }
  pose proof (inv_reachable _ _ _ Hr) as Hi.
  pose proof (launches_le _ _ (inv_step _ _ _ _ Hi Hstep)) as Hle.
  apply step_inv in Hstep as (_ & st & o & Hg & Hex & ->). simpl in Hle.
  pose proof (lookup_lt_Some _ _ _ Hg) as Hlt.
  destruct (inv_wf _ _ Hi) as [Hst Hlk Hown].
  destruct (exec_mono g (task s) st o Hex) as (Hmc & Hmcl & _).
  assert (launches (log s) = 1 → launches (o_events o ++ log s) = 1) as Hml.
  { unfold launches in *. rewrite count_app in *. lia. }
  assert (∀ e, e ∈ log s → e ∈ o_events o ++ log s) as Hme.
  { intros e He. apply elem_of_app. by right. }
  assert (∀ v, v ∈ sent (log s) → v ∈ sent (o_events o ++ log s)) as Hms.
  { intros e He. rewrite sent_app. apply elem_of_app. by right. }
  split; simpl.
  - intros g' st' [[-> ->]|[[Hne Hg']|[Hge Hin]]]%pool_lookup; [| | |done].
    + apply (exec_post g (task s) (log s) st); eauto.
      * intros Hth. by eapply inv_held.
      * intros Hn. apply (last_is_sent h main); [done|].
        assert (mu (task s) = Some g) as Hmu.
        { apply (Hlk _ _ Hg). eapply touches_held; eauto. }
        unfold holder_pending, pending. by rewrite Hmu, Hg; simpl; rewrite Hn.
    + eapply frame_post_mono; eauto.
    + destruct (exec_spawn _ _ _ _ _ Hex Hin) as [m ->].
      apply frame_post_new.
  - intros g' m r [Hin|Hin]%elem_of_app.
    + destruct (exec_ret_event _ _ _ _ _ _ _ Hex Hin)
        as (-> & Ht & f & rest & -> & <- & <- & Hb & Hd & Hp).
      eapply ret_post_mono; [done..|].
      specialize (IHf _ _ Hg). unfold frame_post in IHf. specialize (IHf Hp).
      rewrite Hb in IHf. by destruct (fn f).
    + eapply ret_post_mono; eauto.
  - intros g' m r [Hin|Hin]%elem_of_app Hm.
    + destruct (exec_ret_event _ _ _ _ _ _ _ Hex Hin)
        as (-> & Ht & f & rest & -> & <- & <- & Hb & Hd & Hp).
      rewrite Ht. apply (inv_done _ _ Hi _ _ Hg). simpl.
      destruct Hm as [-> | ->]; by rewrite ?Hb, ?Hd.
    + destruct (IHd _ _ _ Hin Hm). eauto.
Qed.

(** ** Which [Cancel] returns true *)

Definition is_true_cancel (e : event) : bool :=
  match e with EvRet _ MCancel (RBool true) => true | _ => false end.

Definition is_true (r : result) : bool :=
  match r with RBool true => true | _ => false end.

(** The top frame is a [cancel] that has closed the channel, or the
    [Cancel] around it, on its way to return true. *)
Definition carries_true (st : list frame) : bool :=
  match st with
  | f :: _ =>
      negb (panicking f) &&
      match fn f, body f with
      | Mcancel, [SReturn (EBool true)] => true
      | Mcancel, [] | MCancel, [] => is_true (ret f)
      | MCancel, [SReturn EAcc] => is_true (acc f)
      | _, _ => false
      end
  | [] => false
  end.

Fixpoint carriers (p : list (list frame)) : nat :=
  match p with
  | [] => 0
  | st :: p => b2n (carries_true st) + carriers p
  end.

Lemma carriers_app p1 p2 : carriers (p1 ++ p2) = carriers p1 + carriers p2.
Proof. induction p1 as [|st p1 IH]; simpl; [done|]. rewrite IH. lia. Qed.

Lemma carriers_insert p g st st' :
  p !! g = Some st →
  carriers (<[g:=st']> p) + b2n (carries_true st) =
    carriers p + b2n (carries_true st').
Proof.
  revert g. induction p as [|st0 p IH]; intros [|g] Hg; simplify_eq/=; [lia|].
  specialize (IH _ Hg). lia.
Qed.

Lemma exec_carries g t st o :
  stack_ok st → exec g t st = Some o →
  (next_stmt st = Some SClose → closed (send t) = false) →
  b2n (carries_true (o_stack o)) + count is_true_cancel (o_events o) =
    b2n (carries_true st) + closes (o_events o) ∧
  carriers (o_spawn o) = 0.
Proof.
  intros Hok Hex.
  exec_inv Hok Hex.
  all: cbn [stack_ok] in Hrest; destruct_and?.
  all: callers.
  all: unfold carries_true, closes; cbn; frame_eqs; cbn.
  all: intros Hcl; try (by specialize (Hcl eq_refl)).
  all: rewrite ?andb_false_r; cbn.
  all: try done.
  all: try match goal with |- context [handler ?t] =>
         by destruct (handler t) as [[|[] ?]|] end.
  all: try match goal with |- context [user ?c] => by destruct c as [|[] ?] end.
  all: try match goal with |- context [is_true ?r] =>
         by destruct r as [|[]| | |] end.
  match goal with
  | Hf : frame_ok ?x, Hb : body ?x = _ :: _, Hfn : fn ?x = MCancel |- _ =>
      unfold frame_ok in Hf; rewrite Hfn, Hb in Hf; cbn in Hf;
      destruct Hf as [_ Hf]; destruct (panicking x);
      [by destruct (Hf eq_refl)|done]
  end.
Qed.

(** In every reachable state the [Cancel] calls that have returned true and
    those on their way to do so are as many as the closes of the channel. *)
Lemma carriers_reachable h main s :
  reachable h main s →
  count is_true_cancel (log s) + carriers (pool s) = closes (log s).
Proof.
  induction 1 as [|s g s' Hr IH Hstep].
  { simpl. unfold carries_true. simpl. by destruct (user main) as [|[] [|]]. }
  pose proof (inv_reachable _ _ _ Hr) as Hi.
  apply step_inv in Hstep as (_ & st & o & Hg & Hex & ->). simpl.
  destruct (exec_carries g (task s) st o (wf_stacks _ (inv_wf _ _ Hi) _ _ Hg) Hex)
    as [Heq Hsp].
  { intros Hn. pose proof (point_next _ _ Hn) as Hp.
    destruct (inv_point h s g st Hi Hg) as [_ Ha]; [by rewrite Hp|].
    rewrite Hp in Ha. simpl in Ha. by destruct_and?. }
  pose proof (carriers_insert (pool s) g st (o_stack o) Hg) as Hins.
  unfold closes in *. rewrite !count_app, carriers_app, Hsp. lia.
Qed.

(** ** The calls that only read *)

Definition is_reader (m : method) : bool :=
  match m with MIsCanceled | MLastResult | MReceive => true | _ => false end.

Lemma exec_reader g t f rest o :
  frame_ok f → is_reader (fn f) = true → exec g t (f :: rest) = Some o →
  handler (o_task o) = handler t ∧ send (o_task o) = send t ∧
  canceled (o_task o) = canceled t ∧ started (o_task o) = started t ∧
  lastResult (o_task o) = lastResult t ∧ o_spawn o = [] ∧ o_crash o = false ∨
  o_crash o = true ∧ mu t = None.
Proof.
  destruct f as [m b d a r p]. unfold frame_ok. cbn.
  destruct m; try done; cbn; intros [Hin Hp] _ Hex.
  all: break_frame_ok; revert Hex; simplify_eq; intros Hex.
  all: destruct p; [by destruct (Hp eq_refl)|].
  all: exec_cases Hex; cbn.
  all: try (left; by destruct t).
  all: try (right; done).
Qed.

Lemma Receive_twice_closed g t f rest k w :
  body f = SCall MReceive :: SRecv :: SCall MReceive :: SRecv :: k →
  buf (send t) = [w] → closed (send t) = true →
  execs 8 g t (f :: rest) =
    Some (Outcome (set_send (Chan [] (cap (send t)) true) t)
            (set_acc (RVal VNil) (set_body k f) :: rest) []
            [EvRecv g None; EvRet g MReceive RChan; EvCall g MReceive;
             EvRecv g (Some w); EvRet g MReceive RChan; EvCall g MReceive]
            false).
Proof. intros. solo. Qed.

(** The func literal of [Start] calls a nil handler. *)
Lemma nil_handler_call g t w :
  handler t = None → fn w = MgoFunc → body w = [SCall Mhandler] →
  execs 3 g t [w] =
    Some (Outcome t [set_panic (set_body [] w)] []
            [EvPanic g PUser; EvCall g Mhandler] false).
Proof.
  intros. destruct t as [h [bf cp cl] cn sd lr m].
  destruct w as [fm fb fd fa fr fp]. simpl in *. by simplify_eq.
Qed.

(** ** What a [Send] has done when it returns *)

(** The goroutine an event belongs to. *)
Definition ev_g (e : event) : nat :=
  match e with
  | EvAssign g _ | EvChanSend g _ | EvClose g | EvCall g _ | EvGo g _
  | EvRet g _ _ | EvRecv g _ | EvPanic g _ | EvCrash g => g
  end.

(** The events of goroutine [g], newest first. *)
Fixpoint own (g : nat) (l : list event) : list event :=
  match l with
  | [] => []
  | e :: l => if decide (ev_g e = g) then e :: own g l else own g l
  end.

Lemma exec_own_events g t st o e :
  exec g t st = Some o → e ∈ o_events o → ev_g e = g.
Proof.
  intros Hex. exec_generic Hex.
  all: try (by intros ?%elem_of_nil).
  all: intros ->%list_elem_of_singleton; reflexivity.
Qed.

Lemma own_app_other g l1 l2 :
  (∀ e, e ∈ l1 → ev_g e ≠ g) → own g (l1 ++ l2) = own g l2.
Proof.
  induction l1 as [|e l1 IH]; simpl; [done|]. intros H.
  destruct (decide (ev_g e = g)) as [He|_].
  - exfalso. eapply H; [by left|done].
  - apply IH. intros e' He'. apply H. by right.
Qed.

(** What the call [Send(v)] of goroutine [g] has done when it is through:
    the last things [g] did are the call, the assignment of [v] and the
    placement of [v]; or the call is the last thing it did and the task is
    cancelled. *)
Definition sent_or_cancelled (g : nat) (v : value) (t : goCancelable)
    (l : list event) : Prop :=
  take 3 (own g l) = [EvChanSend g v; EvAssign g v; EvCall g (MSend v)] ∨
  take 1 (own g l) = [EvCall g (MSend v)] ∧ canceled t = true.

Definition send_post (g : nat) (t : goCancelable) (l : list event)
    (st : list frame) : Prop :=
  match st with
  | f :: _ =>
      match fn f with
      | MSend v =>
          panicking f = false →
          match body f with
          | [] => sent_or_cancelled g v t l
          | SChanSend _ :: _ =>
              take 2 (own g l) = [EvAssign g v; EvCall g (MSend v)]
          | _ => take 1 (own g l) = [EvCall g (MSend v)]
          end
      | _ => True
      end
  | [] => True
  end.

Lemma exec_send_post g t l st o :
  stack_ok st → exec g t st = Some o →
  (top_held st = true → mu t = Some g) →
  send_post g t l st →
  send_post g (o_task o) (o_events o ++ l) (o_stack o) ∧
  (∀ st' g' t' l', st' ∈ o_spawn o → send_post g' t' l' st') ∧
  (∀ v r, EvRet g (MSend v) r ∈ o_events o → sent_or_cancelled g v t l).
Proof.
  intros Hok Hex.
  exec_inv Hok Hex.
  all: cbn [stack_ok] in Hrest; destruct_and?.
  all: callers.
  all: unfold send_post, top_held, held_frame, sent_or_cancelled; cbn;
       frame_eqs; cbn.
  all: rewrite ?starts_user.
  all: intros Hmu Hpost.
  all: try (by specialize (Hmu eq_refl)).
  all: split_and?.
  all: try (by intros ? ? ? ? ?%elem_of_nil).
  all: try (intros ? ? ? ? ->%list_elem_of_singleton; by cbn).
  all: try (by intros ? ? ?%elem_of_nil).
  all: try (intros ? ? ?%list_elem_of_singleton; simplify_eq; by eauto).
  all: try done.
  all: rewrite ?decide_True by done.
  all: try (intros; by eauto).
  all: intros _; specialize (Hpost eq_refl).
  - right. split; [done|by destruct (canceled t)].
  - cbn [take]. by rewrite Hpost.
  - left. cbn [take]. by rewrite Hpost.
Qed.

Lemma sent_or_cancelled_mono g v t t' l :
  (canceled t = true → canceled t' = true) →
  sent_or_cancelled g v t l → sent_or_cancelled g v t' l.
Proof. intros Hc [?|[? ?]]; [by left|right; eauto]. Qed.

Lemma send_post_other g t t' l l1 st :
  (canceled t = true → canceled t' = true) →
  (∀ e, e ∈ l1 → ev_g e ≠ g) →
  send_post g t l st → send_post g t' (l1 ++ l) st.
Proof.
  intros Hc Hl. destruct st as [|f rest]; [done|]. unfold send_post.
  destruct (fn f); try done. intros Hp Hpan. specialize (Hp Hpan).
  unfold sent_or_cancelled in *. rewrite (own_app_other g l1 l Hl).
  destruct (body f) as [|[] ?]; try done.
  destruct Hp as [?|[? ?]]; eauto.
Qed.

(** Every return of a [Send(v)] in the log comes, among the events of its
    goroutine, right after the call, the assignment and the placement of
    [v], or right after the call, and then the task is cancelled. *)
Record sends_ok (s : state) : Prop := {
  sends_frames : ∀ g st, pool s !! g = Some st →
    send_post g (task s) (log s) st;
  sends_rets : ∀ l1 l2 g v r, log s = l1 ++ EvRet g (MSend v) r :: l2 →
    sent_or_cancelled g v (task s) l2
}.

Lemma sends_ok_reachable h main s : reachable h main s → sends_ok s.
Proof.
  induction 1 as [|s g s' Hr [IHf IHr] Hstep].
  { split.
    - intros [|g] st Hg; simpl in Hg; simplify_eq. done.
    - intros [|] ? ? ? ? Hl; simpl in Hl; discriminate Hl. }
  pose proof (inv_reachable _ _ _ Hr) as Hi.
  apply step_inv in Hstep as (_ & st & o & Hg & Hex & ->).
  pose proof (lookup_lt_Some _ _ _ Hg) as Hlt.
  destruct (inv_wf _ _ Hi) as [Hst Hlk Hown].
  destruct (exec_mono g (task s) st o Hex) as (Hmc & _).
  destruct (exec_send_post g (task s) (log s) st o (Hst _ _ Hg) Hex
              (proj1 (Hlk _ _ Hg)) (IHf _ _ Hg)) as (Hnew & Hsp & Hret).
  split; simpl.
  - intros g' st' [[-> ->]|[[Hne Hg']|[Hge Hin]]]%pool_lookup; [done| |eauto|done].
    apply (send_post_other g' (task s)); [done| |eauto].
    intros e He Heq. pose proof (exec_own_events _ _ _ _ _ Hex He). congruence.
  - intros l1 l2 g' v r Hl.
    destruct (exec_send_event g (task s) st o Hex) as [Hev|(e & Hev & _)];
      rewrite Hev in *; simpl in Hl.
    + eapply sent_or_cancelled_mono; eauto.
    + destruct l1 as [|e1 l1]; simpl in Hl; simplify_eq.
      * assert (ev_g (EvRet g' (MSend v) r) = g) as Heq
          by (apply (exec_own_events _ _ _ _ _ Hex); rewrite Hev; by left).
        simpl in Heq. subst g'.
        eapply sent_or_cancelled_mono; [done|]. apply (Hret v r). by left.
      * eapply sent_or_cancelled_mono; eauto.
Qed.

Lemma head_elem_of {A} (l : list A) x : head l = Some x → x ∈ l.
Proof. destruct l; intros [= ->]. by left. Qed.

(** ** Further scenarios *)

(** The handler sends twice, the client starts the task and receives
    twice. *)
Definition fifo_main : list ucmd := [UStart; UReceive; UReceive].
Definition fifo_state : state :=
  from_run (replicate 9 0 ++ replicate 15 1 ++ replicate 4 0 ++ replicate 3 1 ++
            replicate 4 0) blocked_handler fifo_main.

(** The client of C6 after its receive. *)
Definition drained_state : state :=
  from_run (replicate 23 0) None cancel_first_main.

(** The cancelled client after its [Send]. *)
Definition resent_state : state :=
  default cancelled_state (run (replicate 6 0) cancelled_state).

(** The second send of the handler waits for the slot, the client is about
    to receive. *)
Definition unblock_main : list ucmd := [UStart; UReceive].
Definition unblock_state : state :=
  from_run (replicate 9 0 ++ replicate 15 1) blocked_handler unblock_main.
Definition unblock_frame : frame :=
  Frame (MUser unblock_main) [SCall MReceive; SRecv] [] RSelf RVoid false.

Definition trip_main : list ucmd := [USend (VInt 7); UReceive; ULastResult].
Definition trip_frame : frame := new_frame (GoRace None) (MUser trip_main).

Definition background_main : list ucmd := [UStartBackground].
Definition background_frame : frame :=
  new_frame (GoRace handler_send_true) (MUser background_main).

(** The handler has panicked and the process has terminated. *)
Definition crashed_state : state :=
  from_run (replicate 9 0 ++ replicate 17 1) panic_handler panic_main.

(** A client that sends 7, cancels and sends 7 again. *)
Definition again_main : list ucmd := [USend (VInt 7); UCancel; USend (VInt 7)].
Definition again_state : state := from_run (replicate 26 0) None again_main.

(** A client that has sent 7. *)
Definition sent_main : list ucmd := [USend (VInt 7); ULastResult].
Definition sent_state : state := from_run (replicate 8 0) None sent_main.
Definition asked_state : state := from_run (replicate 14 0) None sent_main.

(** The handler has sent [true] and its goroutine has ended. *)
Definition ended_state : state :=
  from_run (replicate 9 0 ++ replicate 24 1) handler_send_true [UStart].

Definition asked_canceled_main : list ucmd := [UCancel; UIsCanceled].
Definition asked_canceled_state : state :=
  from_run (replicate 18 0) None asked_canceled_main.

Definition started_state : state :=
  from_run (replicate 9 0) handler_send_true [UStart].

Definition twice_state : state := from_run (replicate 22 0) None twice_main.

(** Inside [IsCanceled]: before the lock, and before the unlock. *)
Definition reading_state : state := from_run [0] None [UIsCanceled].
Definition reading_frame : frame := new_frame (GoRace None) MIsCanceled.
Definition read_state : state := from_run (replicate 4 0) None [UIsCanceled].
Definition read_frame : frame :=
  Frame MIsCanceled [] [DUnlock] RVoid (RBool false) false.
Definition read_caller : frame :=
  Frame (MUser [UIsCanceled]) [] [] RVoid RVoid false.

(** [Send(7)], then [Cancel()], then two receives. *)
Definition kept_main : list ucmd := [USend (VInt 7); UCancel; UReceive; UReceive].
Definition kept_state : state := from_run (replicate 20 0) None kept_main.
Definition kept_frame : frame :=
  Frame (MUser kept_main) [SCall MReceive; SRecv; SCall MReceive; SRecv] []
    (RBool true) RVoid false.

(** A task without handler is started; its goroutine is about to call the
    handler. *)
Definition nil_started_state : state :=
  from_run (replicate 9 0 ++ [1]) None [UStart].
Definition nil_started_frame : frame :=
  Frame MgoFunc [SCall Mhandler] [DCall MCancel] RVoid RVoid false.

(** ** The properties *)

(** X1. The shared fields are only accessed under the mutex.  In every
    reachable state a goroutine whose next statement reads or writes
    [gc.canceled], [gc.started] or [gc.lastResult], or closes or writes the
    channel, is the goroutine that holds [gc.mu]; so no two goroutines stand
    at such a statement at the same time. *)
Theorem shared_fields_only_under_mutex h main s g st i :
  reachable h main s →
  pool s !! g = Some st → next_stmt st = Some i → touches_shared i = true →
  mu (task s) = Some g ∧
  ∀ g' st' i', pool s !! g' = Some st' → next_stmt st' = Some i' →
               touches_shared i' = true → g' = g.
Proof.
  intros Hi%inv_reachable Hg Hn Ht.
  assert (∀ g st i, pool s !! g = Some st → next_stmt st = Some i →
            touches_shared i = true → mu (task s) = Some g) as Hall.
  { intros g1 st1 i1 Hg1 Hn1 Ht1.
    apply (wf_lock _ (inv_wf _ _ Hi) _ _ Hg1).
    eapply touches_held; eauto. by apply (wf_stacks _ (inv_wf _ _ Hi) _ _ Hg1). }
  split; [eauto|]. intros g' st' i' Hg' Hn' Ht'.
  pose proof (Hall _ _ _ Hg Hn Ht). pose proof (Hall _ _ _ Hg' Hn' Ht').
  congruence.
Qed.

Lemma shared_fields_only_under_mutex_witness :
  reachable blocked_handler blocked_main blocked_state ∧
  next_stmt (default [] (pool blocked_state !! 1)) = Some (SChanSend (VInt 2)) ∧
  mu (task blocked_state) = Some 1.
Proof.
  split; [apply from_run_reachable|].
  assert (pool blocked_state !! 1 = Some (default [] (pool blocked_state !! 1)))
    as H1 by (vm_compute; reflexivity).
  assert (next_stmt (default [] (pool blocked_state !! 1)) =
          Some (SChanSend (VInt 2))) as H2 by (vm_compute; reflexivity).
  split; [exact H2|].
  exact (proj1 (shared_fields_only_under_mutex blocked_handler blocked_main
                  blocked_state 1 _ _ (from_run_reachable _ _ _) H1 H2 eq_refl)).
Defined.

(** X2. A deferred [gc.mu.Unlock()] is only ever run by the goroutine that
    holds the mutex: in every reachable state a frame that has finished its
    body and has [Unlock] as its next deferred call belongs to the holder,
    it has no other deferred call, and its step releases the mutex and
    changes nothing else. *)
Theorem Unlock_only_by_the_holder h main s g f rest ds :
  reachable h main s →
  pool s !! g = Some (f :: rest) → body f = [] → defers f = DUnlock :: ds →
  mu (task s) = Some g ∧ ds = [] ∧
  (crashed s = false →
   step g s =
     Some (State (set_mu None (task s)) (<[g := set_defers [] f :: rest]> (pool s))
             (log s) false)).
Proof.
  intros Hi%inv_reachable Hg Hb Hd.
  destruct (inv_wf _ _ Hi) as [Hst Hlk Hown].
  assert (mu (task s) = Some g) as Hmu.
  { apply (Hlk _ _ Hg). unfold top_held, held_frame. rewrite Hd. simpl.
    by rewrite !orb_true_r. }
  assert (ds = []) as ->.
  { destruct (Hst _ _ Hg) as (Hf & _). unfold frame_ok in Hf.
    destruct f as [m b d a r p]. simpl in *. subst.
    destruct m; simpl in Hf; break_frame_ok; by simplify_eq. }
  split_and?; try done. intros Hcr.
  unfold step. rewrite Hcr, Hg. simpl. rewrite Hb, Hd. simpl. rewrite Hmu.
  simpl. by rewrite app_nil_r.
Qed.

Lemma Unlock_only_by_the_holder_witness :
  reachable None [UIsCanceled] read_state ∧
  pool read_state !! 0 = Some [read_frame; read_caller] ∧
  mu (task read_state) = Some 0 ∧
  (crashed read_state = false →
   step 0 read_state =
     Some (State (set_mu None (task read_state))
             (<[0 := [set_defers [] read_frame; read_caller]]> (pool read_state))
             (log read_state) false)).
Proof.
  split; [apply from_run_reachable|].
  assert (pool read_state !! 0 = Some [read_frame; read_caller]) as H1
    by (vm_compute; reflexivity).
  split; [exact H1|].
  destruct (Unlock_only_by_the_holder None [UIsCanceled] read_state 0 read_frame
              [read_caller] [] (from_run_reachable _ _ _) H1 eq_refl eq_refl)
    as (Hmu & _ & Hstep).
  split; [exact Hmu|exact Hstep].
Defined.

(** X3. A critical section waits for nothing but the slot of the channel.
    In every reachable state of a running process the goroutine that holds
    the mutex can take a step, unless it stands at the write [gc.send <-
    result] of [Send] and the channel is full. *)
Theorem mutex_holder_waits_only_for_slot h main s g :
  reachable h main s → crashed s = false → mu (task s) = Some g →
  ∃ st, pool s !! g = Some st ∧
        (is_Some (step g s) ∨ ∃ v, send_blocked s g v).
Proof. intros Hi%inv_reachable. by apply (holder_steps h). Qed.

Lemma mutex_holder_waits_only_for_slot_witness :
  reachable blocked_handler blocked_main blocked_state ∧
  crashed blocked_state = false ∧ mu (task blocked_state) = Some 1 ∧
  ∃ st, pool blocked_state !! 1 = Some st ∧
        (is_Some (step 1 blocked_state) ∨ ∃ v, send_blocked blocked_state 1 v).
Proof.
  split; [apply from_run_reachable|].
  assert (crashed blocked_state = false) as H1 by (vm_compute; reflexivity).
  assert (mu (task blocked_state) = Some 1) as H2 by (vm_compute; reflexivity).
  do 2 (split; [assumption|]).
  exact (mutex_holder_waits_only_for_slot blocked_handler blocked_main
           blocked_state 1 (from_run_reachable _ _ _) H1 H2).
Defined.

(** X4. Once the channel is closed nobody waits for it.  In every reachable
    state of a running process in which the channel is closed, a goroutine
    that has not finished can take a step, unless it stands at a
    [gc.mu.Lock()] while another goroutine holds the mutex, and that
    goroutine can take a step. *)
Theorem closed_channel_never_blocks h main s g st :
  reachable h main s → crashed s = false →
  closed (send (task s)) = true →
  pool s !! g = Some st → st ≠ [] →
  is_Some (step g s) ∨
  (next_stmt st = Some SLock ∧
   ∃ g', g' ≠ g ∧ mu (task s) = Some g' ∧ is_Some (step g' s)).
Proof.
  intros Hi%inv_reachable Hcr Hcl Hg Hne.
  unfold step at 1. rewrite Hcr, Hg.
  destruct (exec g (task s) st) as [o|] eqn:Hex; [left; by eexists|].
  right. apply exec_None in Hex as [?|[[Hn Hmu]|[(v & _ & ? & _)|(_ & _ & ?)]]];
    try done; try congruence.
  split; [done|]. destruct (mu (task s)) as [g'|] eqn:Hmu'; [|done].
  exists g'. split.
  - intros ->.
    pose proof (proj2 (wf_lock _ (inv_wf _ _ Hi) _ _ Hg) Hmu') as Hth.
    by destruct (held_not_waiting st (wf_stacks _ (inv_wf _ _ Hi) _ _ Hg) Hth)
      as (_ & ? & _).
  - split; [done|].
    destruct (holder_steps h s g' Hi Hcr Hmu') as (st' & Hg' & [?|[v Hb]]);
      [done|].
    destruct (send_blocked_facts h s g' v Hi Hb) as (_ & _ & Hc & _).
    pose proof (closed_canceled h s Hi Hcl). congruence.
Qed.

Lemma closed_channel_never_blocks_witness :
  reachable None cancelled_main cancelled_state ∧
  crashed cancelled_state = false ∧
  closed (send (task cancelled_state)) = true ∧
  pool cancelled_state !! 0 = Some [cancelled_frame] ∧
  (is_Some (step 0 cancelled_state) ∨
   next_stmt [cancelled_frame] = Some SLock ∧
   ∃ g', g' ≠ 0 ∧ mu (task cancelled_state) = Some g' ∧
         is_Some (step g' cancelled_state)).
Proof.
  split; [apply from_run_reachable|].
  assert (crashed cancelled_state = false) as H1 by (vm_compute; reflexivity).
  assert (closed (send (task cancelled_state)) = true) as H2
    by (vm_compute; reflexivity).
  assert (pool cancelled_state !! 0 = Some [cancelled_frame]) as H3
    by (vm_compute; reflexivity).
  do 3 (split; [assumption|]).
  apply (closed_channel_never_blocks None cancelled_main cancelled_state 0
           [cancelled_frame] (from_run_reachable _ _ _) H1 H2 H3).
  discriminate.
Defined.

(** X5. The only deadlocks are a [Send] nobody receives and a receive nobody
    feeds.  If in a reachable state of a running process no goroutine can
    step, then either one goroutine stands at the write of [Send] with the
    channel full and every other unfinished goroutine waits for the mutex,
    or the mutex is free and every unfinished goroutine waits to receive
    from the open, empty channel. *)
Theorem deadlocks_are_unserved_sends_or_receives h main s :
  reachable h main s → crashed s = false → (∀ g, step g s = None) →
  (∃ g v, send_blocked s g v ∧
     ∀ g' st, pool s !! g' = Some st → g' ≠ g →
              st = [] ∨ next_stmt st = Some SLock) ∨
  (mu (task s) = None ∧
   ∀ g st, pool s !! g = Some st →
           st = [] ∨
           (next_stmt st = Some SRecv ∧ buf (send (task s)) = [] ∧
            closed (send (task s)) = false)).
Proof.
  intros Hi%inv_reachable Hcr Hnone.
  assert (∀ g st, pool s !! g = Some st → exec g (task s) st = None) as Hex.
  { intros g st Hg. specialize (Hnone g). unfold step in Hnone.
    rewrite Hcr, Hg in Hnone. by destruct (exec g (task s) st). }
  assert (∀ g st v, pool s !! g = Some st →
            next_stmt st = Some (SChanSend v) → mu (task s) = Some g) as Hsend.
  { intros g st v Hg Hn. pose proof (point_next _ _ Hn) as Hp.
    destruct (inv_point h s g st Hi Hg) as [Hmu _]; [by rewrite Hp|done]. }
  destruct (mu (task s)) as [g|] eqn:Hmu.
  - left. destruct (holder_steps h s g Hi Hcr Hmu) as (st & Hg & [Hs|[v Hb]]).
    { rewrite Hnone in Hs. by destruct Hs. }
    exists g, v. split; [done|]. intros g' st' Hg' Hne.
    destruct Hb as (st0 & Hg0 & _ & Hfull).
    destruct (inv_cap _ _ Hi) as [Hcap _].
    destruct (exec_None _ _ _ (Hex _ _ Hg'))
      as [?|[[? _]|[(v' & Hn & _)|(_ & Hb & _)]]]; eauto.
    + specialize (Hsend _ _ _ Hg' Hn). congruence.
    + rewrite Hb, Hcap in Hfull. simpl in Hfull. lia.
  - right. split; [done|]. intros g st Hg.
    destruct (exec_None _ _ _ (Hex _ _ Hg))
      as [?|[[_ ?]|[(v' & Hn & _)|?]]]; eauto.
    + done.
    + specialize (Hsend _ _ _ Hg Hn). congruence.
Qed.

Lemma deadlocks_are_unserved_sends_or_receives_witness :
  reachable blocked_handler blocked_main blocked_state ∧
  crashed blocked_state = false ∧
  (∀ g, step g blocked_state = None) ∧
  ((∃ g v, send_blocked blocked_state g v ∧
      ∀ g' st, pool blocked_state !! g' = Some st → g' ≠ g →
               st = [] ∨ next_stmt st = Some SLock) ∨
   (mu (task blocked_state) = None ∧
    ∀ g st, pool blocked_state !! g = Some st →
            st = [] ∨
            (next_stmt st = Some SRecv ∧ buf (send (task blocked_state)) = [] ∧
             closed (send (task blocked_state)) = false))).
Proof.
  split; [apply from_run_reachable|].
  assert (crashed blocked_state = false) as H1 by (vm_compute; reflexivity).
  assert (∀ g, step g blocked_state = None) as H2
    by (intros [|[|g]]; vm_compute; reflexivity).
  do 2 (split; [assumption|]).
  exact (deadlocks_are_unserved_sends_or_receives blocked_handler blocked_main
           blocked_state (from_run_reachable _ _ _) H1 H2).
Defined.

(** X6. [Receive] does not take the mutex, and a receive lets a blocked
    [Send] through.  When a goroutine [g] stands at the write of [v] with
    the channel full, a client that calls [Receive()] and receives gets, in
    four steps of its own, the value [w] that fills the slot; [g] still
    holds the mutex, and its next step places [v] on the channel. *)
Theorem Receive_unblocks_Send h main s g v g' f rest k :
  reachable h main s → crashed s = false → send_blocked s g v →
  pool s !! g' = Some (f :: rest) → body f = SCall MReceive :: SRecv :: k →
  ∃ w s1 s2,
    buf (send (task s)) = [w] ∧
    run (replicate 4 g') s = Some s1 ∧
    pool s1 !! g' = Some (set_acc (RVal w) (set_body k f) :: rest) ∧
    log s1 = EvRecv g' (Some w) :: EvRet g' MReceive RChan ::
             EvCall g' MReceive :: log s ∧
    buf (send (task s1)) = [] ∧ mu (task s1) = Some g ∧
    step g s1 = Some s2 ∧
    buf (send (task s2)) = [v] ∧ log s2 = EvChanSend g v :: log s1.
Proof.
  intros Hr Hcr Hb Hg' Hbody. pose proof (inv_reachable _ _ _ Hr) as Hi.
  destruct (send_blocked_facts h s g v Hi Hb) as (_ & Hmu & Hc & _).
  destruct Hb as (st & Hg & Hn & Hfull).
  destruct (inv_cap _ _ Hi) as [Hcap Hlen].
  assert (∃ w, buf (send (task s)) = [w]) as [w Hbuf].
  { destruct (buf (send (task s))) as [|w [|w' b]]; simpl in *; try lia. eauto. }
  assert (g' ≠ g) as Hne.
  { intros ->. rewrite Hg in Hg'. simplify_eq. simpl in Hn. by rewrite Hbody in Hn. }
  pose proof (lookup_lt_Some _ _ _ Hg') as Hlt'.
  pose proof (lookup_lt_Some _ _ _ Hg) as Hlt.
  destruct (inv_point h s g st Hi Hg) as [_ Ha];
    [by rewrite (point_next _ _ Hn)|].
  rewrite (point_next _ _ Hn) in Ha. simpl in Ha. destruct Ha as (_ & Hcl & _).
  assert (∃ m b d a r p rest',
            st = Frame m (SChanSend v :: b) d a r p :: rest')
    as (m & b & d & a & r & p & rest' & ->).
  { destruct st as [|[m [|i b] d a r p] rest']; simpl in Hn; simplify_eq.
    eauto 10. }
  eexists w, _, _. split; [done|]. split.
  { eapply run_solo; [done|done|]. by eapply Receive_value. }
  simpl. rewrite app_nil_r.
  split; [by rewrite list_lookup_insert_eq|]. split; [done|].
  split; [done|]. split; [done|].
  unfold step. simpl.
  rewrite list_lookup_insert_ne by done. rewrite Hg.
  rewrite Hcl, Hcap. simpl. done.
Qed.

Lemma Receive_unblocks_Send_witness :
  reachable blocked_handler unblock_main unblock_state ∧
  crashed unblock_state = false ∧
  send_blocked unblock_state 1 (VInt 2) ∧
  pool unblock_state !! 0 = Some [unblock_frame] ∧
  ∃ w s1 s2,
    buf (send (task unblock_state)) = [w] ∧
    run (replicate 4 0) unblock_state = Some s1 ∧
    pool s1 !! 0 = Some [set_acc (RVal w) (set_body [] unblock_frame)] ∧
    log s1 = EvRecv 0 (Some w) :: EvRet 0 MReceive RChan ::
             EvCall 0 MReceive :: log unblock_state ∧
    buf (send (task s1)) = [] ∧ mu (task s1) = Some 1 ∧
    step 1 s1 = Some s2 ∧
    buf (send (task s2)) = [VInt 2] ∧ log s2 = EvChanSend 1 (VInt 2) :: log s1.
Proof.
  split; [apply from_run_reachable|].
  assert (crashed unblock_state = false) as H1 by (vm_compute; reflexivity).
  assert (send_blocked unblock_state 1 (VInt 2)) as H2.
  { exists (default [] (pool unblock_state !! 1)).
    split; [vm_compute; reflexivity|]. split; [vm_compute; reflexivity|].
    vm_compute. lia. }
  assert (pool unblock_state !! 0 = Some [unblock_frame]) as H3
    by (vm_compute; reflexivity).
  do 3 (split; [assumption|]).
  exact (Receive_unblocks_Send blocked_handler unblock_main unblock_state 1
           (VInt 2) 0 unblock_frame [] [] (from_run_reachable _ _ _) H1 H2 H3
           eq_refl).
Defined.

(** X7. [IsCanceled], [LastResult] and [Receive] only read.  A step taken
    inside one of them leaves the handler, the channel, [canceled],
    [started] and [lastResult] as they are, starts no goroutine and does not
    terminate the process; all it can change is the mutex. *)
Theorem readers_change_nothing h main s g f rest s' :
  reachable h main s →
  pool s !! g = Some (f :: rest) → is_reader (fn f) = true →
  step g s = Some s' →
  handler (task s') = handler (task s) ∧ send (task s') = send (task s) ∧
  canceled (task s') = canceled (task s) ∧
  started (task s') = started (task s) ∧
  lastResult (task s') = lastResult (task s) ∧
  length (pool s') = length (pool s) ∧ crashed s' = false.
Proof.
  intros Hi%inv_reachable Hg Hrd (_ & st & o & Hg' & Hex & ->)%step_inv.
  rewrite Hg in Hg'. injection Hg' as <-. simpl.
  destruct (inv_wf _ _ Hi) as [Hst Hlk Hown].
  destruct (Hst _ _ Hg) as (Hf & _).
  destruct (exec_ok g (task s) _ o (Hst _ _ Hg) (proj1 (Hlk _ _ Hg)) Hex)
    as (_ & _ & _ & Hcrash).
  destruct (exec_reader g (task s) f rest o Hf Hrd Hex)
    as [(? & ? & ? & ? & ? & Hsp & ?)|[Hc _]].
  - split_and?; try done. by rewrite Hsp, app_nil_r, length_insert.
  - destruct (Hcrash Hc) as (f' & ? & Hp & _). simplify_eq.
    unfold frame_ok in Hf. destruct (fn f'); try done; simpl in Hf.
    all: destruct Hf as [_ Hf]; by destruct (Hf Hp).
Qed.

Lemma readers_change_nothing_witness :
  reachable None [UIsCanceled] reading_state ∧
  pool reading_state !! 0 = Some [reading_frame; read_caller] ∧
  is_reader (fn reading_frame) = true ∧
  ∀ s', step 0 reading_state = Some s' →
    handler (task s') = handler (task reading_state) ∧
    send (task s') = send (task reading_state) ∧
    canceled (task s') = canceled (task reading_state) ∧
    started (task s') = started (task reading_state) ∧
    lastResult (task s') = lastResult (task reading_state) ∧
    length (pool s') = length (pool reading_state) ∧ crashed s' = false.
Proof.
  split; [apply from_run_reachable|].
  assert (pool reading_state !! 0 = Some [reading_frame; read_caller]) as H1
    by (vm_compute; reflexivity).
  split; [exact H1|]. split; [reflexivity|].
  intros s' Hs'.
  exact (readers_change_nothing None [UIsCanceled] reading_state 0 reading_frame
           [read_caller] s' (from_run_reachable _ _ _) H1 eq_refl Hs').
Defined.



(** X9. Every panic is a panic of client code.  In every reachable state,
    for every client, no close and no send has hit a closed channel, every
    panic raised so far was raised by client code (a [panic] of the handler
    or the client, or the call of a nil handler), and whenever a frame is
    unwinding, or a panic or a failed [Unlock] has ended the process, such
    a panic has been raised. *)
Theorem panics_come_only_from_client_code h main s :
  reachable h main s →
  count is_chan_panic (log s) = 0 ∧
  (∀ g why, EvPanic g why ∈ log s → why = PUser) ∧
  ((∃ g, EvCrash g ∈ log s) ∨
   (∃ g st, pool s !! g = Some st ∧ any_panicking st = true) →
   ∃ g, EvPanic g PUser ∈ log s).
Proof.
  intros Hr. pose proof (inv_nopanic _ _ (inv_reachable _ _ _ Hr)) as Hnp.
  split_and?; [done| |].
  - intros g why Hin. pose proof (count_zero _ _ _ Hnp Hin) as Hz.
    by destruct why.
  - intros Hc. destruct (count_pos is_user_panic (log s)) as (e & Hin & He).
    { apply (panic_reachable _ _ _ Hr).
      destruct Hc as [[g Hg]|?]; [left|by right].
      by eapply crash_event_reachable. }
    destruct e as [| | | | | | |g []|]; try done. eauto.
Qed.

Lemma panics_come_only_from_client_code_witness :
  reachable panic_handler panic_main crashed_state ∧
  EvCrash 1 ∈ log crashed_state ∧
  count is_chan_panic (log crashed_state) = 0 ∧
  ∃ g, EvPanic g PUser ∈ log crashed_state.
Proof.
  split; [apply from_run_reachable|].
  assert (EvCrash 1 ∈ log crashed_state) as H1
    by (apply head_elem_of; vm_compute; reflexivity).
  split; [exact H1|].
  destruct (panics_come_only_from_client_code panic_handler panic_main
              crashed_state (from_run_reachable _ _ _)) as (Hnp & _ & Hp).
  split; [exact Hnp|]. apply Hp. left. exists 1. exact H1.
Defined.

(** X10. [GoRace] accepts a nil handler and [Start] launches it.  When the
    func literal of [Start] is about to call the nil handler, the call
    panics: after three steps the func literal is unwinding, and its fourth
    step calls the deferred [gc.Cancel()]. *)
Theorem nil_handler_panics_when_called main s g w :
  reachable None main s → crashed s = false →
  pool s !! g = Some [w] → fn w = MgoFunc → body w = [SCall Mhandler] →
  defers w = [DCall MCancel] ∧
  run (replicate 3 g) s =
    Some (State (task s) (<[g := [set_panic (set_body [] w)]]> (pool s))
            (EvPanic g PUser :: EvCall g Mhandler :: log s) false) ∧
  run (replicate 4 g) s =
    Some (State (task s)
            (<[g := [new_frame (task s) MCancel;
                     set_defers [] (set_panic (set_body [] w))]]> (pool s))
            (EvCall g MCancel :: EvPanic g PUser :: EvCall g Mhandler :: log s)
            false).
Proof.
  intros Hr Hcr Hg Hfn Hb. pose proof (inv_reachable _ _ _ Hr) as Hi.
  pose proof (inv_handler _ _ Hi) as Hh.
  assert (defers w = [DCall MCancel]) as Hd.
  { destruct (wf_stacks _ (inv_wf _ _ Hi) _ _ Hg) as (Hf & _).
    unfold frame_ok in Hf. rewrite Hfn, Hb in Hf. simpl in Hf.
    destruct Hf as [Hin _]. break_frame_ok; by simplify_eq. }
  assert (run (replicate 3 g) s =
    Some (State (task s) (<[g := [set_panic (set_body [] w)]]> (pool s))
            (EvPanic g PUser :: EvCall g Mhandler :: log s) false)) as H3.
  { erewrite run_solo; [|done|done|by apply nil_handler_call].
    simpl. by rewrite app_nil_r. }
  split_and?; try done.
  change 4 with (3 + 1). rewrite replicate_add, run_app, H3.
  cbn [mbind option_bind]. simpl. unfold step. simpl.
  rewrite list_lookup_insert_eq by (by eapply lookup_lt_Some). simpl.
  rewrite Hd. simpl. by rewrite app_nil_r, list_insert_insert_eq.
Qed.

Lemma nil_handler_panics_when_called_witness :
  reachable None [UStart] nil_started_state ∧
  crashed nil_started_state = false ∧
  pool nil_started_state !! 1 = Some [nil_started_frame] ∧
  run (replicate 3 1) nil_started_state =
    Some (State (task nil_started_state)
            (<[1 := [set_panic (set_body [] nil_started_frame)]]>
               (pool nil_started_state))
            (EvPanic 1 PUser :: EvCall 1 Mhandler :: log nil_started_state)
            false).
Proof.
  split; [apply from_run_reachable|].
  assert (crashed nil_started_state = false) as H1 by (vm_compute; reflexivity).
  assert (pool nil_started_state !! 1 = Some [nil_started_frame]) as H2
    by (vm_compute; reflexivity).
  do 2 (split; [assumption|]).
  destruct (nil_handler_panics_when_called [UStart] nil_started_state 1
              nil_started_frame (from_run_reachable _ _ _) H1 H2 eq_refl eq_refl)
    as (_ & H3 & _).
  exact H3.
Defined.

(** X11. Under every interleaving, when a call of [Cancel] has returned (true
    or false), the task is cancelled and the channel closed, and they stay
    so. *)
Theorem Cancel_returns_on_a_closed_channel h main s g r :
  reachable h main s → EvRet g MCancel r ∈ log s →
  (∃ b, r = RBool b) ∧
  canceled (task s) = true ∧ closed (send (task s)) = true.
Proof.
  intros Hp%post_reachable Hin. split.
  - apply (post_rets _ Hp _ _ _ Hin).
  - apply (post_done _ Hp _ _ _ Hin). by left.
Qed.

Lemma Cancel_returns_on_a_closed_channel_witness :
  reachable None cancelled_main cancelled_state ∧
  EvRet 0 MCancel (RBool true) ∈ log cancelled_state ∧
  (∃ b, RBool true = RBool b) ∧
  canceled (task cancelled_state) = true ∧
  closed (send (task cancelled_state)) = true.
Proof.
  split; [apply from_run_reachable|].
  assert (EvRet 0 MCancel (RBool true) ∈ log cancelled_state) as H1
    by (apply head_elem_of; vm_compute; reflexivity).
  split; [exact H1|].
  exact (Cancel_returns_on_a_closed_channel None cancelled_main cancelled_state
           0 (RBool true) (from_run_reachable _ _ _) H1).
Defined.

(** X12. Under every interleaving at most one call of [Cancel] returns true:
    the calls that have returned true are at most as many as the closes of
    the channel, which is closed at most once; and if one has returned true
    the task is cancelled and the channel closed. *)
Theorem Cancel_returns_true_at_most_once h main s :
  reachable h main s →
  count is_true_cancel (log s) ≤ closes (log s) ∧
  count is_true_cancel (log s) ≤ 1 ∧
  (1 ≤ count is_true_cancel (log s) →
   canceled (task s) = true ∧ closed (send (task s)) = true).
Proof.
  intros Hr. pose proof (inv_reachable _ _ _ Hr) as Hi.
  pose proof (carriers_reachable _ _ _ Hr) as Hc.
  pose proof (inv_closes _ _ Hi) as Hcl.
  assert (closed (send (task s)) = true → canceled (task s) = true)
    by (by apply closed_canceled with h).
  destruct (closed (send (task s))); simpl in *; split_and?; try lia.
  all: intros; try lia; eauto.
Qed.

Lemma Cancel_returns_true_at_most_once_witness :
  reachable None twice_main twice_state ∧
  length (pool twice_state) = 1 ∧
  count is_true_cancel (log twice_state) ≤ closes (log twice_state) ∧
  count is_true_cancel (log twice_state) ≤ 1.
Proof.
  split; [apply from_run_reachable|]. split; [vm_compute; reflexivity|].
  destruct (Cancel_returns_true_at_most_once None twice_main twice_state
              (from_run_reachable _ _ _)) as (H1 & H2 & _).
  split; [exact H1|exact H2].
Defined.

(** X13. When the goroutine started by [Start] has ended by returning, its
    deferred [gc.Cancel()] has run: the task is cancelled and the channel
    closed. *)
Theorem handler_return_cancels_the_task h main s g r :
  reachable h main s → EvRet g MgoFunc r ∈ log s →
  canceled (task s) = true ∧ closed (send (task s)) = true.
Proof.
  intros Hp%post_reachable Hin. apply (post_done _ Hp _ _ _ Hin). by right.
Qed.

Lemma handler_return_cancels_the_task_witness :
  reachable handler_send_true [UStart] ended_state ∧
  EvRet 1 MgoFunc RVoid ∈ log ended_state ∧
  canceled (task ended_state) = true ∧ closed (send (task ended_state)) = true.
Proof.
  split; [apply from_run_reachable|].
  assert (EvRet 1 MgoFunc RVoid ∈ log ended_state) as H1
    by (apply head_elem_of; vm_compute; reflexivity).
  split; [exact H1|].
  exact (handler_return_cancels_the_task handler_send_true [UStart] ended_state
           1 RVoid (from_run_reachable _ _ _) H1).
Defined.

(** X14. [IsCanceled] returns a boolean, and once a call has returned true
    the task is cancelled and the channel closed in every later state. *)
Theorem IsCanceled_true_is_final h main s g r :
  reachable h main s → EvRet g MIsCanceled r ∈ log s →
  ∃ b, r = RBool b ∧
       (b = true → canceled (task s) = true ∧ closed (send (task s)) = true).
Proof. intros Hp%post_reachable Hin. apply (post_rets _ Hp _ _ _ Hin). Qed.

Lemma IsCanceled_true_is_final_witness :
  reachable None asked_canceled_main asked_canceled_state ∧
  EvRet 0 MIsCanceled (RBool true) ∈ log asked_canceled_state ∧
  ∃ b, RBool true = RBool b ∧
       (b = true → canceled (task asked_canceled_state) = true ∧
                   closed (send (task asked_canceled_state)) = true).
Proof.
  split; [apply from_run_reachable|].
  assert (EvRet 0 MIsCanceled (RBool true) ∈ log asked_canceled_state) as H1
    by (apply head_elem_of; vm_compute; reflexivity).
  split; [exact H1|].
  exact (IsCanceled_true_is_final None asked_canceled_main asked_canceled_state
           0 (RBool true) (from_run_reachable _ _ _) H1).
Defined.

(** X15. When a receive has found the channel closed and empty (a [range]
    over [Receive()] has ended), the channel is closed and empty and the
    task is cancelled; from then on [IsCanceled()], run on its own with the
    mutex free, returns true, and a further receive returns nil at once. *)
Theorem drained_channel_means_cancelled h main s g :
  reachable h main s → EvRecv g None ∈ log s →
  closed (send (task s)) = true ∧ buf (send (task s)) = [] ∧
  canceled (task s) = true ∧
  ∀ g' f rest k, crashed s = false → mu (task s) = None →
    pool s !! g' = Some (f :: rest) →
    (body f = SCall MIsCanceled :: k →
     run (replicate 6 g') s =
       Some (State (task s)
               (<[g' := set_acc (RBool true) (set_body k f) :: rest]> (pool s))
               (EvRet g' MIsCanceled (RBool true) :: EvCall g' MIsCanceled ::
                log s) false)) ∧
    (body f = SCall MReceive :: SRecv :: k →
     run (replicate 4 g') s =
       Some (State (task s)
               (<[g' := set_acc (RVal VNil) (set_body k f) :: rest]> (pool s))
               (EvRecv g' None :: EvRet g' MReceive RChan :: EvCall g' MReceive ::
                log s) false)).
Proof.
  intros Hr Hin. pose proof (inv_reachable _ _ _ Hr) as Hi.
  destruct (drained_reachable h main s g Hr Hin) as [Hcl Hb].
  pose proof (closed_canceled h s Hi Hcl) as Hc.
  split_and?; try done.
  intros g' f rest k Hcr Hmu Hg. split; intros Hbody.
  - erewrite run_solo; [|done|done|by apply IsCanceled_call].
    simpl. by rewrite app_nil_r, Hc.
  - erewrite run_solo; [|done|done|by apply Receive_closed].
    simpl. by rewrite app_nil_r.
Qed.

Lemma drained_channel_means_cancelled_witness :
  reachable None cancel_first_main drained_state ∧
  EvRecv 0 None ∈ log drained_state ∧
  closed (send (task drained_state)) = true ∧
  buf (send (task drained_state)) = [] ∧
  canceled (task drained_state) = true.
Proof.
  split; [apply from_run_reachable|].
  assert (EvRecv 0 None ∈ log drained_state) as H1
    by (apply head_elem_of; vm_compute; reflexivity).
  split; [exact H1|].
  destruct (drained_channel_means_cancelled None cancel_first_main
              drained_state 0 (from_run_reachable _ _ _) H1)
    as (Hcl & Hb & Hc & _).
  split; [exact Hcl|]. split; [exact Hb|exact Hc].
Defined.

(** X16. [Send] does not drop a value of a live task.  Wherever a return of
    a call [Send(v)] of goroutine [g] stands in the log, the last three
    things [g] had done before it are the call, the assignment of [v] to
    [lastResult] and the placement of [v] on the channel, all three of this
    very call; or the last thing [g] had done is the call, and then the task
    is cancelled. *)
Theorem Send_returns_delivered_or_cancelled h main s l1 l2 g v r :
  reachable h main s → log s = l1 ++ EvRet g (MSend v) r :: l2 →
  take 3 (own g l2) = [EvChanSend g v; EvAssign g v; EvCall g (MSend v)] ∨
  take 1 (own g l2) = [EvCall g (MSend v)] ∧ canceled (task s) = true.
Proof.
  intros Hs%sends_ok_reachable Hl. exact (sends_rets _ Hs l1 l2 g v r Hl).
Qed.

Lemma Send_returns_delivered_or_cancelled_witness :
  reachable None again_main again_state ∧
  log again_state =
    [] ++ EvRet 0 (MSend (VInt 7)) RVoid :: tail (log again_state) ∧
  EvChanSend 0 (VInt 7) ∈ tail (log again_state) ∧
  (take 3 (own 0 (tail (log again_state))) =
     [EvChanSend 0 (VInt 7); EvAssign 0 (VInt 7); EvCall 0 (MSend (VInt 7))] ∨
   take 1 (own 0 (tail (log again_state))) = [EvCall 0 (MSend (VInt 7))] ∧
   canceled (task again_state) = true).
Proof.
  split; [apply from_run_reachable|].
  assert (log again_state =
            [] ++ EvRet 0 (MSend (VInt 7)) RVoid :: tail (log again_state)) as H1
    by (vm_compute; reflexivity).
  split; [exact H1|]. split.
  { assert (tail (log again_state) !! 7 = Some (EvChanSend 0 (VInt 7))) as H2
      by (vm_compute; reflexivity).
    exact (list_elem_of_lookup_2 _ _ _ H2). }
  exact (Send_returns_delivered_or_cancelled None again_main again_state []
           (tail (log again_state)) 0 (VInt 7) RVoid
           (from_run_reachable _ _ _) H1).
Defined.

(** X17. When a call of [Start] has returned, it has returned the task, and
    the task is cancelled or the handler goroutine has been launched (by
    this call or by an earlier one).  When a call of [StartBackground] has
    returned, it has returned the task and has started a goroutine that
    runs [Start]. *)
Theorem Start_returns_launched_or_cancelled h main s g r :
  reachable h main s →
  (EvRet g MStart r ∈ log s →
   r = RSelf ∧ (canceled (task s) = true ∨ launches (log s) = 1)) ∧
  (EvRet g MStartBackground r ∈ log s → r = RSelf ∧ EvGo g MStart ∈ log s).
Proof.
  intros Hp%post_reachable. split; intros Hin; apply (post_rets _ Hp _ _ _ Hin).
Qed.

Lemma Start_returns_launched_or_cancelled_witness :
  reachable handler_send_true [UStart] started_state ∧
  EvRet 0 MStart RSelf ∈ log started_state ∧
  RSelf = RSelf ∧
  (canceled (task started_state) = true ∨ launches (log started_state) = 1).
Proof.
  split; [apply from_run_reachable|].
  assert (EvRet 0 MStart RSelf ∈ log started_state) as H1
    by (apply head_elem_of; vm_compute; reflexivity).
  split; [exact H1|].
  exact (proj1 (Start_returns_launched_or_cancelled handler_send_true [UStart]
                  started_state 0 RSelf (from_run_reachable _ _ _)) H1).
Defined.

(** X18. A cancelled task is never started.  From a reachable state in which
    the task is cancelled, no run changes [started] or launches the handler
    goroutine, whatever the client and the interleaving; if the handler had
    not been launched before, it is never called. *)
Theorem cancelled_task_never_launches h main s :
  reachable h main s → canceled (task s) = true →
  ∀ sch s', run sch s = Some s' →
    started (task s') = started (task s) ∧
    launches (log s') = launches (log s) ∧
    runs (log s') ≤ launches (log s).
Proof.
  intros Hr Hc sch s' Hrun. pose proof (inv_reachable _ _ _ Hr) as Hi.
  destruct (cancelled_no_launch_run h sch s s' Hi Hc Hrun) as [Hs Hl].
  split_and?; try done. rewrite <- Hl.
  apply once_runs. eapply once_reachable, run_reachable; eauto.
Qed.

Lemma cancelled_task_never_launches_witness :
  reachable None cancelled_main cancelled_state ∧
  canceled (task cancelled_state) = true ∧
  run (replicate 6 0) cancelled_state = Some resent_state ∧
  started (task resent_state) = started (task cancelled_state) ∧
  launches (log resent_state) = launches (log cancelled_state) ∧
  runs (log resent_state) ≤ launches (log cancelled_state).
Proof.
  split; [apply from_run_reachable|].
  assert (canceled (task cancelled_state) = true) as H1
    by (vm_compute; reflexivity).
  assert (run (replicate 6 0) cancelled_state = Some resent_state) as H2
    by (vm_compute; reflexivity).
  do 2 (split; [assumption|]).
  exact (cancelled_task_never_launches None cancelled_main cancelled_state
           (from_run_reachable _ _ _) H1 (replicate 6 0) resent_state H2).
Defined.

(** X19. What [LastResult] returns is nil or a value that had been placed on
    the channel. *)
Theorem LastResult_returns_nil_or_a_sent_value h main s g r :
  reachable h main s → EvRet g MLastResult r ∈ log s →
  ∃ v, r = RVal v ∧ (v = VNil ∨ v ∈ sent (log s)).
Proof. intros Hp%post_reachable Hin. apply (post_rets _ Hp _ _ _ Hin). Qed.

Lemma LastResult_returns_nil_or_a_sent_value_witness :
  reachable None sent_main asked_state ∧
  EvRet 0 MLastResult (RVal (VInt 7)) ∈ log asked_state ∧
  ∃ v, RVal (VInt 7) = RVal v ∧ (v = VNil ∨ v ∈ sent (log asked_state)).
Proof.
  split; [apply from_run_reachable|].
  assert (EvRet 0 MLastResult (RVal (VInt 7)) ∈ log asked_state) as H1
    by (apply head_elem_of; vm_compute; reflexivity).
  split; [exact H1|].
  exact (LastResult_returns_nil_or_a_sent_value None sent_main asked_state
           0 (RVal (VInt 7)) (from_run_reachable _ _ _) H1).
Defined.

(** X20. [lastResult] is the last value placed on the channel.  In every
    reachable state in which the mutex is free, and whenever a goroutine
    stands at the [return gc.lastResult] of [LastResult], the field holds
    the value placed last on the channel, nil if none has been; while a
    [Send] stands at its write of [v], the values assigned so far are [v]
    followed by the values placed on the channel. *)
Theorem LastResult_is_last_value_sent h main s :
  reachable h main s →
  (mu (task s) = None →
   lastResult (task s) = default VNil (head (sent (log s)))) ∧
  (∀ g st, pool s !! g = Some st → next_stmt st = Some (SReturn ELastResult) →
     mu (task s) = Some g ∧
     lastResult (task s) = default VNil (head (sent (log s)))) ∧
  (∀ g st v, pool s !! g = Some st → next_stmt st = Some (SChanSend v) →
     assigned (log s) = v :: sent (log s)).
Proof.
  intros Hr. pose proof (inv_reachable _ _ _ Hr) as Hi. split_and?.
  - intros Hmu. apply (last_is_sent h main); [done|].
    unfold holder_pending. by rewrite Hmu.
  - intros g st Hg Hn.
    assert (mu (task s) = Some g) as Hmu.
    { apply (wf_lock _ (inv_wf _ _ Hi) _ _ Hg).
      eapply touches_held; eauto. by apply (wf_stacks _ (inv_wf _ _ Hi) _ _ Hg). }
    split; [done|]. apply (last_is_sent h main); [done|].
    unfold holder_pending, pending. by rewrite Hmu, Hg; simpl; rewrite Hn.
  - intros g st v Hg Hn.
    assert (mu (task s) = Some g) as Hmu.
    { apply (wf_lock _ (inv_wf _ _ Hi) _ _ Hg).
      eapply touches_held; eauto. by apply (wf_stacks _ (inv_wf _ _ Hi) _ _ Hg). }
    rewrite (sync_reachable _ _ _ Hr).
    unfold holder_pending, pending. by rewrite Hmu, Hg; simpl; rewrite Hn.
Qed.

Lemma LastResult_is_last_value_sent_witness :
  reachable None sent_main sent_state ∧
  mu (task sent_state) = None ∧
  sent (log sent_state) = [VInt 7] ∧
  lastResult (task sent_state) = default VNil (head (sent (log sent_state))).
Proof.
  split; [apply from_run_reachable|].
  assert (mu (task sent_state) = None) as H1 by (vm_compute; reflexivity).
  split; [exact H1|]. split; [vm_compute; reflexivity|].
  exact (proj1 (LastResult_is_last_value_sent None sent_main sent_state
                  (from_run_reachable _ _ _)) H1).
Defined.

(** X21. The channel loses nothing and keeps the order: in every reachable
    state the values placed on the channel, in the order of the sends, are
    the values received so far, in the order of the receives, followed by
    what is still in the channel. *)
Theorem values_received_in_send_order h main s :
  reachable h main s →
  rev (sent (log s)) = rev (received (log s)) ++ buf (send (task s)).
Proof. apply fifo_reachable. Qed.

Lemma values_received_in_send_order_witness :
  reachable blocked_handler fifo_main fifo_state ∧
  sent (log fifo_state) = [VInt 2; VInt 1] ∧
  rev (sent (log fifo_state)) =
    rev (received (log fifo_state)) ++ buf (send (task fifo_state)).
Proof.
  split; [apply from_run_reachable|]. split; [vm_compute; reflexivity|].
  exact (values_received_in_send_order blocked_handler fifo_main fifo_state
           (from_run_reachable _ _ _)).
Defined.

(** X22. The channel keeps the capacity 1 that [GoRace] gives it and holds
    at most one value, so at most one value sent has not been received yet;
    the handler is the one given to [GoRace]. *)
Theorem channel_holds_at_most_one_value h main s :
  reachable h main s →
  cap (send (task s)) = 1 ∧ length (buf (send (task s))) ≤ 1 ∧
  length (sent (log s)) = length (received (log s)) + length (buf (send (task s))) ∧
  length (sent (log s)) ≤ S (length (received (log s))) ∧
  handler (task s) = h.
Proof.
  intros Hr. pose proof (inv_reachable _ _ _ Hr) as Hi.
  destruct (inv_cap _ _ Hi) as [Hcap Hlen].
  pose proof (f_equal length (fifo_reachable _ _ _ Hr)) as Hf.
  rewrite length_app, !length_rev in Hf.
  split_and?; try done; [lia|by eapply inv_handler].
Qed.

Lemma channel_holds_at_most_one_value_witness :
  reachable blocked_handler blocked_main blocked_state ∧
  cap (send (task blocked_state)) = 1 ∧
  length (buf (send (task blocked_state))) ≤ 1 ∧
  length (sent (log blocked_state)) =
    length (received (log blocked_state)) + length (buf (send (task blocked_state))) ∧
  length (sent (log blocked_state)) ≤ S (length (received (log blocked_state))) ∧
  handler (task blocked_state) = blocked_handler.
Proof.
  split; [apply from_run_reachable|].
  exact (channel_holds_at_most_one_value blocked_handler blocked_main
           blocked_state (from_run_reachable _ _ _)).
Defined.

(** X23. [Cancel] does not discard a value that waits in the channel.  In a
    reachable state in which the channel is closed and holds [w], the task
    is cancelled, [w] had been assigned to [lastResult] by a [Send], and a
    client that receives twice gets [w] and then nil, in eight steps of its
    own and without waiting. *)
Theorem buffered_value_survives_Cancel h main s g f rest k w :
  reachable h main s → crashed s = false →
  closed (send (task s)) = true → buf (send (task s)) = [w] →
  pool s !! g = Some (f :: rest) →
  body f = SCall MReceive :: SRecv :: SCall MReceive :: SRecv :: k →
  canceled (task s) = true ∧ w ∈ assigned (log s) ∧
  run (replicate 8 g) s =
    Some (State (set_send (Chan [] 1 true) (task s))
            (<[g := set_acc (RVal VNil) (set_body k f) :: rest]> (pool s))
            (EvRecv g None :: EvRet g MReceive RChan :: EvCall g MReceive ::
             EvRecv g (Some w) :: EvRet g MReceive RChan :: EvCall g MReceive ::
             log s) false).
Proof.
  intros Hr Hcr Hcl Hbuf Hg Hbody. pose proof (inv_reachable _ _ _ Hr) as Hi.
  destruct (inv_cap _ _ Hi) as [Hcap _]. split_and?.
  - by eapply closed_canceled.
  - apply (inv_buf _ _ Hi). rewrite Hbuf. by left.
  - erewrite run_solo; [|done|done|by apply Receive_twice_closed].
    simpl. by rewrite app_nil_r, Hcap.
Qed.

Lemma buffered_value_survives_Cancel_witness :
  reachable None kept_main kept_state ∧
  crashed kept_state = false ∧
  closed (send (task kept_state)) = true ∧
  buf (send (task kept_state)) = [VInt 7] ∧
  pool kept_state !! 0 = Some [kept_frame] ∧
  canceled (task kept_state) = true ∧ VInt 7 ∈ assigned (log kept_state) ∧
  run (replicate 8 0) kept_state =
    Some (State (set_send (Chan [] 1 true) (task kept_state))
            (<[0 := [set_acc (RVal VNil) (set_body [] kept_frame)]]>
               (pool kept_state))
            (EvRecv 0 None :: EvRet 0 MReceive RChan :: EvCall 0 MReceive ::
             EvRecv 0 (Some (VInt 7)) :: EvRet 0 MReceive RChan ::
             EvCall 0 MReceive :: log kept_state) false).
Proof.
  split; [apply from_run_reachable|].
  assert (crashed kept_state = false) as H1 by (vm_compute; reflexivity).
  assert (closed (send (task kept_state)) = true) as H2
    by (vm_compute; reflexivity).
  assert (buf (send (task kept_state)) = [VInt 7]) as H3
    by (vm_compute; reflexivity).
  assert (pool kept_state !! 0 = Some [kept_frame]) as H4
    by (vm_compute; reflexivity).
  do 4 (split; [assumption|]).
  exact (buffered_value_survives_Cancel None kept_main kept_state 0 kept_frame
           [] [] (VInt 7) (from_run_reachable _ _ _) H1 H2 H3 H4 eq_refl).
Defined.

(** X24. Round trip.  On a task that is not cancelled and whose channel is
    empty, with the mutex free, a client that calls [Send(v)], receives and
    calls [LastResult()] runs these calls in eighteen steps of its own
    without waiting: it receives [v], [LastResult()] returns [v], the
    channel is empty again and nothing else has changed. *)
Theorem Send_Receive_LastResult_round_trip h main s g f rest k v :
  reachable h main s → crashed s = false → mu (task s) = None →
  canceled (task s) = false → buf (send (task s)) = [] →
  pool s !! g = Some (f :: rest) →
  body f = SCall (MSend v) :: SCall MReceive :: SRecv :: SCall MLastResult :: k →
  run (replicate 18 g) s =
    Some (State (set_lastResult v (task s))
            (<[g := set_acc (RVal v) (set_body k f) :: rest]> (pool s))
            (EvRet g MLastResult (RVal v) :: EvCall g MLastResult ::
             EvRecv g (Some v) :: EvRet g MReceive RChan :: EvCall g MReceive ::
             EvRet g (MSend v) RVoid :: EvChanSend g v :: EvAssign g v ::
             EvCall g (MSend v) :: log s) false).
Proof.
  intros Hr Hcr Hmu Hc Hbuf Hg Hbody. pose proof (inv_reachable _ _ _ Hr) as Hi.
  destruct (inv_cap _ _ Hi) as [Hcap _].
  destruct (inv_free _ _ Hi Hmu) as [Hcl _].
  erewrite run_solo; [|done|done|apply Send_Receive_LastResult; try done].
  - simpl. by rewrite app_nil_r.
  - destruct (send (task s)); simpl in *; congruence.
Qed.

Lemma Send_Receive_LastResult_round_trip_witness :
  reachable None trip_main (init None trip_main) ∧
  pool (init None trip_main) !! 0 = Some [trip_frame] ∧
  run (replicate 18 0) (init None trip_main) =
    Some (State (set_lastResult (VInt 7) (GoRace None))
            [[set_acc (RVal (VInt 7)) (set_body [] trip_frame)]]
            [EvRet 0 MLastResult (RVal (VInt 7)); EvCall 0 MLastResult;
             EvRecv 0 (Some (VInt 7)); EvRet 0 MReceive RChan; EvCall 0 MReceive;
             EvRet 0 (MSend (VInt 7)) RVoid; EvChanSend 0 (VInt 7);
             EvAssign 0 (VInt 7); EvCall 0 (MSend (VInt 7))] false).
Proof.
  split; [apply reach_init|]. split; [reflexivity|].
  exact (Send_Receive_LastResult_round_trip None trip_main (init None trip_main)
           0 trip_frame [] [] (VInt 7) (reach_init _ _)
           eq_refl eq_refl eq_refl eq_refl eq_refl eq_refl).
Defined.

(** X25. [StartBackground] is [go gc.Start(ctx)].  It returns the task after
    four steps without touching it; the goroutine it has started, run on
    its own with the mutex free, does what [Start] does: on a task neither
    cancelled nor started it sets [started] and launches the handler
    goroutine, otherwise it changes nothing; then it ends. *)
Theorem StartBackground_is_go_Start s g f rest k :
  crashed s = false → mu (task s) = None →
  pool s !! g = Some (f :: rest) → body f = SCall MStartBackground :: k →
  (canceled (task s) = false → started (task s) = false →
   run (replicate 4 g ++ replicate 8 (length (pool s))) s =
     Some (State (set_started (task s))
             (<[g := set_acc RSelf (set_body k f) :: rest]> (pool s) ++
              [[]; [new_frame (task s) MgoFunc]])
             (EvRet (length (pool s)) MStart RSelf ::
              EvGo (length (pool s)) MgoFunc ::
              EvRet g MStartBackground RSelf :: EvGo g MStart ::
              EvCall g MStartBackground :: log s) false)) ∧
  (canceled (task s) || started (task s) = true →
   run (replicate 4 g ++ replicate 6 (length (pool s))) s =
     Some (State (task s)
             (<[g := set_acc RSelf (set_body k f) :: rest]> (pool s) ++ [[]])
             (EvRet (length (pool s)) MStart RSelf ::
              EvRet g MStartBackground RSelf :: EvGo g MStart ::
              EvCall g MStartBackground :: log s) false)).
Proof.
  intros Hcr Hmu Hg Hbody.
  pose proof (lookup_lt_Some _ _ _ Hg) as Hlt.
  assert (run (replicate 4 g) s =
            Some (State (task s)
                    (<[g := set_acc RSelf (set_body k f) :: rest]> (pool s) ++
                     [[new_frame (task s) MStart]])
                    (EvRet g MStartBackground RSelf :: EvGo g MStart ::
                     EvCall g MStartBackground :: log s) false)) as H1.
  { erewrite run_solo; [|done|done|by apply StartBackground_call]. done. }
  assert (∀ p : list (list frame), length p = length (pool s) →
            (p ++ [[new_frame (task s) MStart]]) !! length (pool s) =
              Some [new_frame (task s) MStart]) as Hlk.
  { intros p Hp. rewrite lookup_app_r by lia. by rewrite Hp, Nat.sub_diag. }
  assert (∀ (p : list (list frame)) x, length p = length (pool s) →
            <[length (pool s) := x]> (p ++ [[new_frame (task s) MStart]]) =
              p ++ [x]) as Hins.
  { intros p x Hp. rewrite insert_app_r_alt by lia. by rewrite Hp, Nat.sub_diag. }
  split.
  - intros Hc Hs. rewrite run_app, H1. cbn [mbind option_bind].
    erewrite run_solo; [|done|by apply Hlk; rewrite length_insert|
                        by apply Start_goroutine_first].
    simpl. rewrite Hins by (by rewrite length_insert).
    by rewrite <- (assoc_L (++)).
  - intros Hc. rewrite run_app, H1. cbn [mbind option_bind].
    erewrite run_solo; [|done|by apply Hlk; rewrite length_insert|
                        by apply Start_goroutine_again].
    simpl. rewrite Hins by (by rewrite length_insert).
    by rewrite app_nil_r.
Qed.

Lemma StartBackground_is_go_Start_witness :
  pool (init handler_send_true background_main) !! 0 = Some [background_frame] ∧
  run (replicate 4 0 ++ replicate 8 1) (init handler_send_true background_main) =
    Some (State (set_started (GoRace handler_send_true))
            [[set_acc RSelf (set_body [] background_frame)]; [];
             [new_frame (GoRace handler_send_true) MgoFunc]]
            [EvRet 1 MStart RSelf; EvGo 1 MgoFunc;
             EvRet 0 MStartBackground RSelf; EvGo 0 MStart;
             EvCall 0 MStartBackground] false).
Proof.
  split; [reflexivity|].
  exact (proj1 (StartBackground_is_go_Start
                  (init handler_send_true background_main) 0 background_frame
                  [] [] eq_refl eq_refl eq_refl eq_refl) eq_refl eq_refl).
Defined.
